(** * Verification of the metric and loss utilities of progettoMLDL

    The development embeds [src/utils.py] (mean IoU, fast-histogram scorer,
    focal sigmoid loss) and the drivers of [src/train_icnet_mulit.py].

    Numeric conventions.  float64 / float32 values are idealised: the IoU
    metrics are computed over exact rationals [Q] (the literal [1e-9] is the
    rational [1/10^9]), the focal loss over the real numbers [R], the
    learning-rate schedule over exact rationals within the float64 range
    (leaving the range is modelled: an OverflowError of [**], an infinity
    for a product).  Integer label arrays are the flattened [list Z] of
    their elements, that is, one-dimensional arrays; numpy's element-wise
    operations do not depend on the shape once both operands have the same
    one.  Statements about arrays of different sizes are statements about
    one-dimensional arrays. *)

From Stdlib Require Import ZArith QArith Qabs List Bool Lia Lqa.
From Stdlib Require Import Reals Lra.
From Stdlib Require Import Permutation Qpower.
From Stdlib Require String.
Import ListNotations.

#[local] Close Scope R_scope.

(** Linear arithmetic over the rationals ([lra] is the one of the reals). *)
Ltac lraQ := Lqa.lra.
Ltac nraQ := Lqa.nra.

(** ** Python exceptions as an error monad *)

Inductive pyexn : Type :=
| IndexError
| ZeroDivisionError
| ValueError
| TypeError
| OverflowError.

Inductive result (A : Type) : Type :=
| Ok (a : A)
| Raise (e : pyexn).

Arguments Ok {A} a.
Arguments Raise {A} e.

Definition bind {A B : Type} (m : result A) (k : A -> result B) : result B :=
  match m with
  | Ok a => k a
  | Raise e => Raise e
  end.

Declare Scope py_scope.
Delimit Scope py_scope with py.
Notation "x <- m ;; k" := (bind m (fun x => k))
  (at level 61, m at next level, right associativity) : py_scope.

(** ** numpy on flattened integer arrays *)

Module Np.

Definition ndarray := list Z.

(** [a == i] : element-wise comparison with a scalar. *)
Definition eq_scalar (a : ndarray) (i : Z) : list bool :=
  map (fun x => Z.eqb x i) a.

(** Selection of the entries of [a] at the true positions of [m]. *)
Fixpoint select {A : Type} (a : list A) (m : list bool) : list A :=
  match a, m with
  | x :: a', b :: m' => if b then x :: select a' m' else select a' m'
  | _, _ => []
  end.

(** Element-wise binary operation on two arrays of the same shape. *)
Fixpoint zip_with {A B C : Type} (f : A -> B -> C) (a : list A) (b : list B)
  : list C :=
  match a, b with
  | x :: a', y :: b' => f x y :: zip_with f a' b'
  | _, _ => []
  end.

(** [a[m]] : boolean-mask indexing of a one-dimensional array.  numpy accepts
    a mask of the size of [a] and, as a special case, an empty mask (which
    selects nothing, whatever the size of [a]); any other mask raises
    [IndexError]. *)
Definition mask_index {A : Type} (a : list A) (m : list bool) : result (list A) :=
  if (Nat.eqb (length m) 0 || Nat.eqb (length a) (length m))%bool
  then Ok (select a m) else Raise IndexError.

(** [np.sum] of a boolean array: the number of true entries. *)
Fixpoint sum_bool (m : list bool) : Z :=
  match m with
  | [] => 0
  | b :: m' => (if b then 1 else 0) + sum_bool m'
  end.

(** [range(n)] *)
Definition range (n : Z) : list Z := map Z.of_nat (seq 0 (Z.to_nat n)).

(** Sum of a list of rationals. *)
Fixpoint Qsum (l : list Q) : Q :=
  match l with
  | [] => 0%Q
  | x :: l' => (x + Qsum l')%Q
  end.

End Np.

(** ** [calculate_mean_iu] (utils.py, lines 25-35) *)

Module MeanIU.
Import Np.
Local Open Scope Q_scope.
Local Open Scope py_scope.

Definition epsilon : Q := 1 # 1000000000.

(** The three accumulators [n_ii], [t_i], [sum_n_ji]. *)
Record accum : Type := mkAccum { n_ii : Q; t_i : Q; sum_n_ji : Q }.

(** Body of [for p, gt in zip(predictions, gts)]. *)
Definition pair_step (i : Z) (acc : accum) (p gt : ndarray) : result accum :=
  sel <- mask_index gt (eq_scalar p i) ;;
  Ok (mkAccum (n_ii acc + inject_Z (sum_bool (eq_scalar sel i)))
              (t_i acc + inject_Z (sum_bool (eq_scalar gt i)))
              (sum_n_ji acc + inject_Z (sum_bool (eq_scalar p i)))).

Fixpoint inner_loop (i : Z) (pairs : list (ndarray * ndarray)) (acc : accum)
  : result accum :=
  match pairs with
  | [] => Ok acc
  | (p, gt) :: rest =>
      acc' <- pair_step i acc p gt ;;
      inner_loop i rest acc'
  end.

(** The term added to [sum_iu] for class [i]. *)
Definition class_iu (pairs : list (ndarray * ndarray)) (i : Z) : result Q :=
  acc <- inner_loop i pairs (mkAccum epsilon epsilon epsilon) ;;
  Ok (n_ii acc / (t_i acc + sum_n_ji acc - n_ii acc)).

(** Body of [for i in range(num_classes)]. *)
Fixpoint outer_loop (pairs : list (ndarray * ndarray)) (classes : list Z)
  (sum_iu : Q) : result Q :=
  match classes with
  | [] => Ok sum_iu
  | i :: rest =>
      iu <- class_iu pairs i ;;
      outer_loop pairs rest (sum_iu + iu)
  end.

Definition calculate_mean_iu (predictions gts : list ndarray) (num_classes : Z)
  : result Q :=
  sum_iu <- outer_loop (combine predictions gts) (range num_classes) 0 ;;
  if Z.eqb num_classes 0 then Raise ZeroDivisionError
  else Ok (sum_iu / inject_Z num_classes).

(** *** The reference algorithm, following the specification's wording *)

(** Number of positions of a (prediction, ground truth) pair satisfying [f]. *)
Definition count_positions (f : Z -> Z -> bool) (p gt : ndarray) : Z :=
  Z.of_nat (length (filter (fun pg => f (fst pg) (snd pg)) (combine p gt))).

Definition both_eq (i : Z) (x y : Z) : bool := Z.eqb y i && Z.eqb x i.
Definition truth_eq (i : Z) (_ y : Z) : bool := Z.eqb y i.
Definition pred_eq (i : Z) (x _ : Z) : bool := Z.eqb x i.

(** An accumulator increased by a count per pair, started at epsilon. *)
Definition spec_fold (f : Z -> Z -> bool) (pairs : list (ndarray * ndarray))
  (a : Q) : Q :=
  fold_left (fun a pg => a + inject_Z (count_positions f (fst pg) (snd pg)))
            pairs a.

Definition spec_accumulate (f : Z -> Z -> bool) (pairs : list (ndarray * ndarray)) : Q :=
  spec_fold f pairs epsilon.

Definition spec_IoU (pairs : list (ndarray * ndarray)) (i : Z) : Q :=
  let n := spec_accumulate (both_eq i) pairs in
  let t := spec_accumulate (truth_eq i) pairs in
  let s := spec_accumulate (pred_eq i) pairs in
  n / (t + s - n).

Definition spec_mean_iu (predictions gts : list ndarray) (num_classes : Z) : Q :=
  Qsum (map (spec_IoU (combine predictions gts)) (range num_classes))
  / inject_Z num_classes.

(** A pair of label maps is well shaped when both have the same shape. *)
Definition same_shape (pg : ndarray * ndarray) : Prop :=
  length (fst pg) = length (snd pg).

(** A pair on which the indexing [gt[p == i]] of the loop body succeeds: the
    prediction has the size of the ground truth, or it is empty. *)
Definition indexable (pg : ndarray * ndarray) : Prop :=
  fst pg = [] \/ length (fst pg) = length (snd pg).

(** The order between the accumulators that the loop body preserves:
    [0 < n_ii <= t_i] and [n_ii <= sum_n_ji]. *)
Definition ordered (acc : accum) : Prop :=
  0 < n_ii acc /\ n_ii acc <= t_i acc /\ n_ii acc <= sum_n_ji acc.

(** A pair on which the indexing fails: a non-empty prediction whose size
    differs from that of the ground truth. *)
Definition mismatched (pg : ndarray * ndarray) : Prop :=
  fst pg <> [] /\ length (fst pg) <> length (snd pg).

(** Class [i] occurs in no prediction and in no ground-truth map. *)
Definition absent (i : Z) (predictions gts : list ndarray) : Prop :=
  Forall (fun p => ~ In i p) predictions /\ Forall (fun gt => ~ In i gt) gts.

(** The classes of [range(num_classes)] other than [i]. *)
Definition other_classes (i num_classes : Z) : list Z :=
  filter (fun j => negb (Z.eqb j i)) (range num_classes).

End MeanIU.

(** ** [_fast_hist] and [scores] (utils.py, lines 151-181) *)

Module Scorer.
Import Np.
Local Open Scope py_scope.

(** float64 values with the non-finite results of numpy's division. *)
Inductive npfloat : Type :=
| Fin (q : Q)
| PosInf
| NegInf
| NaN.

(** Division of two finite floats, numpy semantics (no exception). *)
Definition fdiv (a b : Q) : npfloat :=
  if Qeq_bool b 0 then
    if Qeq_bool a 0 then NaN
    else if Qle_bool 0 a then PosInf else NegInf
  else Fin (a / b).

Definition fadd (a b : npfloat) : npfloat :=
  match a, b with
  | NaN, _ | _, NaN => NaN
  | Fin x, Fin y => Fin (x + y)
  | PosInf, NegInf | NegInf, PosInf => NaN
  | PosInf, _ | _, PosInf => PosInf
  | NegInf, _ | _, NegInf => NegInf
  end.

Definition finf (positive : bool) : npfloat :=
  if positive then PosInf else NegInf.

(** Sign of a finite factor met by an infinite one; zero gives NaN. *)
Definition fmul_inf (positive : bool) (q : Q) : npfloat :=
  if Qeq_bool q 0 then NaN
  else finf (Bool.eqb positive (Qle_bool 0 q)).

Definition fmul (a b : npfloat) : npfloat :=
  match a, b with
  | NaN, _ | _, NaN => NaN
  | Fin x, Fin y => Fin (x * y)
  | PosInf, Fin q | Fin q, PosInf => fmul_inf true q
  | NegInf, Fin q | Fin q, NegInf => fmul_inf false q
  | PosInf, PosInf | NegInf, NegInf => PosInf
  | PosInf, NegInf | NegInf, PosInf => NegInf
  end.

(** [a > 0] on floats; comparisons with NaN are false. *)
Definition fpos (a : npfloat) : bool :=
  match a with
  | Fin q => negb (Qle_bool q 0)
  | PosInf => true
  | NegInf | NaN => false
  end.

Definition is_nan (a : npfloat) : bool :=
  match a with NaN => true | _ => false end.

(** [.sum()] of a float array. *)
Definition fsum (l : list npfloat) : npfloat := fold_left fadd l (Fin 0).

(** Division of a float by a positive count. *)
Definition fdiv_count (a : npfloat) (k : nat) : npfloat :=
  match a with
  | Fin q => Fin (q / inject_Z (Z.of_nat k))
  | other => other
  end.

(** [np.nanmean]: NaN entries are dropped; the mean of nothing is NaN. *)
Definition nanmean (l : list npfloat) : npfloat :=
  let kept := filter (fun a => negb (is_nan a)) l in
  match kept with
  | [] => NaN
  | _ :: _ => fdiv_count (fsum kept) (length kept)
  end.

(** Sum of an integer array. *)
Fixpoint zsum (l : list Z) : Z :=
  match l with
  | [] => 0%Z
  | x :: l' => (x + zsum l')%Z
  end.

(** [np.bincount(x, minlength)]: negative entries are rejected, the result
    has [max(minlength, max(x) + 1)] bins. *)
Definition count_eq (xs : list Z) (k : Z) : Z :=
  Z.of_nat (count_occ Z.eq_dec xs k).

Definition amax (xs : list Z) : Z := fold_right Z.max (-1)%Z xs.

Definition bincount (xs : list Z) (minlength : Z) : result (list Z) :=
  if existsb (fun x => Z.ltb x 0) xs then Raise ValueError
  else Ok (map (count_eq xs) (range (Z.max minlength (amax xs + 1)))).

(** [.reshape(n, n)] of a flat array, kept flat in row-major order. *)
Definition reshape (flat : list Z) (n : Z) : result (list Z) :=
  if (Z.leb 0 n && Z.eqb (Z.of_nat (length flat)) (n * n))%bool then Ok flat
  else Raise ValueError.

Definition valid_mask (label_true : ndarray) (n_class : Z) : list bool :=
  map (fun x => (Z.leb 0 x && Z.ltb x n_class)%bool) label_true.

Definition _fast_hist (label_true label_pred : ndarray) (n_class : Z)
  : result (list Z) :=
  let mask := valid_mask label_true n_class in
  t <- mask_index label_true mask ;;
  p <- mask_index label_pred mask ;;
  flat <- bincount (zip_with (fun a b => n_class * a + b)%Z t p)
                   (n_class * n_class) ;;
  reshape flat n_class.

(** [np.zeros((n, n))] *)
Definition zeros (n : Z) : result (list Z) :=
  if Z.ltb n 0 then Raise ValueError
  else Ok (repeat 0%Z (Z.to_nat (n * n))).

(** Entry [(i, j)] of the row-major [n] x [n] histogram. *)
Definition entry (hist : list Z) (n i j : Z) : Z :=
  nth (Z.to_nat (n * i + j)) hist 0%Z.

Definition diag (hist : list Z) (n i : Z) : Z := entry hist n i i.

(** [hist.sum(axis=1)[i]] and [hist.sum(axis=0)[i]] *)
Definition row_sum (hist : list Z) (n i : Z) : Z :=
  zsum (map (fun j => entry hist n i j) (range n)).
Definition col_sum (hist : list Z) (n i : Z) : Z :=
  zsum (map (fun j => entry hist n j i) (range n)).

Record summary : Type := mkSummary {
  overall_acc : npfloat;
  mean_acc : npfloat;
  freqw_acc : npfloat;
  mean_iou : npfloat;
  cls_iu : list (Z * npfloat)
}.

(** Per-class arrays computed from the histogram. *)
Definition acc_cls_arr (hist : list Z) (n : Z) : list npfloat :=
  map (fun i => fdiv (inject_Z (diag hist n i)) (inject_Z (row_sum hist n i)))
      (range n).

Definition iu_arr (hist : list Z) (n : Z) : list npfloat :=
  map (fun i => fdiv (inject_Z (diag hist n i))
                     (inject_Z (row_sum hist n i + col_sum hist n i - diag hist n i)))
      (range n).

Definition freq_arr (hist : list Z) (n : Z) : list npfloat :=
  map (fun i => fdiv (inject_Z (row_sum hist n i)) (inject_Z (zsum hist)))
      (range n).

(** Lines 169-181: the metrics of an accumulated histogram. *)
Definition metrics (hist : list Z) (n : Z) : summary :=
  let acc := fdiv (inject_Z (zsum (map (diag hist n) (range n))))
                  (inject_Z (zsum hist)) in
  let acc_cls := nanmean (acc_cls_arr hist n) in
  let iu := iu_arr hist n in
  let mean_iu := nanmean iu in
  let freq := freq_arr hist n in
  let keep := map fpos freq in
  let fwavacc := fsum (zip_with fmul (select freq keep) (select iu keep)) in
  mkSummary acc acc_cls fwavacc mean_iu (combine (range n) iu).

(** Lines 166-168: accumulation of the histogram over the zipped maps. *)
Fixpoint accumulate (pairs : list (ndarray * ndarray)) (n_class : Z)
  (hist : list Z) : result (list Z) :=
  match pairs with
  | [] => Ok hist
  | (lt, lp) :: rest =>
      h <- _fast_hist lt lp n_class ;;
      accumulate rest n_class (zip_with Z.add hist h)
  end.

Definition histogram (label_trues label_preds : list ndarray) (n_class : Z)
  : result (list Z) :=
  hist0 <- zeros n_class ;;
  accumulate (combine label_trues label_preds) n_class hist0.

Definition scores (label_trues label_preds : list ndarray) (n_class : Z)
  : result summary :=
  hist <- histogram label_trues label_preds n_class ;;
  Ok (metrics hist n_class).

(** Equality of float results up to the representation of rationals. *)
Definition feq (a b : npfloat) : Prop :=
  match a, b with
  | Fin x, Fin y => x == y
  | PosInf, PosInf | NegInf, NegInf | NaN, NaN => True
  | _, _ => False
  end.

(** A histogram of [n] x [n] counts. *)
Definition wf_hist (hist : list Z) (n : Z) : Prop :=
  (0 <= n)%Z /\ length hist = Z.to_nat (n * n)
  /\ Forall (fun x => (0 <= x)%Z) hist.

(** A label map whose values all lie in [[0, n)]. *)
Definition in_range (n : Z) (m : ndarray) : Prop :=
  Forall (fun x => (0 <= x < n)%Z) m.

(** Number of pixels of class [i] over a sequence of label maps. *)
Definition class_count (maps : list ndarray) (i : Z) : Z :=
  zsum (map (fun m => count_eq m i) maps).

(** *** Aggregations, following the specification's wording *)

(** Mean of the values [q i] over the classes of [cls]; undefined (NaN)
    when no class is left. *)
Definition mean_over (q : Z -> Q) (cls : list Z) : npfloat :=
  match cls with
  | [] => NaN
  | _ :: _ => Fin (Qsum (map q cls) / inject_Z (Z.of_nat (length cls)))
  end.

(** Classes with a non-zero row sum (some pixel truly of the class). *)
Definition supported (hist : list Z) (n : Z) : list Z :=
  filter (fun i => negb (Z.eqb (row_sum hist n i) 0)) (range n).

(** Classes with a non-zero union (true somewhere or predicted somewhere). *)
Definition touched (hist : list Z) (n : Z) : list Z :=
  filter (fun i => negb (Z.eqb (row_sum hist n i + col_sum hist n i
                                - diag hist n i) 0))
         (range n).

Definition class_acc (hist : list Z) (n i : Z) : Q :=
  inject_Z (diag hist n i) / inject_Z (row_sum hist n i).

Definition class_iou (hist : list Z) (n i : Z) : Q :=
  inject_Z (diag hist n i)
  / inject_Z (row_sum hist n i + col_sum hist n i - diag hist n i).

Definition class_freq (hist : list Z) (n i : Z) : Q :=
  inject_Z (row_sum hist n i) / inject_Z (zsum hist).

(** Sum of [freq_i * IoU_i] over the classes with [freq_i > 0]. *)
Definition spec_fwavacc (hist : list Z) (n : Z) : Q :=
  Qsum (map (fun i => class_freq hist n i * class_iou hist n i)
            (supported hist n)).

End Scorer.

(** ** [FocalSigmoidLossFuncV2] (utils.py, lines 57-103), one tensor element *)

Module FocalLoss.
Local Open Scope R_scope.

(** [torch.sigmoid], over the reals, where it lies strictly between 0 and 1.
    The float sigmoid saturates: for logits of large magnitude its value is
    exactly 0.0 or 1.0, so that [label - probs] can be zero for a binary
    label too.  The statements on [backward] therefore take [gamma >= 1]:
    both exponents [gamma] and [gamma - 1] are then non-negative, where
    [pow_] agrees with torch also at base zero. *)
Definition sigmoid (x : R) : R := / (1 + exp (- x)).

(** [F.softplus(x, beta, threshold)]: linear once [x * beta] exceeds the
    threshold. *)
Definition softplus (x beta threshold : R) : R :=
  if Rle_dec (x * beta) threshold then / beta * ln (1 + exp (beta * x))
  else x.

(** [pow_] on a non-negative base (the base is always an absolute value).
    torch yields [0 ** 0 = 1] and [0 ** e = 0] for positive [e], and so does
    [pow_].  For a negative exponent at base zero torch yields [+inf], which
    has no real value; [pow_] is 0 there and does not stand for the value
    torch computes.  The base [|label - probs|] is zero for a soft label
    equal to the probability and, in floating point, for a binary label at
    a saturated sigmoid: the statements on [backward] avoid the case by
    taking [gamma >= 1]. *)
Definition pow_ (base e : R) : R :=
  if Req_dec_T base 0 then (if Req_dec_T e 0 then 1 else 0)
  else Rpower base e.

(** [torch.where(cond, a, b)] on one element. *)
Definition where_ (cond : bool) (a b : R) : R := if cond then a else b.

Definition ge0 (x : R) : bool := if Rle_dec 0 x then true else false.
Definition lt (x y : R) : bool := if Rlt_dec x y then true else false.

(** The tuple saved in [ctx.vars]. *)
Record ctx_vars : Type := mkCtx {
  coeff : R; probs : R; ce : R; label : R; gamma : R; alpha : R
}.

Definition log_probs (logits : R) : R :=
  where_ (ge0 logits)
         (softplus logits (-1) 50)
         (logits - softplus logits 1 50).

Definition log_1_probs (logits : R) : R :=
  where_ (ge0 logits)
         (- logits + softplus logits (-1) 50)
         (- softplus logits 1 50).

Definition forward_ctx (logits label alpha gamma : R) : R * ctx_vars :=
  let probs := sigmoid logits in
  let coeff := - pow_ (Rabs (label - probs)) gamma in
  let ce_term1 := log_probs logits * label * alpha in
  let ce_term2 := log_1_probs logits * (1 - label) * (1 - alpha) in
  let ce := ce_term1 + ce_term2 in
  let loss := ce * coeff in
  (loss, mkCtx coeff probs ce label gamma alpha).

Definition forward (logits label alpha gamma : R) : R :=
  fst (forward_ctx logits label alpha gamma).

Definition backward (ctx : ctx_vars) (grad_output : R) : R :=
  let '(mkCtx coeff probs ce label gamma alpha) := ctx in
  let d_coeff := pow_ (Rabs (label - probs)) (gamma - 1) * gamma in
  let d_coeff := d_coeff * probs * (1 - probs) in
  let d_coeff := where_ (lt label probs) (- d_coeff) d_coeff in
  let term1 := d_coeff * ce in
  let d_ce := label * alpha in
  let d_ce := d_ce - probs * (label * alpha * 2 + 1 - label - alpha) in
  let term2 := d_ce * coeff in
  let grads := term1 + term2 in
  grads * grad_output.

(** The gradient autograd obtains for [logits]: backward on the saved
    context of forward. *)
Definition grad_logits (logits label alpha gamma grad_output : R) : R :=
  backward (snd (forward_ctx logits label alpha gamma)) grad_output.

(** *** The closed form, following the specification's wording *)

Definition spec_d_coeff (logits label gamma : R) : R :=
  let p := sigmoid logits in
  let d := gamma * pow_ (Rabs (label - p)) (gamma - 1) * p * (1 - p) in
  if Rlt_dec label p then - d else d.

Definition spec_d_ce (logits label alpha : R) : R :=
  let p := sigmoid logits in
  alpha * label - p * (2 * alpha * label + 1 - label - alpha).

Definition spec_term1 (logits label alpha gamma : R) : R :=
  spec_d_coeff logits label gamma
  * ce (snd (forward_ctx logits label alpha gamma)).

Definition spec_term2 (logits label alpha gamma : R) : R :=
  spec_d_ce logits label alpha
  * coeff (snd (forward_ctx logits label alpha gamma)).

(** Fixed-point lower bounds of repeated squares, used to bracket [ln 2]:
    [sq_iter k m] is at most [m ^ (2 ^ k)] at the scale [fix_scale]. *)
Definition fix_scale : Z := 1000000000000000.

Fixpoint sq_iter (k : nat) (m : Z) : Z :=
  match k with
  | O => m
  | S k' => sq_iter k' (m * m / fix_scale)
  end.

(** The cross-entropy term of forward, as a function of the logits. *)
Definition ce_of (label alpha : R) (z : R) : R :=
  log_probs z * label * alpha + log_1_probs z * (1 - label) * (1 - alpha).

(** The modulating factor of forward, as a function of the logits. *)
Definition coeff_of (label gamma : R) (z : R) : R :=
  - pow_ (Rabs (label - sigmoid z)) gamma.

End FocalLoss.

(** ** The drivers of train_icnet_mulit.py *)

Module Driver.
Import Np.
Local Open Scope py_scope.

(** Calls on the collaborators, in the order they are made. *)
Inductive event : Type :=
| NetTrain
| NetEval
| SchedulerCreate
| ZeroGrad
| NetForward
| Criterion
| LossBackward
| OptimizerStep
| SchedulerStep
| ValidateCall (epoch : Z).

Definition event_eq_dec (a b : event) : {a = b} + {a <> b}.
Proof. decide equality. apply Z.eq_dec. Defined.

(** A Python value returned by a metric function. *)
Inductive pyval : Type :=
| PyFloat (q : Q)
| PyTuple (items : list Q).

(** [a, b, c, d, e, f = v] *)
Definition unpack6 (v : pyval) : result (Q * Q * Q * Q * Q * Q) :=
  match v with
  | PyFloat _ => Raise TypeError
  | PyTuple [a; b; c; d; e; f] => Ok (a, b, c, d, e, f)
  | PyTuple _ => Raise ValueError
  end.

(** [calculate_mean_iu] of utils.py seen as a Python value. *)
Definition utils_calculate_mean_iu (predictions gts : list ndarray)
  (num_classes : Z) : result pyval :=
  m <- MeanIU.calculate_mean_iu predictions gts num_classes ;;
  Ok (PyFloat m).

Section Loops.

(** A batch of the loaders and the network followed by softmax and
    argmax on the primary output; the driver imports its metric with
    [from utils2 import *]. *)
Variable image : Type.
Variable predict : image -> ndarray.
Variable calculate_mean_iu : list ndarray -> list ndarray -> Z -> result pyval.
Variable NUM_CLASSES : Z.

Definition batch : Type := (image * ndarray)%type.

(** Lines 67-76: one iteration per batch of the loader. *)
Definition train_batch (data : batch) : list event :=
  [ZeroGrad; NetForward; Criterion; OptimizerStep].

Definition train (train_loader : list batch) : list event :=
  flat_map train_batch train_loader.

(** Lines 95-117: the running sums [mean_classe0 .. mean_tot]. *)
Definition sums : Type := (Q * Q * Q * Q * Q * Q)%type.

Definition add_sums (s m : sums) : sums :=
  let '(s0, s1, s2, s3, s4, s5) := s in
  let '(m0, m1, m2, m3, m4, m5) := m in
  (s0 + m0, s1 + m1, s2 + m2, s3 + m3, s4 + m4, s5 + m5)%Q.

Definition validate_batch (data : batch) (s : sums) : result sums :=
  let '(inputs, labels) := data in
  let predicted := predict inputs in
  v <- calculate_mean_iu [predicted] [labels] NUM_CLASSES ;;
  m <- unpack6 v ;;
  Ok (add_sums s m).

Fixpoint validate_loop (val_loader : list batch) (s : sums) : result sums :=
  match val_loader with
  | [] => Ok s
  | data :: rest =>
      s' <- validate_batch data s ;;
      validate_loop rest s'
  end.

(** Lines 80-132: the six printed averages. *)
Definition validate (val_loader : list batch) : result (list Q) :=
  s <- validate_loop val_loader (0, 0, 0, 0, 0, 0)%Q ;;
  if Nat.eqb (length val_loader) 0 then Raise ZeroDivisionError
  else
    let len := inject_Z (Z.of_nat (length val_loader)) in
    let '(s0, s1, s2, s3, s4, s5) := s in
    Ok [s0 / len; s1 / len; s2 / len; s3 / len; s4 / len; s5 / len]%Q.

(** Lines 56-64: the epochs; an exception of [validate] aborts the run. *)
Fixpoint epochs (train_loader val_loader : list batch) (es : list Z)
  : list event * result unit :=
  match es with
  | [] => ([], Ok tt)
  | epoch :: rest =>
      let tr := train train_loader ++ [ValidateCall epoch] in
      match validate val_loader with
      | Raise e => (tr, Raise e)
      | Ok _ =>
          let '(tr', r) := epochs train_loader val_loader rest in
          (tr ++ tr', r)
      end
  end.

(** Lines 49-64 of [main]. *)
Definition main (MAX_EPOCH : Z) (train_loader val_loader : list batch)
  : list event * result unit :=
  let prefix := [NetTrain; SchedulerCreate; ValidateCall (-1)] in
  match validate val_loader with
  | Raise e => (prefix, Raise e)
  | Ok _ =>
      let '(tr, r) := epochs train_loader val_loader (range MAX_EPOCH) in
      (prefix ++ tr, r)
  end.

End Loops.

Definition count_event (e : event) (tr : list event) : nat :=
  count_occ event_eq_dec tr e.

End Driver.

(** ** Notions used to describe [_fast_hist] *)

Module Pixels.
Import Np Scorer.

(** The argument of [np.bincount] in [_fast_hist]: the linear index
    [n_class * true + pred] of every pixel kept by the mask. *)
Definition pixel_indices (label_true label_pred : ndarray) (n_class : Z)
  : list Z :=
  let mask := valid_mask label_true n_class in
  zip_with (fun a b => n_class * a + b)%Z
           (select label_true mask) (select label_pred mask).

(** A pixel of true class [i] predicted as class [j]. *)
Definition pair_is (i j : Z) (t p : Z) : bool := (Z.eqb t i && Z.eqb p j)%bool.

End Pixels.

(** ** [FocalLossV2] (utils.py, lines 105-129) *)

Module FocalModule.
Import String.
Local Open Scope R_scope.

(** What [forward] returns: a scalar, the NaN of the mean of an empty
    tensor, or the tensor of the element-wise losses. *)
Inductive tensor : Type :=
| Scalar (v : R)
| NaNScalar
| Elements (vs : list R).

(** The attributes set by [__init__]. *)
Record FocalLossV2 : Type := mkFocalLossV2 {
  alpha : R;
  gamma : R;
  reduction : string
}.

Definition MEAN : string := "mean".
Definition SUM : string := "sum".

(** The defaults of [__init__]. *)
Definition default : FocalLossV2 := mkFocalLossV2 (1 / 4) 2 MEAN.

Fixpoint Rsum (vs : list R) : R :=
  match vs with
  | nil => 0
  | cons v vs' => v + Rsum vs'
  end.

(** [loss.mean()] *)
Definition mean (t : tensor) : tensor :=
  match t with
  | Elements nil => NaNScalar
  | Elements vs => Scalar (Rsum vs / INR (List.length vs))
  | other => other
  end.

(** [loss.sum()] *)
Definition sum (t : tensor) : tensor :=
  match t with
  | Elements vs => Scalar (Rsum vs)
  | other => other
  end.

(** [forward(self, logits, label)] on the list of the (logit, label)
    elements of two tensors of one shape. *)
Definition forward (self : FocalLossV2) (elements : list (R * R)) : tensor :=
  let loss :=
    Elements (List.map (fun e => FocalLoss.forward (fst e) (snd e)
                                   (alpha self) (gamma self)) elements) in
  let loss := if String.eqb (reduction self) MEAN then mean loss else loss in
  let loss := if String.eqb (reduction self) SUM then sum loss else loss in
  loss.

(** The element-wise losses [FocalSigmoidLossFuncV2.apply] computes. *)
Definition element_losses (a g : R) (elements : list (R * R)) : list R :=
  List.map (fun e => FocalLoss.forward (fst e) (snd e) a g) elements.

End FocalModule.

(** ** [adjust_learning_rate] (utils.py, lines 18-23) *)

Module Schedule.
Local Open Scope Q_scope.
Local Open Scope py_scope.

(** A Python float: a finite value, idealised as an exact rational, or an
    infinity. *)
Inductive pyfloat : Type :=
| Finite (q : Q)
| Infinity (positive : bool).

(** A float64 result whose magnitude reaches [2^1024 - 2^970] rounds to
    infinity. *)
Definition float_overflow : Q := inject_Z (2 ^ 1024 - 2 ^ 970).

Definition overflows (x : Q) : bool := Qle_bool float_overflow (Qabs x).

(** A parameter group of the optimizer: its ['lr'] entry and the other
    entries, which the function does not touch. *)
Record param_group (A : Type) : Type := mkGroup { lr : pyfloat; others : A }.
Arguments mkGroup {A} lr others.
Arguments lr {A} p.
Arguments others {A} p.

(** [base ** k] for a float base and an int exponent.  The exponent is
    first converted to a float (OverflowError for an int out of the float
    range); zero cannot be raised to a negative power (ZeroDivisionError); a
    power out of the float range raises OverflowError. *)
Definition float_pow (base : Q) (k : Z) : result Q :=
  if overflows (inject_Z k) then Raise OverflowError
  else if (Qeq_bool base 0 && Z.ltb k 0)%bool then Raise ZeroDivisionError
  else if overflows (base ^ k) then Raise OverflowError
  else Ok (base ^ k).

(** [a * b] on two finite floats: a product out of the float range is an
    infinity, not an error. *)
Definition float_mul (a b : Q) : pyfloat :=
  if overflows (a * b) then Infinity (Qle_bool 0 (a * b)) else Finite (a * b).

(** [cur_epoch // n_epochs] *)
Definition floordiv (a b : Z) : result Z :=
  if Z.eqb b 0 then Raise ZeroDivisionError else Ok (a / b)%Z.

(** [new_lr = lr * (decay ** (cur_epoch // n_epochs))] *)
Definition new_lr (lr0 decay : Q) (cur_epoch n_epochs : Z) : result pyfloat :=
  k <- floordiv cur_epoch n_epochs ;;
  f <- float_pow decay k ;;
  Ok (float_mul lr0 f).

Definition adjust_learning_rate {A : Type} (lr0 decay : Q)
  (param_groups : list (param_group A)) (cur_epoch n_epochs : Z)
  : result (list (param_group A)) :=
  v <- new_lr lr0 decay cur_epoch n_epochs ;;
  Ok (map (fun g => mkGroup v (others g)) param_groups).

(** The float [x] is finite and has the value [q]. *)
Definition rate_is (x : pyfloat) (q : Q) : Prop :=
  match x with
  | Finite v => v == q
  | Infinity _ => False
  end.

End Schedule.

(** ** Notions used to describe [validate] *)

Module Averages.
Import Np Driver.

(** The six running sums as a list, in the order they are printed. *)
Definition components (s : Q * Q * Q * Q * Q * Q) : list Q :=
  let '(s0, s1, s2, s3, s4, s5) := s in [s0; s1; s2; s3; s4; s5].

End Averages.

(** ** [rmrf_mkdir] and [rm_file] (utils.py, lines 132-139) *)

Module Files.

(** A path is the list of its components below the root; a file system
    maps the paths that exist to a regular file or a directory (no symbolic
    links, no permissions). *)
Definition path : Type := list String.string.

Inductive node : Type :=
| File
| Dir.

Definition filesystem : Type := path -> option node.

(** The OSError subclasses raised by the calls below (on Linux). *)
Inductive oserror : Type :=
| FileNotFoundError
| FileExistsError
| NotADirectoryError
| IsADirectoryError.

Inductive outcome : Type :=
| Done (fs : filesystem)
| Failed (e : oserror).

Definition path_eqb (p q : path) : bool :=
  if list_eq_dec String.string_dec p q then true else false.

(** [p] is [d] or lies below [d]. *)
Fixpoint under (d p : path) : bool :=
  match d, p with
  | [], _ => true
  | x :: d', y :: p' =>
      if String.string_dec x y then under d' p' else false
  | _ :: _, [] => false
  end.

Definition parent (p : path) : path := removelast p.

(** [os.path.exists] *)
Definition exists_ (fs : filesystem) (p : path) : bool :=
  match fs p with
  | Some _ => true
  | None => false
  end.

(** [shutil.rmtree]: the directory and everything below it. *)
Definition rmtree (fs : filesystem) (d : path) : outcome :=
  match fs d with
  | None => Failed FileNotFoundError
  | Some File => Failed NotADirectoryError
  | Some Dir => Done (fun p => if under d p then None else fs p)
  end.

(** [os.mkdir]: one new directory inside an existing one. *)
Definition mkdir (fs : filesystem) (d : path) : outcome :=
  match fs d with
  | Some _ => Failed FileExistsError
  | None =>
      match fs (parent d) with
      | None => Failed FileNotFoundError
      | Some File => Failed NotADirectoryError
      | Some Dir => Done (fun p => if path_eqb p d then Some Dir else fs p)
      end
  end.

(** [os.remove]: a regular file only. *)
Definition remove (fs : filesystem) (p : path) : outcome :=
  match fs p with
  | None => Failed FileNotFoundError
  | Some Dir => Failed IsADirectoryError
  | Some File => Done (fun q => if path_eqb q p then None else fs q)
  end.

Definition rmrf_mkdir (fs : filesystem) (dir_name : path) : outcome :=
  if exists_ fs dir_name then
    match rmtree fs dir_name with
    | Done fs' => mkdir fs' dir_name
    | Failed e => Failed e
    end
  else mkdir fs dir_name.

Definition rm_file (fs : filesystem) (path_file : path) : outcome :=
  if exists_ fs path_file then remove fs path_file else Done fs.

(** The file system left by [rmrf_mkdir]: [d] is an empty directory and
    the rest is as before. *)
Definition fresh_at (fs : filesystem) (d : path) : filesystem :=
  fun p => if path_eqb p d then Some Dir
           else if under d p then None else fs p.

(** Every existing path lies in an existing directory, and the root is a
    directory. *)
Definition well_formed (fs : filesystem) : Prop :=
  fs [] = Some Dir
  /\ forall p, p <> [] -> fs p <> None -> fs (parent p) = Some Dir.

End Files.

(** A small file system: the root, a directory [exp] and a file
    [exp/log.txt]. *)
Module FilesExample.
Import String.
Import Files.

Definition exp_dir : path := ["exp"%string].
Definition log_file : path := ["exp"%string; "log.txt"%string].
Definition new_dir : path := ["runs"%string].

Definition sample_fs : filesystem :=
  fun p =>
    if path_eqb p [] then Some Dir
    else if path_eqb p exp_dir then Some Dir
    else if path_eqb p log_file then Some File
    else None.

End FilesExample.


(** * Properties *)

(** ** Mean IoU calculator *)

Section MeanIU_facts.
Import Np MeanIU.
Local Open Scope Q_scope.

Lemma mask_index_same {A : Type} (a : list A) (m : list bool) :
  length m = length a -> mask_index a m = Ok (select a m).
Proof.
  intros H. unfold mask_index.
  rewrite H, Nat.eqb_refl, Bool.orb_true_r. reflexivity.
Qed.

Lemma mask_index_empty {A : Type} (a : list A) : mask_index a [] = Ok [].
Proof. unfold mask_index. destruct a; reflexivity. Qed.

Lemma mask_index_mismatch {A : Type} (a : list A) (m : list bool) :
  m <> [] -> length m <> length a -> mask_index a m = Raise IndexError.
Proof.
  intros Hm Hl. unfold mask_index.
  destruct m as [|b m]; [congruence|].
  destruct (Nat.eqb_spec (length a) (length (b :: m))) as [E|E];
    [symmetry in E; contradiction | reflexivity].
Qed.

Lemma sum_bool_nonneg (m : list bool) : (0 <= sum_bool m)%Z.
Proof. induction m as [|[] m IH]; cbn [sum_bool]; lia. Qed.

Lemma count_positions_cons (f : Z -> Z -> bool) x y p gt :
  count_positions f (x :: p) (y :: gt)
  = ((if f x y then 1 else 0) + count_positions f p gt)%Z.
Proof.
  unfold count_positions; simpl.
  destruct (f x y); simpl length; lia.
Qed.

Lemma count_positions_nonneg f p gt : (0 <= count_positions f p gt)%Z.
Proof. unfold count_positions; lia. Qed.

(** The masked count of the code is the count of positions where both the
    ground truth and the prediction carry the class. *)
Lemma masked_count_positions (i : Z) (p gt : ndarray) :
  length p = length gt ->
  sum_bool (eq_scalar (select gt (eq_scalar p i)) i)
  = count_positions (both_eq i) p gt.
Proof.
  unfold eq_scalar.
  revert gt; induction p as [|x p IH]; intros [|y gt] Hlen;
    simpl in Hlen; try discriminate; [reflexivity|].
  rewrite count_positions_cons. unfold both_eq at 1.
  cbn [map select].
  destruct (Z.eqb x i); cbn [map sum_bool];
    rewrite ?Bool.andb_true_r, ?Bool.andb_false_r, (IH gt) by lia; lia.
Qed.

Lemma truth_count_positions (i : Z) (p gt : ndarray) :
  length p = length gt ->
  sum_bool (eq_scalar gt i) = count_positions (truth_eq i) p gt.
Proof.
  unfold eq_scalar.
  revert gt; induction p as [|x p IH]; intros [|y gt] Hlen;
    simpl in Hlen; try discriminate; [reflexivity|].
  rewrite count_positions_cons. unfold truth_eq at 1.
  cbn [map sum_bool]. rewrite (IH gt) by lia. reflexivity.
Qed.

Lemma pred_count_positions (i : Z) (p gt : ndarray) :
  length p = length gt ->
  sum_bool (eq_scalar p i) = count_positions (pred_eq i) p gt.
Proof.
  unfold eq_scalar.
  revert gt; induction p as [|x p IH]; intros [|y gt] Hlen;
    simpl in Hlen; try discriminate; [reflexivity|].
  rewrite count_positions_cons. unfold pred_eq at 1.
  cbn [map sum_bool]. rewrite (IH gt) by lia. reflexivity.
Qed.

(** On well-shaped pairs the inner loop never raises and leaves in each
    accumulator the count-based fold of the reference algorithm. *)
Lemma inner_loop_spec (i : Z) (pairs : list (ndarray * ndarray)) :
  Forall same_shape pairs ->
  forall acc,
    inner_loop i pairs acc
    = Ok (mkAccum (spec_fold (both_eq i) pairs (n_ii acc))
                  (spec_fold (truth_eq i) pairs (t_i acc))
                  (spec_fold (pred_eq i) pairs (sum_n_ji acc))).
Proof.
  induction 1 as [|[p gt] pairs Hs _ IH]; intros acc.
  - destruct acc; reflexivity.
  - unfold same_shape in Hs; simpl in Hs.
    simpl. unfold pair_step.
    rewrite mask_index_same by (unfold eq_scalar; rewrite length_map; exact Hs).
    simpl.
    rewrite IH. simpl.
    fold (eq_scalar p i).
    rewrite masked_count_positions, (truth_count_positions i p gt),
      (pred_count_positions i p gt) by assumption.
    reflexivity.
Qed.

Lemma class_iu_spec (pairs : list (ndarray * ndarray)) (i : Z) :
  Forall same_shape pairs ->
  class_iu pairs i = Ok (spec_IoU pairs i).
Proof.
  intros H. unfold class_iu. rewrite inner_loop_spec by assumption.
  reflexivity.
Qed.

Lemma outer_loop_spec (pairs : list (ndarray * ndarray)) :
  Forall same_shape pairs ->
  forall classes s,
  exists v, outer_loop pairs classes s = Ok v
            /\ v == s + Qsum (map (spec_IoU pairs) classes).
Proof.
  intros H; induction classes as [|i classes IH]; intros s;
    cbn [outer_loop map Qsum].
  - exists s; split; [reflexivity | ring].
  - rewrite class_iu_spec by assumption. cbn [bind].
    destruct (IH (s + spec_IoU pairs i)) as [v [E Hv]].
    exists v; split; [assumption | rewrite Hv; ring].
Qed.

Lemma calculate_mean_iu_spec (predictions gts : list ndarray) (num_classes : Z) :
  Forall same_shape (combine predictions gts) ->
  num_classes <> 0%Z ->
  exists m, calculate_mean_iu predictions gts num_classes = Ok m
            /\ m == spec_mean_iu predictions gts num_classes.
Proof.
  intros Hs Hn. unfold calculate_mean_iu.
  destruct (outer_loop_spec _ Hs (range num_classes) 0) as [v [E Hv]].
  rewrite E; simpl.
  destruct (Z.eqb_spec num_classes 0) as [->|_]; [contradiction|].
  eexists; split; [reflexivity|].
  unfold spec_mean_iu. rewrite Hv. 
  assert (~ inject_Z num_classes == 0).
  { unfold Qeq; simpl. lia. }
  field. assumption.
Qed.

(** *** Bounds on the accumulators *)

Lemma filter_length_le {A : Type} (f g : A -> bool) (l : list A) :
  (forall x, f x = true -> g x = true) ->
  (length (filter f l) <= length (filter g l))%nat.
Proof.
  intros Hfg; induction l as [|x l IH]; simpl; [lia|].
  destruct (f x) eqn:Ef.
  - rewrite (Hfg x Ef). simpl; lia.
  - destruct (g x); simpl; lia.
Qed.

Lemma count_positions_le (f g : Z -> Z -> bool) (p gt : ndarray) :
  (forall x y, f x y = true -> g x y = true) ->
  (count_positions f p gt <= count_positions g p gt)%Z.
Proof.
  intros Hfg. unfold count_positions.
  apply Nat2Z.inj_le, filter_length_le. intros [x y]; apply Hfg.
Qed.

Lemma spec_fold_ge (f : Z -> Z -> bool) pairs a : a <= spec_fold f pairs a.
Proof.
  unfold spec_fold. revert a; induction pairs as [|pg pairs IH]; intros a;
    cbn [fold_left]; [lraQ|].
  eapply Qle_trans; [|apply IH].
  pose proof (count_positions_nonneg f (fst pg) (snd pg)) as H.
  assert (0 <= inject_Z (count_positions f (fst pg) (snd pg))).
  { unfold Qle; simpl. lia. }
  lraQ.
Qed.

Lemma spec_fold_le (f g : Z -> Z -> bool) pairs :
  (forall x y, f x y = true -> g x y = true) ->
  forall a b, a <= b -> spec_fold f pairs a <= spec_fold g pairs b.
Proof.
  intros Hfg. unfold spec_fold.
  induction pairs as [|pg pairs IH]; intros a b Hab; cbn [fold_left];
    [assumption|].
  apply IH.
  pose proof (count_positions_le f g (fst pg) (snd pg) Hfg) as H.
  assert (inject_Z (count_positions f (fst pg) (snd pg))
          <= inject_Z (count_positions g (fst pg) (snd pg))).
  { unfold Qle; simpl. lia. }
  lraQ.
Qed.

Lemma epsilon_pos : 0 < epsilon.
Proof. reflexivity. Qed.

(** The denominator of every per-class ratio is positive: the division of
    the code never meets a zero divisor. *)
Lemma spec_IoU_denominator (pairs : list (ndarray * ndarray)) (i : Z) :
  let n := spec_accumulate (both_eq i) pairs in
  let t := spec_accumulate (truth_eq i) pairs in
  let s := spec_accumulate (pred_eq i) pairs in
  0 < n /\ n <= t + s - n.
Proof.
  intros n t s.
  assert (Hn : epsilon <= n) by apply spec_fold_ge.
  assert (Ht : n <= t).
  { apply spec_fold_le; [|lraQ]. unfold both_eq, truth_eq. intros x y H.
    apply Bool.andb_true_iff in H; tauto. }
  assert (Hs : n <= s).
  { apply spec_fold_le; [|lraQ]. unfold both_eq, pred_eq. intros x y H.
    apply Bool.andb_true_iff in H; tauto. }
  pose proof epsilon_pos. split; lraQ.
Qed.

Lemma spec_IoU_bounds (pairs : list (ndarray * ndarray)) (i : Z) :
  0 < spec_IoU pairs i /\ spec_IoU pairs i <= 1.
Proof.
  destruct (spec_IoU_denominator pairs i) as [Hn Hd].
  unfold spec_IoU. cbv zeta in *.
  set (n := spec_accumulate (both_eq i) pairs) in *.
  set (d := spec_accumulate (truth_eq i) pairs
            + spec_accumulate (pred_eq i) pairs - n) in *.
  assert (Hdpos : 0 < d) by lraQ.
  split.
  - apply Qlt_shift_div_l; [assumption | lraQ].
  - apply Qle_shift_div_r; [assumption | lraQ].
Qed.

Lemma Qsum_bounds (f : Z -> Q) (l : list Z) :
  (forall x, 0 < f x /\ f x <= 1) ->
  0 <= Qsum (map f l)
  /\ (l <> [] -> 0 < Qsum (map f l))
  /\ Qsum (map f l) <= inject_Z (Z.of_nat (length l)).
Proof.
  intros Hf; induction l as [|x l [IH0 [IH1 IH2]]].
  - cbn [map Qsum length]. change (inject_Z (Z.of_nat 0)) with 0.
    split; [lraQ | split; [congruence | lraQ]].
  - cbn [map Qsum length]. destruct (Hf x) as [Hx0 Hx1].
    rewrite Nat2Z.inj_succ, <- Z.add_1_r, inject_Z_plus.
    change (inject_Z 1) with 1. clear IH1.
    set (k := inject_Z (Z.of_nat (length l))) in *. clearbody k.
    set (q := Qsum (map f l)) in *. clearbody q.
    split; [lraQ | split; [intros _; lraQ | lraQ]].
Qed.

Lemma range_length (n : Z) : length (range n) = Z.to_nat n.
Proof. unfold range. rewrite length_map, length_seq. reflexivity. Qed.

Lemma range_In (n i : Z) : In i (range n) <-> (0 <= i < n)%Z.
Proof.
  unfold range. rewrite in_map_iff. split.
  - intros [k [<- Hk]]. apply in_seq in Hk. lia.
  - intros H. exists (Z.to_nat i). split; [lia|]. apply in_seq. lia.
Qed.

Lemma range_NoDup (n : Z) : NoDup (range n).
Proof.
  unfold range. apply NoDup_map_NoDup_ForallPairs; [|apply seq_NoDup].
  intros a b _ _ H; lia.
Qed.

Lemma spec_mean_iu_bounds (predictions gts : list ndarray) (num_classes : Z) :
  (1 <= num_classes)%Z ->
  0 < spec_mean_iu predictions gts num_classes
  /\ spec_mean_iu predictions gts num_classes <= 1.
Proof.
  intros Hn. unfold spec_mean_iu.
  destruct (Qsum_bounds (spec_IoU (combine predictions gts)) (range num_classes)
              (spec_IoU_bounds _)) as [_ [Hpos Hle]].
  rewrite range_length, Z2Nat.id in Hle by lia.
  assert (Hne : range num_classes <> []).
  { intros E. apply (f_equal (@length Z)) in E.
    rewrite range_length in E. simpl in E. lia. }
  specialize (Hpos Hne).
  assert (Hq : 0 < inject_Z num_classes).
  { unfold Qlt; simpl. lia. }
  split.
  - apply Qlt_shift_div_l; [assumption | lraQ].
  - apply Qle_shift_div_r; [assumption | lraQ].
Qed.

(** *** Classes that never occur *)

Lemma count_positions_zero (f : Z -> Z -> bool) (p gt : ndarray) :
  (forall x y, In x p -> In y gt -> f x y = false) ->
  count_positions f p gt = 0%Z.
Proof.
  intros H. unfold count_positions.
  rewrite (filter_ext_in _ (fun _ => false)), filter_false; [reflexivity|].
  intros [x y] Hin. simpl. apply H.
  - eapply in_combine_l; eassumption.
  - eapply in_combine_r; eassumption.
Qed.

Lemma spec_fold_zero (f : Z -> Z -> bool) pairs :
  Forall (fun pg => count_positions f (fst pg) (snd pg) = 0%Z) pairs ->
  forall a, spec_fold f pairs a == a.
Proof.
  unfold spec_fold. induction 1 as [|pg pairs H0 _ IH]; intros a;
    cbn [fold_left]; [reflexivity|].
  rewrite IH, H0. change (inject_Z 0) with 0. ring.
Qed.

Lemma absent_counts (i : Z) (predictions gts : list ndarray) (f : Z -> Z -> bool) :
  absent i predictions gts ->
  (forall x y, f x y = true -> x = i \/ y = i) ->
  Forall (fun pg => count_positions f (fst pg) (snd pg) = 0%Z)
         (combine predictions gts).
Proof.
  intros [Hp Hg] Hf. apply Forall_forall. intros [p gt] Hin. simpl.
  apply count_positions_zero. intros x y Hx Hy.
  destruct (f x y) eqn:E; [|reflexivity]. exfalso.
  rewrite Forall_forall in Hp, Hg.
  destruct (Hf x y E) as [-> | ->].
  - apply (Hp p); [eapply in_combine_l; eassumption | assumption].
  - apply (Hg gt); [eapply in_combine_r; eassumption | assumption].
Qed.

Lemma absent_spec_IoU (i : Z) (predictions gts : list ndarray) :
  absent i predictions gts ->
  spec_IoU (combine predictions gts) i == 1.
Proof.
  intros Ha. unfold spec_IoU, spec_accumulate. cbv zeta.
  rewrite !spec_fold_zero.
  - reflexivity.
  - apply (absent_counts i); [assumption|]. unfold pred_eq. intros x y H.
    left. apply Z.eqb_eq; assumption.
  - apply (absent_counts i); [assumption|]. unfold truth_eq. intros x y H.
    right. apply Z.eqb_eq; assumption.
  - apply (absent_counts i); [assumption|]. unfold both_eq. intros x y H.
    apply Bool.andb_true_iff in H. left. apply Z.eqb_eq; tauto.
Qed.

Lemma Qsum_split (f : Z -> Q) (i : Z) (l : list Z) :
  NoDup l -> In i l ->
  Qsum (map f l) == f i + Qsum (map f (filter (fun j => negb (Z.eqb j i)) l)).
Proof.
  induction 1 as [|x l Hx Hnd IH]; intros Hin; [destruct Hin|].
  cbn [map Qsum filter].
  destruct (Z.eqb_spec x i) as [->|Hne]; cbn [negb].
  - rewrite (filter_ext_in _ (fun _ => true)), filter_true; [reflexivity|].
    intros j Hj.
    destruct (Z.eqb_spec j i) as [->|_]; [contradiction | reflexivity].
  - destruct Hin as [E|Hin]; [congruence|].
    cbn [map Qsum]. rewrite (IH Hin). ring.
Qed.

(** *** The claims on [calculate_mean_iu] *)

(** C1: on label maps of matching shapes and a non-zero class count,
    [calculate_mean_iu] returns the value of the reference algorithm of the
    specification: per class the three accumulators start at epsilon and
    gain the position counts of every (prediction, ground truth) pair, the
    class ratio is [n_ii / (t_i + sum_n_ji - n_ii)], and the mean is the sum
    of the ratios divided by the number of classes. *)
Theorem calculate_mean_iu_refines_reference
  (predictions gts : list ndarray) (num_classes : Z) :
  Forall same_shape (combine predictions gts) ->
  num_classes <> 0%Z ->
  exists m, calculate_mean_iu predictions gts num_classes = Ok m
            /\ m == spec_mean_iu predictions gts num_classes.
Proof.
  intros Hs Hn. apply calculate_mean_iu_spec; assumption.
Qed.

Lemma calculate_mean_iu_refines_reference_witness :
  exists m, calculate_mean_iu [[0; 1; 1; 2]%Z; [1; 1]%Z] [[0; 1; 0; 2]%Z; [1; 0]%Z] 3 = Ok m
            /\ m == spec_mean_iu [[0; 1; 1; 2]%Z; [1; 1]%Z] [[0; 1; 0; 2]%Z; [1; 0]%Z] 3.
Proof.
  apply calculate_mean_iu_refines_reference.
  - repeat constructor.
  - discriminate.
Defined.

(** C4: a class that occurs in no prediction and in no ground-truth map
    gets the per-class ratio epsilon / epsilon = 1, and that term adds
    [1 / num_classes] to the returned mean. *)
Theorem absent_class_iu_is_one
  (predictions gts : list ndarray) (num_classes i : Z) :
  Forall same_shape (combine predictions gts) ->
  (0 <= i < num_classes)%Z ->
  absent i predictions gts ->
  (exists v, class_iu (combine predictions gts) i = Ok v /\ v == 1)
  /\ (exists m, calculate_mean_iu predictions gts num_classes = Ok m
                /\ m == 1 / inject_Z num_classes
                        + Qsum (map (spec_IoU (combine predictions gts))
                                    (other_classes i num_classes))
                          / inject_Z num_classes).
Proof.
  intros Hs Hi Ha. split.
  - exists (spec_IoU (combine predictions gts) i). split.
    + apply class_iu_spec; assumption.
    + apply absent_spec_IoU; assumption.
  - destruct (calculate_mean_iu_spec predictions gts num_classes Hs)
      as [m [E Hm]]; [lia|].
    exists m; split; [assumption|].
    rewrite Hm. unfold spec_mean_iu, other_classes.
    rewrite (Qsum_split _ i (range num_classes));
      [|apply range_NoDup | apply range_In; assumption].
    rewrite (absent_spec_IoU i predictions gts Ha).
    assert (~ inject_Z num_classes == 0) by (unfold Qeq; simpl; lia).
    field; assumption.
Qed.

Lemma absent_class_iu_is_one_witness :
  (exists v, class_iu (combine [[0; 0; 2]%Z] [[0; 2; 2]%Z]) 1 = Ok v /\ v == 1)
  /\ (exists m, calculate_mean_iu [[0; 0; 2]%Z] [[0; 2; 2]%Z] 3 = Ok m
                /\ m == 1 / inject_Z 3
                        + Qsum (map (spec_IoU (combine [[0; 0; 2]%Z] [[0; 2; 2]%Z]))
                                    (other_classes 1 3))
                          / inject_Z 3).
Proof.
  apply absent_class_iu_is_one.
  - repeat constructor.
  - lia.
  - split; repeat constructor; simpl; lia.
Defined.

(** *** The accumulators on every input the indexing accepts *)

Lemma inject_Z_nonneg (z : Z) : (0 <= z)%Z -> 0 <= inject_Z z.
Proof. intros H. unfold Qle; simpl. lia. Qed.

Lemma inject_Z_le (a b : Z) : (a <= b)%Z -> inject_Z a <= inject_Z b.
Proof. intros H. unfold Qle; simpl. lia. Qed.

Lemma pair_step_ordered (i : Z) (acc : accum) (p gt : ndarray) :
  indexable (p, gt) -> ordered acc ->
  exists acc', pair_step i acc p gt = Ok acc' /\ ordered acc'.
Proof.
  intros [Hp | Hl] [H0 [Ht Hs]]; cbn [fst snd] in *; unfold pair_step.
  - subst p. cbn [eq_scalar map]. rewrite mask_index_empty. cbn [bind].
    eexists; split; [reflexivity|]. unfold ordered; cbn [n_ii t_i sum_n_ji].
    cbn [eq_scalar map sum_bool]. change (inject_Z 0) with 0.
    pose proof (inject_Z_nonneg _ (sum_bool_nonneg (eq_scalar gt i))).
    repeat split; lraQ.
  - rewrite mask_index_same by (unfold eq_scalar; rewrite length_map; exact Hl).
    cbn [bind]. eexists; split; [reflexivity|].
    unfold ordered; cbn [n_ii t_i sum_n_ji].
    rewrite masked_count_positions, (truth_count_positions i p gt),
      (pred_count_positions i p gt) by assumption.
    pose proof (inject_Z_nonneg _ (count_positions_nonneg (both_eq i) p gt)).
    assert (inject_Z (count_positions (both_eq i) p gt)
            <= inject_Z (count_positions (truth_eq i) p gt)).
    { apply inject_Z_le, count_positions_le. unfold both_eq, truth_eq.
      intros x y H'. apply Bool.andb_true_iff in H'; tauto. }
    assert (inject_Z (count_positions (both_eq i) p gt)
            <= inject_Z (count_positions (pred_eq i) p gt)).
    { apply inject_Z_le, count_positions_le. unfold both_eq, pred_eq.
      intros x y H'. apply Bool.andb_true_iff in H'; tauto. }
    repeat split; lraQ.
Qed.

Lemma inner_loop_ordered (i : Z) (pairs : list (ndarray * ndarray)) :
  Forall indexable pairs ->
  forall acc, ordered acc ->
  exists acc', inner_loop i pairs acc = Ok acc' /\ ordered acc'.
Proof.
  induction 1 as [|[p gt] pairs Hpg _ IH]; intros acc Hacc; cbn [inner_loop].
  - exists acc; split; [reflexivity | assumption].
  - destruct (pair_step_ordered i acc p gt Hpg Hacc) as [acc1 [E1 H1]].
    rewrite E1. cbn [bind]. apply IH; assumption.
Qed.

Lemma class_iu_indexable (pairs : list (ndarray * ndarray)) (i : Z) :
  Forall indexable pairs ->
  exists v, class_iu pairs i = Ok v /\ 0 < v /\ v <= 1.
Proof.
  intros H. unfold class_iu.
  destruct (inner_loop_ordered i pairs H (mkAccum epsilon epsilon epsilon))
    as [acc [E [H0 [Ht Hs]]]].
  { unfold ordered; cbn [n_ii t_i sum_n_ji]. pose proof epsilon_pos.
    repeat split; lraQ. }
  rewrite E. cbn [bind]. eexists; split; [reflexivity|].
  assert (Hd : 0 < t_i acc + sum_n_ji acc - n_ii acc) by lraQ.
  split.
  - apply Qlt_shift_div_l; [assumption | lraQ].
  - apply Qle_shift_div_r; [assumption | lraQ].
Qed.

Lemma outer_loop_indexable (pairs : list (ndarray * ndarray)) :
  Forall indexable pairs ->
  forall classes s,
  exists v, outer_loop pairs classes s = Ok v
            /\ s <= v
            /\ (classes <> [] -> s < v)
            /\ v <= s + inject_Z (Z.of_nat (length classes)).
Proof.
  intros H; induction classes as [|i classes IH]; intros s;
    cbn [outer_loop length].
  - exists s. change (inject_Z (Z.of_nat 0)) with 0.
    split; [reflexivity|]. split; [lraQ|]. split; [congruence | lraQ].
  - destruct (class_iu_indexable pairs i H) as [iu [E [Hlo Hhi]]].
    rewrite E. cbn [bind].
    destruct (IH (s + iu)) as [v [Ev [Hge [_ Hle]]]].
    exists v. split; [assumption|].
    rewrite Nat2Z.inj_succ, <- Z.add_1_r, inject_Z_plus.
    change (inject_Z 1) with 1.
    split; [lraQ|]. split; [intros _; lraQ | lraQ].
Qed.

Lemma calculate_mean_iu_indexable
  (predictions gts : list ndarray) (num_classes : Z) :
  Forall indexable (combine predictions gts) ->
  (1 <= num_classes)%Z ->
  exists m, calculate_mean_iu predictions gts num_classes = Ok m
            /\ 0 < m /\ m <= 1.
Proof.
  intros Hs Hn. unfold calculate_mean_iu.
  destruct (outer_loop_indexable _ Hs (range num_classes) 0)
    as [v [E [_ [Hpos Hle]]]].
  rewrite E. cbn [bind].
  destruct (Z.eqb_spec num_classes 0) as [->|_]; [lia|].
  eexists; split; [reflexivity|].
  rewrite range_length, Z2Nat.id in Hle by lia.
  assert (Hne : range num_classes <> []).
  { intros E'. apply (f_equal (@length Z)) in E'.
    rewrite range_length in E'. simpl in E'. lia. }
  specialize (Hpos Hne).
  assert (Hq : 0 < inject_Z num_classes) by (unfold Qlt; simpl; lia).
  split.
  - apply Qlt_shift_div_l; [assumption | lraQ].
  - apply Qle_shift_div_r; [assumption | lraQ].
Qed.

(** C10, as the code has it: when each paired prediction has the shape of
    its ground truth, or is an empty one-dimensional array (its empty mask
    indexes any array), and there is at least one class, every per-class
    ratio [n_ii / (t_i + sum_n_ji - n_ii)] lies in (0, 1], and the returned
    mean is strictly positive and at most one. *)
Theorem calculate_mean_iu_in_unit_interval
  (predictions gts : list ndarray) (num_classes : Z) :
  Forall indexable (combine predictions gts) ->
  (1 <= num_classes)%Z ->
  (forall i, exists v, class_iu (combine predictions gts) i = Ok v
                       /\ 0 < v /\ v <= 1)
  /\ exists m, calculate_mean_iu predictions gts num_classes = Ok m
               /\ 0 < m /\ m <= 1.
Proof.
  intros Hs Hn. split.
  - intros i. apply class_iu_indexable; assumption.
  - apply calculate_mean_iu_indexable; assumption.
Qed.

Lemma calculate_mean_iu_in_unit_interval_witness :
  (forall i, exists v,
      class_iu (combine [[0; 1; 1; 2]%Z; []] [[2; 1; 0; 0]%Z; [1; 1]%Z]) i = Ok v
      /\ 0 < v /\ v <= 1)
  /\ exists m,
      calculate_mean_iu [[0; 1; 1; 2]%Z; []] [[2; 1; 0; 0]%Z; [1; 1]%Z] 3 = Ok m
      /\ 0 < m /\ m <= 1.
Proof.
  apply calculate_mean_iu_in_unit_interval.
  - apply Forall_cons; [right; reflexivity|].
    apply Forall_cons; [left; reflexivity | apply Forall_nil].
  - lia.
Defined.

(** C10, counterexample to the claim for every input: a non-empty
    one-dimensional prediction paired with a ground truth of another size
    makes the indexing [gt[p == i]] raise IndexError, so no value is
    returned at all. *)
Lemma calculate_mean_iu_mismatch_returns_no_value :
  calculate_mean_iu [[0; 1; 1]%Z] [[0; 1]%Z] 2 = Raise IndexError
  /\ ~ (exists m, calculate_mean_iu [[0; 1; 1]%Z] [[0; 1]%Z] 2 = Ok m
                  /\ 0 < m /\ m <= 1).
Proof.
  split; [reflexivity|].
  intros [m [E _]]. discriminate E.
Qed.

End MeanIU_facts.

(** ** Fast-histogram scorer *)

Section Scorer_facts.
Import Np Scorer.
Local Open Scope Z_scope.

(** *** Shape and sign of the accumulated histogram *)

Lemma count_eq_nonneg xs k : 0 <= count_eq xs k.
Proof. unfold count_eq; lia. Qed.

Lemma bincount_nonneg xs minlength flat :
  bincount xs minlength = Ok flat -> Forall (fun x => 0 <= x) flat.
Proof.
  unfold bincount. destruct (existsb _ xs); [discriminate|].
  intros E; injection E as <-.
  apply Forall_forall. intros x Hx. apply in_map_iff in Hx.
  destruct Hx as [k [<- _]]. apply count_eq_nonneg.
Qed.

Lemma reshape_ok flat n h :
  reshape flat n = Ok h ->
  h = flat /\ 0 <= n /\ length flat = Z.to_nat (n * n).
Proof.
  unfold reshape.
  destruct (Z.leb_spec 0 n); simpl; [|discriminate].
  destruct (Z.eqb_spec (Z.of_nat (length flat)) (n * n)); [|discriminate].
  intros E; injection E as <-. repeat split; lia.
Qed.

Lemma fast_hist_wf lt lp n h : _fast_hist lt lp n = Ok h -> wf_hist h n.
Proof.
  unfold _fast_hist.
  destruct (mask_index lt _) as [t|]; [|discriminate].
  destruct (mask_index lp _) as [p|]; [|discriminate].
  cbn [bind].
  destruct (bincount _ _) as [flat|] eqn:Eb; [|discriminate].
  cbn [bind]. intros Er. apply reshape_ok in Er as [-> [Hn Hl]].
  repeat split; try assumption.
  eapply bincount_nonneg; eassumption.
Qed.

Lemma zeros_wf n h : zeros n = Ok h -> wf_hist h n.
Proof.
  unfold zeros. destruct (Z.ltb_spec n 0); [discriminate|].
  intros E; injection E as <-. repeat split.
  - assumption.
  - apply repeat_length.
  - apply Forall_forall. intros x Hx. apply repeat_spec in Hx. lia.
Qed.

Lemma zip_with_length {A B C : Type} (f : A -> B -> C) a b :
  length a = length b -> length (zip_with f a b) = length a.
Proof.
  revert b; induction a as [|x a IH]; intros [|y b] H; simpl in *;
    try discriminate; [reflexivity|].
  rewrite IH; lia.
Qed.

Lemma zip_with_add_nonneg a b :
  Forall (fun x => 0 <= x) a -> Forall (fun x => 0 <= x) b ->
  Forall (fun x => 0 <= x) (zip_with Z.add a b).
Proof.
  intros Ha; revert b; induction Ha as [|x a Hx Ha IH]; intros b Hb.
  - constructor.
  - destruct Hb as [|y b Hy Hb]; simpl; constructor; [lia | auto].
Qed.

Lemma accumulate_wf pairs n :
  forall h0 h, wf_hist h0 n -> accumulate pairs n h0 = Ok h -> wf_hist h n.
Proof.
  induction pairs as [|[lt lp] pairs IH]; intros h0 h Hwf; cbn [accumulate].
  - intros E; injection E as <-. assumption.
  - destruct (_fast_hist lt lp n) as [h1|] eqn:E1; [|discriminate].
    cbn [bind]. apply IH.
    apply fast_hist_wf in E1. destruct Hwf as [Hn [Hl Hp]].
    destruct E1 as [_ [Hl1 Hp1]].
    repeat split; try assumption.
    + rewrite zip_with_length; congruence.
    + apply zip_with_add_nonneg; assumption.
Qed.

Lemma histogram_wf lts lps n h : histogram lts lps n = Ok h -> wf_hist h n.
Proof.
  unfold histogram. destruct (zeros n) as [h0|] eqn:E0; [|discriminate].
  cbn [bind]. apply accumulate_wf. apply zeros_wf; assumption.
Qed.

(** *** Rows, columns and diagonal of a non-negative histogram *)

Lemma entry_nonneg hist n i j :
  Forall (fun x => 0 <= x) hist -> 0 <= entry hist n i j.
Proof.
  intros H. unfold entry.
  destruct (nth_in_or_default (Z.to_nat (n * i + j)) hist 0) as [Hin | ->];
    [|lia].
  rewrite Forall_forall in H. apply H; assumption.
Qed.

Lemma zsum_map_nonneg {A : Type} (f : A -> Z) (l : list A) :
  (forall x, 0 <= f x) -> 0 <= zsum (map f l).
Proof.
  intros Hf; induction l as [|x l IH]; cbn [map zsum]; [lia|].
  specialize (Hf x). lia.
Qed.

Lemma zsum_map_member {A : Type} (f : A -> Z) (l : list A) (i : A) :
  (forall x, 0 <= f x) -> In i l -> f i <= zsum (map f l).
Proof.
  intros Hf; induction l as [|x l IH]; intros Hin; [destruct Hin|].
  cbn [map zsum].
  pose proof (zsum_map_nonneg f l Hf). pose proof (Hf x).
  destruct Hin as [->|Hin]; [lia | specialize (IH Hin); lia].
Qed.

Lemma diag_le_row hist n i :
  Forall (fun x => 0 <= x) hist -> 0 <= i < n ->
  0 <= diag hist n i <= row_sum hist n i.
Proof.
  intros H Hi. split; [apply entry_nonneg; assumption|].
  unfold diag, row_sum.
  apply (zsum_map_member (fun j => entry hist n i j));
    [intros; apply entry_nonneg; assumption | apply range_In; assumption].
Qed.

Lemma diag_le_col hist n i :
  Forall (fun x => 0 <= x) hist -> 0 <= i < n ->
  diag hist n i <= col_sum hist n i.
Proof.
  intros H Hi. unfold diag, col_sum.
  apply (zsum_map_member (fun j => entry hist n j i));
    [intros; apply entry_nonneg; assumption | apply range_In; assumption].
Qed.

(** *** Rows as windows of the flat histogram *)

Lemma zsum_app a b : zsum (a ++ b) = zsum a + zsum b.
Proof.
  induction a as [|x a IH]; cbn [app zsum]; lia.
Qed.

Lemma zsum_nonneg l : Forall (fun x => 0 <= x) l -> 0 <= zsum l.
Proof.
  induction 1 as [|x l Hx _ IH]; cbn [zsum]; lia.
Qed.

Lemma skipn_nth_cons (h : list Z) (s : nat) :
  (s < length h)%nat -> skipn s h = nth s h 0 :: skipn (S s) h.
Proof.
  revert h; induction s as [|s IH]; intros [|x h] Hs; simpl in Hs; try lia.
  - reflexivity.
  - change (skipn (S s) (x :: h)) with (skipn s h).
    change (nth (S s) (x :: h) 0) with (nth s h 0).
    rewrite IH by lia. reflexivity.
Qed.

Lemma zsum_window (h : list Z) (n s : nat) :
  zsum (map (fun k => nth (s + k) h 0) (seq 0 n))
  = zsum (firstn n (skipn s h)).
Proof.
  revert s; induction n as [|n IH]; intros s; [reflexivity|].
  cbn [seq map zsum]. rewrite <- seq_shift, map_map.
  rewrite (map_ext _ (fun k => nth (S s + k) h 0))
    by (intros k; f_equal; lia).
  rewrite IH, Nat.add_0_r.
  destruct (Nat.lt_ge_cases s (length h)) as [Hs|Hs].
  - rewrite (skipn_nth_cons h s Hs). reflexivity.
  - rewrite nth_overflow by lia.
    rewrite !skipn_all2 by lia. rewrite !firstn_nil. reflexivity.
Qed.

Lemma row_sum_window hist n i :
  0 <= n -> 0 <= i ->
  row_sum hist n i
  = zsum (firstn (Z.to_nat n) (skipn (Z.to_nat n * Z.to_nat i) hist)).
Proof.
  intros Hn Hi. rewrite <- zsum_window.
  unfold row_sum, entry, range. rewrite map_map. f_equal.
  apply map_ext. intros k. f_equal. nia.
Qed.

Lemma firstn_nonneg (l : list Z) k :
  Forall (fun x => 0 <= x) l -> Forall (fun x => 0 <= x) (firstn k l).
Proof.
  intros H. rewrite <- (firstn_skipn k l) in H.
  apply Forall_app in H. tauto.
Qed.

Lemma skipn_nonneg (l : list Z) k :
  Forall (fun x => 0 <= x) l -> Forall (fun x => 0 <= x) (skipn k l).
Proof.
  intros H. rewrite <- (firstn_skipn k l) in H.
  apply Forall_app in H. tauto.
Qed.

Lemma row_le_total hist n i :
  Forall (fun x => 0 <= x) hist -> 0 <= n -> 0 <= i ->
  row_sum hist n i <= zsum hist.
Proof.
  intros H Hn Hi. rewrite row_sum_window by assumption.
  set (s := (Z.to_nat n * Z.to_nat i)%nat).
  rewrite <- (firstn_skipn s hist) at 2. rewrite zsum_app.
  rewrite <- (firstn_skipn (Z.to_nat n) (skipn s hist)) at 2.
  rewrite zsum_app.
  pose proof (zsum_nonneg _ (firstn_nonneg hist s H)).
  pose proof (zsum_nonneg _ (skipn_nonneg _ (Z.to_nat n) (skipn_nonneg hist s H))).
  lia.
Qed.

Lemma zsum_rows_nat (n m : nat) :
  forall h, length h = (m * n)%nat ->
  zsum h = zsum (map (fun i => zsum (firstn n (skipn (n * i) h))) (seq 0 m)).
Proof.
  induction m as [|m IH]; intros h Hl.
  - destruct h; [reflexivity | discriminate].
  - cbn [seq map zsum]. rewrite <- seq_shift, map_map.
    rewrite Nat.mul_0_r. cbn [skipn].
    rewrite <- (firstn_skipn n h) at 1. rewrite zsum_app. f_equal.
    rewrite (IH (skipn n h)) by (rewrite length_skipn; lia).
    f_equal. apply map_ext. intros i. rewrite skipn_skipn.
    do 3 f_equal. lia.
Qed.

Lemma zsum_rows hist n :
  wf_hist hist n -> zsum hist = zsum (map (row_sum hist n) (range n)).
Proof.
  intros [Hn [Hl _]].
  rewrite (zsum_rows_nat (Z.to_nat n) (Z.to_nat n) hist)
    by (rewrite Hl; lia).
  unfold range. rewrite map_map. f_equal. apply map_ext_in.
  intros i _. rewrite row_sum_window by lia. rewrite Nat2Z.id. reflexivity.
Qed.

(** *** Divisions of counts and nan-safe means *)

Lemma Qeq_bool_inject (b : Z) : Qeq_bool (inject_Z b) 0 = Z.eqb b 0.
Proof.
  destruct (Z.eqb_spec b 0) as [->|Hb]; [reflexivity|].
  destruct (Qeq_bool (inject_Z b) 0) eqn:E; [|reflexivity].
  apply Qeq_bool_eq in E. unfold Qeq in E; simpl in E. lia.
Qed.

Lemma fdiv_counts (a b : Z) :
  0 <= a <= b ->
  fdiv (inject_Z a) (inject_Z b)
  = if Z.eqb b 0 then NaN else Fin (inject_Z a / inject_Z b).
Proof.
  intros H. unfold fdiv. rewrite !Qeq_bool_inject.
  destruct (Z.eqb_spec b 0) as [Hb|Hb]; [|reflexivity].
  destruct (Z.eqb_spec a 0); [reflexivity | lia].
Qed.

Lemma filter_nan_map (z : Z -> Z) (q : Z -> Q) (l : list Z) :
  filter (fun a => negb (is_nan a))
         (map (fun i => if Z.eqb (z i) 0 then NaN else Fin (q i)) l)
  = map (fun i => Fin (q i)) (filter (fun i => negb (Z.eqb (z i) 0)) l).
Proof.
  induction l as [|i l IH]; [reflexivity|].
  cbn [map filter]. destruct (Z.eqb (z i) 0); cbn [is_nan negb map];
    rewrite IH; reflexivity.
Qed.

Lemma fold_fadd_fin (q : Z -> Q) (l : list Z) :
  forall a, exists s,
    fold_left fadd (map (fun i => Fin (q i)) l) (Fin a) = Fin s
    /\ (s == a + Qsum (map q l))%Q.
Proof.
  induction l as [|i l IH]; intros a; cbn [map fold_left Qsum fadd].
  - exists a; split; [reflexivity | ring].
  - destruct (IH (a + q i)%Q) as [s [E Hs]].
    exists s; split; [assumption | rewrite Hs; ring].
Qed.

Lemma fsum_fin (q : Z -> Q) (l : list Z) :
  feq (fsum (map (fun i => Fin (q i)) l)) (Fin (Qsum (map q l))).
Proof.
  unfold fsum. destruct (fold_fadd_fin q l 0) as [s [-> Hs]].
  cbn [feq]. rewrite Hs. ring.
Qed.

Lemma nanmean_map (z : Z -> Z) (q : Z -> Q) (l : list Z) :
  feq (nanmean (map (fun i => if Z.eqb (z i) 0 then NaN else Fin (q i)) l))
      (mean_over q (filter (fun i => negb (Z.eqb (z i) 0)) l)).
Proof.
  unfold nanmean. rewrite filter_nan_map.
  generalize (filter (fun i => negb (Z.eqb (z i) 0)) l). intros l'.
  destruct l' as [|i l']; [exact I|].
  unfold mean_over, fsum. cbn [map fold_left fadd length Qsum].
  destruct (fold_fadd_fin q l' (0 + q i)%Q) as [s [-> Hs]].
  rewrite length_map. cbn [fdiv_count feq].
  rewrite Hs, Qplus_0_l. reflexivity.
Qed.

Lemma select_map {A : Type} (F : Z -> A) (K : Z -> bool) (l : list Z) :
  select (map F l) (map K l) = map F (filter K l).
Proof.
  induction l as [|i l IH]; [reflexivity|].
  cbn [map select filter]. destruct (K i); cbn [map]; rewrite IH; reflexivity.
Qed.

Lemma zip_with_map {A B C : Type} (f : A -> B -> C) (F : Z -> A) (G : Z -> B)
  (l : list Z) :
  zip_with f (map F l) (map G l) = map (fun i => f (F i) (G i)) l.
Proof.
  induction l as [|i l IH]; [reflexivity|].
  cbn [map zip_with]. rewrite IH. reflexivity.
Qed.

(** *** The per-class arrays of [metrics] on a histogram of counts *)

Lemma union_bounds hist n i :
  Forall (fun x => 0 <= x) hist -> 0 <= i < n ->
  0 <= diag hist n i
       <= row_sum hist n i + col_sum hist n i - diag hist n i.
Proof.
  intros H Hi. pose proof (diag_le_row hist n i H Hi).
  pose proof (diag_le_col hist n i H Hi). lia.
Qed.

Lemma acc_cls_arr_cases hist n :
  wf_hist hist n ->
  acc_cls_arr hist n
  = map (fun i => if Z.eqb (row_sum hist n i) 0 then NaN
                  else Fin (class_acc hist n i)) (range n).
Proof.
  intros [_ [_ Hp]]. unfold acc_cls_arr. apply map_ext_in.
  intros i Hi. apply range_In in Hi.
  apply fdiv_counts. apply diag_le_row; assumption.
Qed.

Lemma iu_arr_cases hist n :
  wf_hist hist n ->
  iu_arr hist n
  = map (fun i => if Z.eqb (row_sum hist n i + col_sum hist n i
                            - diag hist n i) 0 then NaN
                  else Fin (class_iou hist n i)) (range n).
Proof.
  intros [_ [_ Hp]]. unfold iu_arr. apply map_ext_in.
  intros i Hi. apply range_In in Hi.
  apply fdiv_counts. apply union_bounds; assumption.
Qed.

Lemma fpos_freq hist n i :
  wf_hist hist n -> 0 <= i < n ->
  fpos (fdiv (inject_Z (row_sum hist n i)) (inject_Z (zsum hist)))
  = negb (Z.eqb (row_sum hist n i) 0).
Proof.
  intros [Hn [_ Hp]] Hi.
  pose proof (diag_le_row hist n i Hp Hi) as Hd.
  pose proof (row_le_total hist n i Hp Hn (proj1 Hi)) as Ht.
  rewrite fdiv_counts by lia.
  destruct (Z.eqb_spec (zsum hist) 0) as [E0|Hne].
  - destruct (Z.eqb_spec (row_sum hist n i) 0); [reflexivity | lia].
  - cbn [fpos]. f_equal.
    destruct (Z.eqb_spec (row_sum hist n i) 0) as [->|Hr].
    + reflexivity.
    + destruct (Qle_bool _ 0) eqn:E; [|reflexivity].
      apply Qle_bool_iff in E. exfalso.
      assert (Hpos : (0 < inject_Z (row_sum hist n i) / inject_Z (zsum hist))%Q).
      { apply Qlt_shift_div_l; unfold Qlt; simpl; lia. }
      lraQ.
Qed.

Lemma keep_cases hist n :
  wf_hist hist n ->
  map fpos (freq_arr hist n)
  = map (fun i => negb (Z.eqb (row_sum hist n i) 0)) (range n).
Proof.
  intros Hwf. unfold freq_arr. rewrite map_map. apply map_ext_in.
  intros i Hi. apply fpos_freq; [assumption | apply range_In; assumption].
Qed.

Lemma freqw_acc_spec hist n :
  wf_hist hist n ->
  feq (freqw_acc (metrics hist n)) (Fin (spec_fwavacc hist n)).
Proof.
  intros Hwf. pose proof Hwf as [Hn [_ Hp]].
  cbn [metrics freqw_acc]. rewrite !keep_cases by assumption.
  unfold freq_arr, iu_arr. rewrite !select_map, zip_with_map.
  fold (supported hist n).
  rewrite (map_ext_in _ (fun i => Fin (class_freq hist n i * class_iou hist n i))).
  - apply fsum_fin.
  - intros i Hi. unfold supported in Hi. apply filter_In in Hi as [Hi Hr].
    apply range_In in Hi.
    pose proof (diag_le_row hist n i Hp Hi).
    pose proof (diag_le_col hist n i Hp Hi).
    pose proof (row_le_total hist n i Hp Hn (proj1 Hi)).
    destruct (Z.eqb_spec (row_sum hist n i) 0) as [|Hr0]; [discriminate|].
    rewrite !fdiv_counts by lia.
    destruct (Z.eqb_spec (zsum hist) 0); [lia|].
    destruct (Z.eqb_spec (row_sum hist n i + col_sum hist n i
                          - diag hist n i) 0); [lia|].
    reflexivity.
Qed.

(** C6, as the code has it: classes with a zero row sum are left out of
    the mean accuracy; the mean IoU leaves out only the classes whose union
    (row sum + column sum - diagonal) is zero, so a class that is never true
    but predicted somewhere enters the mean IoU with the value 0; the
    frequency-weighted accuracy is the finite sum of frequency times IoU
    over the classes with a non-zero row sum. *)
Theorem scores_nan_safe_aggregation
  (label_trues label_preds : list ndarray) (n_class : Z) (hist : list Z) :
  histogram label_trues label_preds n_class = Ok hist ->
  scores label_trues label_preds n_class = Ok (metrics hist n_class)
  /\ feq (mean_acc (metrics hist n_class))
         (mean_over (class_acc hist n_class) (supported hist n_class))
  /\ feq (mean_iou (metrics hist n_class))
         (mean_over (class_iou hist n_class) (touched hist n_class))
  /\ (forall i, 0 <= i < n_class ->
                row_sum hist n_class i = 0 -> col_sum hist n_class i <> 0 ->
                In i (touched hist n_class)
                /\ ~ In i (supported hist n_class)
                /\ (class_iou hist n_class i == 0)%Q)
  /\ feq (freqw_acc (metrics hist n_class)) (Fin (spec_fwavacc hist n_class)).
Proof.
  intros Hh. pose proof (histogram_wf _ _ _ _ Hh) as Hwf.
  split; [unfold scores; rewrite Hh; reflexivity|].
  split.
  { cbn [metrics mean_acc]. rewrite acc_cls_arr_cases by assumption.
    apply nanmean_map. }
  split.
  { cbn [metrics mean_iou]. rewrite iu_arr_cases by assumption.
    apply (nanmean_map (fun i => row_sum hist n_class i + col_sum hist n_class i
                                 - diag hist n_class i)). }
  split; [|apply freqw_acc_spec; assumption].
  intros i Hi Hr Hc. destruct Hwf as [_ [_ Hp]].
  pose proof (diag_le_row hist n_class i Hp Hi) as Hd.
  assert (Hd0 : diag hist n_class i = 0) by lia.
  repeat split.
  - unfold touched. apply filter_In. split; [apply range_In; assumption|].
    rewrite Hr, Hd0.
    destruct (Z.eqb_spec (0 + col_sum hist n_class i - 0) 0); [lia|reflexivity].
  - unfold supported. rewrite filter_In, Hr. intros [_ H]. discriminate.
  - unfold class_iou. rewrite Hd0. unfold Qdiv. apply Qmult_0_l.
Qed.

Lemma scores_nan_safe_aggregation_witness :
  scores [[0; 0; 2]] [[0; 1; 2]] 3 = Ok (metrics [1; 1; 0; 0; 0; 0; 0; 0; 1] 3)
  /\ feq (mean_acc (metrics [1; 1; 0; 0; 0; 0; 0; 0; 1] 3))
         (mean_over (class_acc [1; 1; 0; 0; 0; 0; 0; 0; 1] 3)
                    (supported [1; 1; 0; 0; 0; 0; 0; 0; 1] 3))
  /\ feq (mean_iou (metrics [1; 1; 0; 0; 0; 0; 0; 0; 1] 3))
         (mean_over (class_iou [1; 1; 0; 0; 0; 0; 0; 0; 1] 3)
                    (touched [1; 1; 0; 0; 0; 0; 0; 0; 1] 3))
  /\ (forall i, 0 <= i < 3 ->
                row_sum [1; 1; 0; 0; 0; 0; 0; 0; 1] 3 i = 0 ->
                col_sum [1; 1; 0; 0; 0; 0; 0; 0; 1] 3 i <> 0 ->
                In i (touched [1; 1; 0; 0; 0; 0; 0; 0; 1] 3)
                /\ ~ In i (supported [1; 1; 0; 0; 0; 0; 0; 0; 1] 3)
                /\ Qeq (class_iou [1; 1; 0; 0; 0; 0; 0; 0; 1] 3 i) 0%Q)
  /\ feq (freqw_acc (metrics [1; 1; 0; 0; 0; 0; 0; 0; 1] 3))
         (Fin (spec_fwavacc [1; 1; 0; 0; 0; 0; 0; 0; 1] 3)).
Proof.
  apply (scores_nan_safe_aggregation [[0; 0; 2]] [[0; 1; 2]] 3).
  reflexivity.
Defined.

(** C6 as stated fails: with true labels [0, 0] and predictions [0, 1] over
    two classes, class 1 has a zero row sum, yet the mean IoU is 1/4, the
    mean of 1/2 and 0, and not the mean 1/2 over the supported classes. *)
Lemma scores_zero_support_counted_in_mean_iou :
  exists hist r,
    histogram [[0; 0]] [[0; 1]] 2 = Ok hist
    /\ scores [[0; 0]] [[0; 1]] 2 = Ok r
    /\ row_sum hist 2 1 = 0
    /\ feq (mean_iou r) (Fin (1 # 4))
    /\ ~ feq (mean_iou r) (mean_over (class_iou hist 2) (supported hist 2)).
Proof.
  exists [1; 1; 0; 0], (metrics [1; 1; 0; 0] 2).
  repeat split; try reflexivity.
  vm_compute. discriminate.
Qed.

(** *** Identical prediction and ground-truth maps *)

Lemma select_valid_mask (n : Z) (m : ndarray) :
  in_range n m -> select m (valid_mask m n) = m.
Proof.
  unfold valid_mask. induction 1 as [|x m Hx _ IH]; [reflexivity|].
  cbn [map select].
  destruct (Z.leb_spec 0 x); [|lia]. destruct (Z.ltb_spec x n); [|lia].
  cbn [andb]. rewrite IH. reflexivity.
Qed.

Lemma zip_with_diag {A C : Type} (f : A -> A -> C) (m : list A) :
  zip_with f m m = map (fun a => f a a) m.
Proof. induction m as [|a m IH]; [reflexivity|]. cbn. rewrite IH. reflexivity. Qed.

Lemma diag_index_bounds (n : Z) (m : ndarray) :
  in_range n m ->
  Forall (fun x => 0 <= x < n * n) (map (fun a => n * a + a) m).
Proof.
  induction 1 as [|x m Hx _ IH]; cbn [map]; constructor; [nia | assumption].
Qed.

Lemma existsb_neg_false (N : Z) (xs : list Z) :
  Forall (fun x => 0 <= x < N) xs -> existsb (fun x => Z.ltb x 0) xs = false.
Proof.
  induction 1 as [|x xs Hx _ IH]; [reflexivity|].
  cbn [existsb]. rewrite IH. destruct (Z.ltb_spec x 0); [lia | reflexivity].
Qed.

Lemma amax_bound (N : Z) (xs : list Z) :
  0 <= N -> Forall (fun x => 0 <= x < N) xs -> amax xs + 1 <= N.
Proof.
  intros HN. unfold amax.
  induction 1 as [|x xs Hx _ IH]; cbn [fold_right]; lia.
Qed.

Lemma fast_hist_identical (n : Z) (m : ndarray) :
  0 <= n -> in_range n m ->
  _fast_hist m m n
  = Ok (map (count_eq (map (fun a => n * a + a) m)) (range (n * n))).
Proof.
  intros Hn Hm. unfold _fast_hist. cbv zeta.
  rewrite mask_index_same by (unfold valid_mask; apply length_map).
  cbn [bind]. rewrite (select_valid_mask n m Hm), zip_with_diag.
  pose proof (diag_index_bounds n m Hm) as Hb.
  unfold bincount. rewrite (existsb_neg_false (n * n)) by assumption.
  pose proof (amax_bound (n * n) _ ltac:(nia) Hb).
  rewrite Z.max_l by lia. cbn [bind]. unfold reshape.
  rewrite length_map, range_length.
  destruct (Z.leb_spec 0 n); [|lia].
  rewrite Z2Nat.id, Z.eqb_refl by nia. reflexivity.
Qed.

Lemma nth_range_map (f : Z -> Z) (N k : Z) :
  0 <= k < N -> nth (Z.to_nat k) (map f (range N)) 0 = f k.
Proof.
  intros Hk. unfold range. rewrite map_map.
  rewrite (nth_indep _ 0 (f (Z.of_nat 0)))
    by (rewrite length_map, length_seq; lia).
  rewrite (map_nth (fun x => f (Z.of_nat x)) (seq 0 (Z.to_nat N)) 0%nat).
  rewrite seq_nth by lia. f_equal. lia.
Qed.

Lemma count_eq_cons (x : Z) (xs : list Z) (k : Z) :
  count_eq (x :: xs) k = (if Z.eqb x k then 1 else 0) + count_eq xs k.
Proof.
  unfold count_eq. cbn [count_occ].
  destruct (Z.eq_dec x k) as [->|Hne].
  - rewrite Z.eqb_refl. lia.
  - destruct (Z.eqb_spec x k); [contradiction | lia].
Qed.

Lemma count_eq_diag_index (n : Z) (m : ndarray) (i j : Z) :
  in_range n m -> 0 <= i < n -> 0 <= j < n ->
  count_eq (map (fun a => n * a + a) m) (n * i + j)
  = if Z.eqb i j then count_eq m i else 0.
Proof.
  intros Hm Hi Hj. induction Hm as [|x m Hx _ IH]; cbn [map].
  - destruct (Z.eqb i j); reflexivity.
  - rewrite !count_eq_cons, IH.
    destruct (Z.eqb_spec i j) as [->|Hij].
    + destruct (Z.eqb_spec (n * x + x) (n * j + j)) as [E|E];
        destruct (Z.eqb_spec x j) as [E'|E']; try reflexivity; exfalso.
      * destruct (Z.lt_trichotomy x j) as [|[|]]; nia.
      * subst x. apply E. reflexivity.
    + destruct (Z.eqb_spec (n * x + x) (n * i + j)) as [E|E];
        [exfalso | reflexivity].
      destruct (Z.lt_trichotomy x i) as [|[|]]; nia.
Qed.

Lemma entry_fast_hist_identical (n : Z) (m : ndarray) (i j : Z) :
  in_range n m -> 0 <= i < n -> 0 <= j < n ->
  entry (map (count_eq (map (fun a => n * a + a) m)) (range (n * n))) n i j
  = if Z.eqb i j then count_eq m i else 0.
Proof.
  intros Hm Hi Hj. unfold entry.
  rewrite nth_range_map by nia. apply count_eq_diag_index; assumption.
Qed.

Lemma nth_zip_with_add (a b : list Z) (k : nat) :
  length a = length b ->
  nth k (zip_with Z.add a b) 0 = nth k a 0 + nth k b 0.
Proof.
  revert b k; induction a as [|x a IH]; intros [|y b] k Hl;
    simpl in Hl; try discriminate.
  - destruct k; reflexivity.
  - destruct k as [|k]; cbn [zip_with nth]; [reflexivity|].
    apply IH. lia.
Qed.

Lemma accumulate_identical (n : Z) (maps : list ndarray) :
  0 <= n -> Forall (in_range n) maps ->
  forall h0, length h0 = Z.to_nat (n * n) ->
  exists h,
    accumulate (combine maps maps) n h0 = Ok h
    /\ length h = Z.to_nat (n * n)
    /\ forall i j, 0 <= i < n -> 0 <= j < n ->
         entry h n i j
         = entry h0 n i j + (if Z.eqb i j then class_count maps i else 0).
Proof.
  intros Hn. induction 1 as [|m maps Hm _ IH]; intros h0 Hl.
  - exists h0. repeat split; [assumption|].
    intros i j _ _. unfold class_count. cbn [map zsum].
    destruct (Z.eqb i j); lia.
  - cbn [combine accumulate]. rewrite fast_hist_identical by assumption.
    cbn [bind].
    set (h1 := map (count_eq (map (fun a => n * a + a) m)) (range (n * n))).
    assert (Hl1 : length h1 = Z.to_nat (n * n))
      by (unfold h1; rewrite length_map, range_length; reflexivity).
    destruct (IH (zip_with Z.add h0 h1)) as [h [E [Hlh He]]].
    { rewrite zip_with_length; congruence. }
    exists h. repeat split; try assumption.
    intros i j Hi Hj. rewrite (He i j Hi Hj).
    unfold entry at 1. rewrite nth_zip_with_add by congruence.
    fold (entry h0 n i j) (entry h1 n i j).
    unfold h1. rewrite entry_fast_hist_identical by assumption.
    unfold class_count. cbn [map zsum].
    destruct (Z.eqb i j); lia.
Qed.

Lemma entry_zeros (n i j : Z) : entry (repeat 0 (Z.to_nat (n * n))) n i j = 0.
Proof.
  unfold entry.
  destruct (nth_in_or_default (Z.to_nat (n * i + j))
              (repeat 0 (Z.to_nat (n * n))) 0) as [Hin|E]; [|exact E].
  apply repeat_spec in Hin. exact Hin.
Qed.

Lemma histogram_identical (n : Z) (maps : list ndarray) :
  0 <= n -> Forall (in_range n) maps ->
  exists h,
    histogram maps maps n = Ok h
    /\ forall i j, 0 <= i < n -> 0 <= j < n ->
         entry h n i j = if Z.eqb i j then class_count maps i else 0.
Proof.
  intros Hn Hm. unfold histogram, zeros.
  destruct (Z.ltb_spec n 0); [lia|]. cbn [bind].
  destruct (accumulate_identical n maps Hn Hm (repeat 0 (Z.to_nat (n * n))))
    as [h [E [_ He]]]; [apply repeat_length|].
  exists h. split; [assumption|].
  intros i j Hi Hj. rewrite (He i j Hi Hj), entry_zeros. lia.
Qed.

Lemma zsum_indicator (c : Z -> Z) (i : Z) (l : list Z) :
  NoDup l -> In i l ->
  zsum (map (fun j => if Z.eqb j i then c j else 0) l) = c i.
Proof.
  induction 1 as [|x l Hx _ IH]; intros Hin; [destruct Hin|].
  cbn [map zsum].
  assert (Hrest : ~ In i l ->
                  zsum (map (fun j => if Z.eqb j i then c j else 0) l) = 0).
  { clear. induction l as [|y l IHl]; intros Hni; [reflexivity|].
    cbn [map zsum]. rewrite IHl by (intros H; apply Hni; right; exact H).
    destruct (Z.eqb_spec y i) as [->|_]; [|reflexivity].
    exfalso. apply Hni. left; reflexivity. }
  destruct (Z.eqb_spec x i) as [->|Hne].
  - rewrite Hrest by assumption. lia.
  - destruct Hin as [E|Hin]; [contradiction|]. rewrite IH by assumption. lia.
Qed.

Lemma count_eq_In (m : ndarray) (i : Z) : In i m -> 1 <= count_eq m i.
Proof.
  intros H. unfold count_eq.
  apply (count_occ_In Z.eq_dec) in H. lia.
Qed.

Lemma class_count_nonneg (maps : list ndarray) (i : Z) :
  0 <= class_count maps i.
Proof.
  unfold class_count. apply zsum_map_nonneg. intros m. apply count_eq_nonneg.
Qed.

Lemma class_count_pos (maps : list ndarray) (i : Z) :
  (exists m, In m maps /\ In i m) -> 1 <= class_count maps i.
Proof.
  intros [m [Hm Hi]]. unfold class_count.
  pose proof (zsum_map_member (fun m => count_eq m i) maps m
                (fun m => count_eq_nonneg m i) Hm) as H.
  simpl in H. pose proof (count_eq_In m i Hi). lia.
Qed.

Section Diagonal_histogram.

Variables (hist : list Z) (n : Z) (c : Z -> Z).
Hypothesis Hentry : forall i j, 0 <= i < n -> 0 <= j < n ->
  entry hist n i j = if Z.eqb i j then c i else 0.

Lemma diagonal_row (i : Z) : 0 <= i < n -> row_sum hist n i = c i.
Proof.
  intros Hi. unfold row_sum.
  rewrite (map_ext_in _ (fun j => if Z.eqb j i then (fun _ => c i) j else 0)).
  - apply (zsum_indicator (fun _ => c i));
      [apply range_NoDup | apply range_In; assumption].
  - intros j Hj. apply range_In in Hj. rewrite Hentry by assumption.
    rewrite Z.eqb_sym. reflexivity.
Qed.

Lemma diagonal_col (i : Z) : 0 <= i < n -> col_sum hist n i = c i.
Proof.
  intros Hi. unfold col_sum.
  rewrite (map_ext_in _ (fun j => if Z.eqb j i then c j else 0)).
  - apply zsum_indicator; [apply range_NoDup | apply range_In; assumption].
  - intros j Hj. apply range_In in Hj. apply Hentry; assumption.
Qed.

Lemma diagonal_diag (i : Z) : 0 <= i < n -> diag hist n i = c i.
Proof.
  intros Hi. unfold diag. rewrite Hentry by assumption.
  rewrite Z.eqb_refl. reflexivity.
Qed.

Lemma diagonal_total : wf_hist hist n -> zsum hist = zsum (map c (range n)).
Proof.
  intros Hwf. rewrite (zsum_rows hist n Hwf). f_equal.
  apply map_ext_in. intros i Hi. apply diagonal_row, range_In, Hi.
Qed.

Lemma diagonal_trace : zsum (map (diag hist n) (range n)) = zsum (map c (range n)).
Proof.
  f_equal. apply map_ext_in. intros i Hi. apply diagonal_diag, range_In, Hi.
Qed.

End Diagonal_histogram.

Lemma feq_trans (a b c : npfloat) : feq a b -> feq b c -> feq a c.
Proof.
  destruct a, b, c; cbn [feq]; try tauto. intros H1 H2.
  rewrite H1. exact H2.
Qed.

Lemma Qsum_ones (q : Z -> Q) (l : list Z) :
  (forall i, In i l -> (q i == 1)%Q) ->
  (Qsum (map q l) == inject_Z (Z.of_nat (length l)))%Q.
Proof.
  induction l as [|i l IH]; intros H; [reflexivity|].
  cbn [map Qsum length]. rewrite (H i) by (left; reflexivity).
  rewrite IH by (intros j Hj; apply H; right; exact Hj).
  rewrite Nat2Z.inj_succ, <- Z.add_1_r, inject_Z_plus.
  change (inject_Z 1) with 1%Q. ring.
Qed.

Lemma Qdiv_self (k : Z) : k <> 0 -> (inject_Z k / inject_Z k == 1)%Q.
Proof.
  intros Hk. assert (~ (inject_Z k == 0)%Q) by (unfold Qeq; simpl; lia).
  field. assumption.
Qed.

Lemma mean_over_ones (q : Z -> Q) (l : list Z) :
  l <> [] -> (forall i, In i l -> (q i == 1)%Q) ->
  feq (mean_over q l) (Fin 1).
Proof.
  intros Hne H. unfold mean_over. destruct l as [|i0 l]; [congruence|].
  cbn [feq]. rewrite (Qsum_ones q (i0 :: l) H).
  apply Qdiv_self. cbn [length]. lia.
Qed.

Lemma zsum_ge_length (c : Z -> Z) (l : list Z) :
  (forall i, In i l -> 1 <= c i) -> Z.of_nat (length l) <= zsum (map c l).
Proof.
  induction l as [|i l IH]; intros H; cbn [map zsum length]; [lia|].
  pose proof (H i (or_introl eq_refl)).
  specialize (IH (fun j Hj => H j (or_intror Hj))). lia.
Qed.

(** C5: identical prediction and ground-truth maps over at least one
    class, with all values in range and every class present, score an
    overall accuracy of 1 and a mean IoU of 1. *)
Theorem scores_identical_maps (maps : list ndarray) (n_class : Z) :
  1 <= n_class ->
  Forall (in_range n_class) maps ->
  (forall i, 0 <= i < n_class -> exists m, In m maps /\ In i m) ->
  exists r,
    scores maps maps n_class = Ok r
    /\ feq (overall_acc r) (Fin 1)
    /\ feq (mean_iou r) (Fin 1).
Proof.
  intros Hn Hr Hall.
  destruct (histogram_identical n_class maps ltac:(lia) Hr) as [h [E He]].
  pose proof (histogram_wf _ _ _ _ E) as Hwf.
  assert (Hc : forall i, In i (range n_class) -> 1 <= class_count maps i).
  { intros i Hi. apply class_count_pos, Hall, range_In, Hi. }
  exists (metrics h n_class).
  split; [unfold scores; rewrite E; reflexivity|]. split.
  - cbn [metrics overall_acc].
    rewrite (diagonal_trace h n_class (class_count maps) He).
    rewrite (diagonal_total h n_class (class_count maps) He Hwf).
    pose proof (zsum_ge_length (class_count maps) (range n_class) Hc) as Hpos.
    rewrite range_length in Hpos.
    rewrite fdiv_counts by lia.
    destruct (Z.eqb_spec (zsum (map (class_count maps) (range n_class))) 0);
      [lia|].
    cbn [feq]. apply Qdiv_self. assumption.
  - cbn [metrics mean_iou]. rewrite iu_arr_cases by assumption.
    eapply feq_trans; [apply (nanmean_map
      (fun i => row_sum h n_class i + col_sum h n_class i - diag h n_class i))|].
    rewrite (filter_ext_in _ (fun _ => true)), filter_true.
    + apply mean_over_ones.
      * intros El. apply (f_equal (@length Z)) in El.
        rewrite range_length in El. simpl in El. lia.
      * intros i Hi. pose proof (Hc i Hi). apply range_In in Hi.
        unfold class_iou.
        rewrite (diagonal_row h n_class _ He), (diagonal_col h n_class _ He),
          (diagonal_diag h n_class _ He) by assumption.
        replace (class_count maps i + class_count maps i - class_count maps i)
          with (class_count maps i) by lia.
        apply Qdiv_self. lia.
    + intros i Hi. pose proof (Hc i Hi). apply range_In in Hi.
      rewrite (diagonal_row h n_class _ He), (diagonal_col h n_class _ He),
        (diagonal_diag h n_class _ He) by assumption.
      destruct (Z.eqb_spec (class_count maps i + class_count maps i
                            - class_count maps i) 0); [lia | reflexivity].
Qed.

Lemma scores_identical_maps_witness :
  exists r,
    scores [[0; 1; 1]; [2; 0]] [[0; 1; 1]; [2; 0]] 3 = Ok r
    /\ feq (overall_acc r) (Fin 1)
    /\ feq (mean_iou r) (Fin 1).
Proof.
  apply scores_identical_maps.
  - lia.
  - repeat constructor; lia.
  - intros i Hi.
    assert (Hc : i = 0 \/ i = 1 \/ i = 2) by lia.
    destruct Hc as [-> | [-> | ->]].
    + exists [0; 1; 1]. simpl. tauto.
    + exists [0; 1; 1]. simpl. tauto.
    + exists [2; 0]. simpl. tauto.
Defined.

End Scorer_facts.

(** ** Training and validation drivers *)

Section Driver_facts.
Import Np Driver.

Variable image : Type.

Lemma count_event_app (e : event) (a b : list event) :
  count_event e (a ++ b) = (count_event e a + count_event e b)%nat.
Proof. unfold count_event. apply count_occ_app. Qed.

Lemma train_count (e : event) (train_loader : list (batch image)) :
  count_event e (train image train_loader)
  = (length train_loader
     * count_event e [ZeroGrad; NetForward; Criterion; OptimizerStep])%nat.
Proof.
  unfold train. induction train_loader as [|d l IH]; [reflexivity|].
  cbn [flat_map length]. rewrite count_event_app, IH.
  unfold train_batch. lia.
Qed.

(** C7, evaluated on the code: every batch iteration of [train] makes the
    four calls zero_grad, forward, criterion, optimizer step, in that order;
    the backward pass the claim lists between the loss and the optimizer
    step is never called, whatever the loader. *)
Theorem train_never_calls_backward (train_loader : list (batch image)) :
  (forall data, train_batch image data
                = [ZeroGrad; NetForward; Criterion; OptimizerStep])
  /\ count_event LossBackward (train image train_loader) = 0%nat
  /\ count_event OptimizerStep (train image train_loader) = length train_loader.
Proof.
  split; [reflexivity|]. rewrite !train_count. cbn. lia.
Qed.

Variable predict : image -> ndarray.
Variable NUM_CLASSES : Z.

Lemma epochs_no_scheduler_step calc (train_loader val_loader : list (batch image))
  (es : list Z) :
  count_event SchedulerStep
    (fst (epochs image predict calc NUM_CLASSES train_loader val_loader es)) = 0%nat.
Proof.
  induction es as [|epoch es IH]; cbn [epochs]; [reflexivity|].
  destruct (validate image predict calc NUM_CLASSES val_loader).
  - destruct (epochs image predict calc NUM_CLASSES train_loader val_loader es)
      as [tr r]. cbn [fst] in *.
    rewrite !count_event_app, IH, train_count. cbn. lia.
  - cbn [fst]. rewrite count_event_app, train_count. cbn. lia.
Qed.

(** C8, evaluated on the code: [main] creates the scheduler and never
    advances it; the trace of a run holds no scheduler step, whatever the
    number of epochs, the loaders and the metric function. *)
Theorem main_never_steps_scheduler calc (MAX_EPOCH : Z)
  (train_loader val_loader : list (batch image)) :
  let trace := fst (main image predict calc NUM_CLASSES MAX_EPOCH
                         train_loader val_loader) in
  count_event SchedulerCreate trace = 1%nat
  /\ count_event SchedulerStep trace = 0%nat.
Proof.
  cbv zeta. unfold main.
  destruct (validate image predict calc NUM_CLASSES val_loader).
  - pose proof (epochs_no_scheduler_step calc train_loader val_loader
                  (range MAX_EPOCH)) as H.
    assert (Hc : forall es,
      count_event SchedulerCreate
        (fst (epochs image predict calc NUM_CLASSES train_loader val_loader es))
      = 0%nat).
    { induction es as [|epoch es IH]; cbn [epochs]; [reflexivity|].
      destruct (validate image predict calc NUM_CLASSES val_loader).
      - destruct (epochs image predict calc NUM_CLASSES train_loader val_loader es)
          as [tr r]. cbn [fst] in *.
        rewrite !count_event_app, IH, train_count. cbn. lia.
      - cbn [fst]. rewrite count_event_app, train_count. cbn. lia. }
    specialize (Hc (range MAX_EPOCH)).
    destruct (epochs image predict calc NUM_CLASSES train_loader val_loader
                (range MAX_EPOCH)) as [tr r].
    cbn [fst] in *. rewrite !count_event_app, H, Hc. split; reflexivity.
  - split; reflexivity.
Qed.

(** C9: [calculate_mean_iu] of utils.py returns a single float, and the
    six-name unpacking of the validation driver cannot bind it: every batch
    iteration raises, with TypeError whenever the metric itself returns. *)
Theorem validate_batch_cannot_unpack (data : batch image) (s : sums) :
  (forall predictions gts n v,
      utils_calculate_mean_iu predictions gts n = Ok v ->
      exists m, v = PyFloat m /\ unpack6 v = Raise TypeError)
  /\ (exists e,
        validate_batch image predict utils_calculate_mean_iu NUM_CLASSES data s
        = Raise e
        /\ (forall m,
              MeanIU.calculate_mean_iu [predict (fst data)] [snd data] NUM_CLASSES
              = Ok m -> e = TypeError)).
Proof.
  split.
  - intros predictions gts n v. unfold utils_calculate_mean_iu.
    destruct (MeanIU.calculate_mean_iu predictions gts n) as [m|e];
      cbn [bind]; intros E; [|discriminate].
    injection E as <-. exists m. split; reflexivity.
  - destruct data as [inputs labels]. cbn [fst snd].
    unfold validate_batch, utils_calculate_mean_iu.
    destruct (MeanIU.calculate_mean_iu [predict inputs] [labels] NUM_CLASSES)
      as [m|e]; cbn [bind unpack6].
    + exists TypeError. split; [reflexivity | intros; reflexivity].
    + exists e. split; [reflexivity | intros m' E; discriminate E].
Qed.

End Driver_facts.

(** *** Two concrete runs *)

(** With a metric that returns six values the run completes: two epochs
    over two training batches, no backward pass and no scheduler step. *)
Example main_trace_two_epochs :
  Driver.main unit (fun _ => [0%Z])
    (fun _ _ _ => Ok (Driver.PyTuple [1; 1; 1; 1; 1; 1]%Q)) 5 2
    [(tt, [0%Z]); (tt, [1%Z])] [(tt, [0%Z])]
  = (let iteration := [Driver.ZeroGrad; Driver.NetForward; Driver.Criterion;
                       Driver.OptimizerStep] in
     [Driver.NetTrain; Driver.SchedulerCreate; Driver.ValidateCall (-1)]
     ++ iteration ++ iteration ++ [Driver.ValidateCall 0]
     ++ iteration ++ iteration ++ [Driver.ValidateCall 1],
     Ok tt).
Proof. reflexivity. Qed.

(** With [calculate_mean_iu] of utils.py the first validation pass already
    raises TypeError, before any training iteration. *)
Example main_aborts_with_utils_metric :
  Driver.main unit (fun _ => [0%Z]) Driver.utils_calculate_mean_iu 5 2
    [(tt, [0%Z]); (tt, [1%Z])] [(tt, [0%Z])]
  = ([Driver.NetTrain; Driver.SchedulerCreate; Driver.ValidateCall (-1)],
     Raise TypeError).
Proof. reflexivity. Qed.

(** ** Focal sigmoid loss *)

Section Focal_facts.
Import FocalLoss.
Local Open Scope R_scope.

(** *** The sigmoid and the two log terms *)

Lemma exp_neg_pos (x : R) : 0 < 1 + exp (- x).
Proof. pose proof (exp_pos (- x)). lra. Qed.

Lemma sigmoid_bounds (x : R) : 0 < sigmoid x < 1.
Proof.
  unfold sigmoid. pose proof (exp_pos (- x)) as He. split.
  - apply Rinv_0_lt_compat. lra.
  - rewrite <- Rinv_1 at 2. apply Rinv_lt_contravar; lra.
Qed.

Lemma log_probs_closed (x : R) : log_probs x = - ln (1 + exp (- x)).
Proof.
  unfold log_probs, where_, ge0, softplus.
  destruct (Rle_dec 0 x) as [Hx|Hx].
  - destruct (Rle_dec (x * -1) 50) as [_|H]; [|exfalso; lra].
    replace (-1 * x) with (- x) by ring. field.
  - destruct (Rle_dec (x * 1) 50) as [_|H]; [|exfalso; lra].
    replace (1 * x) with x by ring.
    replace (1 + exp x) with (exp x * (1 + exp (- x))).
    + rewrite ln_mult, ln_exp; [field | apply exp_pos | apply exp_neg_pos].
    + rewrite Rmult_plus_distr_l, <- exp_plus.
      replace (x + - x) with 0 by ring. rewrite exp_0. ring.
Qed.

Lemma log_1_probs_closed (x : R) : log_1_probs x = - x - ln (1 + exp (- x)).
Proof.
  unfold log_1_probs, where_, ge0, softplus.
  destruct (Rle_dec 0 x) as [Hx|Hx].
  - destruct (Rle_dec (x * -1) 50) as [_|H]; [|exfalso; lra].
    replace (-1 * x) with (- x) by ring. field.
  - destruct (Rle_dec (x * 1) 50) as [_|H]; [|exfalso; lra].
    replace (1 * x) with x by ring.
    replace (1 + exp x) with (exp x * (1 + exp (- x))).
    + rewrite ln_mult, ln_exp; [field | apply exp_pos | apply exp_neg_pos].
    + rewrite Rmult_plus_distr_l, <- exp_plus.
      replace (x + - x) with 0 by ring. rewrite exp_0. ring.
Qed.

Lemma ln_one_plus_exp_pos (x : R) : 0 < ln (1 + exp x).
Proof.
  rewrite <- ln_1. apply ln_increasing; [lra|]. pose proof (exp_pos x). lra.
Qed.

Lemma log_probs_nonpos (x : R) : log_probs x <= 0.
Proof.
  rewrite log_probs_closed. pose proof (ln_one_plus_exp_pos (- x)). lra.
Qed.

Lemma log_1_probs_nonpos (x : R) : log_1_probs x <= 0.
Proof.
  rewrite log_1_probs_closed.
  replace (1 + exp (- x)) with (exp (- x) * (1 + exp x)).
  - rewrite ln_mult, ln_exp; [|apply exp_pos | pose proof (exp_pos x); lra].
    pose proof (ln_one_plus_exp_pos x). lra.
  - rewrite Rmult_plus_distr_l, <- exp_plus.
    replace (- x + x) with 0 by ring. rewrite exp_0. ring.
Qed.

(** *** Derivatives of the building blocks *)

Lemma derivable_pt_lim_eq (f : R -> R) (x l l' : R) :
  l = l' -> derivable_pt_lim f x l -> derivable_pt_lim f x l'.
Proof. intros ->. exact (fun H => H). Qed.

Lemma derive_neg (x : R) : derivable_pt_lim (fun z => - z) x (- 1).
Proof. exact (derivable_pt_lim_opp id x 1 (derivable_pt_lim_id x)). Qed.

Lemma derive_exp_neg (x : R) :
  derivable_pt_lim (fun z => exp (- z)) x (- exp (- x)).
Proof.
  apply (derivable_pt_lim_eq _ _ (exp (- x) * - 1)); [ring|].
  exact (derivable_pt_lim_comp (fun z => - z) exp x (- 1) (exp (- x))
           (derive_neg x) (derivable_pt_lim_exp (- x))).
Qed.

Lemma derive_one_plus_exp_neg (x : R) :
  derivable_pt_lim (fun z => 1 + exp (- z)) x (- exp (- x)).
Proof.
  apply (derivable_pt_lim_eq _ _ (0 + - exp (- x))); [ring|].
  exact (derivable_pt_lim_plus (fct_cte 1) (fun z => exp (- z)) x 0 _
           (derivable_pt_lim_const 1 x) (derive_exp_neg x)).
Qed.

Lemma derive_log_sigmoid (x : R) :
  derivable_pt_lim (fun z => - ln (1 + exp (- z))) x (1 - sigmoid x).
Proof.
  pose proof (exp_neg_pos x) as Hpos.
  apply (derivable_pt_lim_eq _ _ (- (/ (1 + exp (- x)) * - exp (- x)))).
  { unfold sigmoid. field. lra. }
  exact (derivable_pt_lim_opp _ x _
           (derivable_pt_lim_comp (fun z => 1 + exp (- z)) ln x _ _
              (derive_one_plus_exp_neg x)
              (derivable_pt_lim_ln (1 + exp (- x)) Hpos))).
Qed.

Lemma derive_sigmoid (x : R) :
  derivable_pt_lim sigmoid x (sigmoid x * (1 - sigmoid x)).
Proof.
  pose proof (exp_neg_pos x) as Hpos.
  apply (derivable_pt_lim_ext (div_fct (fct_cte 1) (fun z => 1 + exp (- z)))).
  { intros z. unfold div_fct, fct_cte, sigmoid. pose proof (exp_neg_pos z).
    field. lra. }
  apply (derivable_pt_lim_eq _ _
           ((0 * (1 + exp (- x)) - - exp (- x) * fct_cte 1 x)
            / Rsqr (1 + exp (- x)))).
  { unfold sigmoid, fct_cte, Rsqr. field. lra. }
  apply (derivable_pt_lim_div (fct_cte 1) (fun z => 1 + exp (- z))).
  - apply derivable_pt_lim_const.
  - apply derive_one_plus_exp_neg.
  - lra.
Qed.

Lemma forward_product (z label alpha gamma : R) :
  forward z label alpha gamma = ce_of label alpha z * coeff_of label gamma z.
Proof. reflexivity. Qed.

Lemma derive_ce (x label alpha : R) :
  derivable_pt_lim (ce_of label alpha) x (spec_d_ce x label alpha).
Proof.
  set (A := fun z => - ln (1 + exp (- z))).
  apply (derivable_pt_lim_ext
           (plus_fct (mult_real_fct (label * alpha) A)
              (mult_real_fct ((1 - label) * (1 - alpha)) (minus_fct A id)))).
  { intros z. unfold ce_of, plus_fct, mult_real_fct, minus_fct, id, A.
    rewrite log_probs_closed, log_1_probs_closed. ring. }
  apply (derivable_pt_lim_eq _ _
           (label * alpha * (1 - sigmoid x)
            + (1 - label) * (1 - alpha) * ((1 - sigmoid x) - 1))).
  { unfold spec_d_ce. ring. }
  apply derivable_pt_lim_plus.
  - apply derivable_pt_lim_scal. apply derive_log_sigmoid.
  - apply derivable_pt_lim_scal. apply derivable_pt_lim_minus.
    + apply derive_log_sigmoid.
    + apply derivable_pt_lim_id.
Qed.

(** *** Derivative of the modulating factor *)

Lemma pow_pos_base (b e : R) : 0 < b -> pow_ b e = Rpower b e.
Proof.
  intros Hb. unfold pow_. destruct (Req_dec_T b 0); [lra | reflexivity].
Qed.

Lemma pow_zero_base (e : R) : e <> 0 -> pow_ 0 e = 0.
Proof.
  intros He. unfold pow_. destruct (Req_dec_T 0 0) as [_|H]; [|lra].
  destruct (Req_dec_T e 0); [contradiction | reflexivity].
Qed.

Lemma pow_nonneg (b e : R) : 0 <= pow_ b e.
Proof.
  unfold pow_. destruct (Req_dec_T b 0).
  - destruct (Req_dec_T e 0); lra.
  - unfold Rpower. left. apply exp_pos.
Qed.

Lemma derive_pow_abs_pos (u gamma : R) :
  0 < u ->
  derivable_pt_lim (fun z => pow_ (Rabs z) gamma) u
                   (gamma * pow_ (Rabs u) (gamma - 1)).
Proof.
  intros Hu.
  apply (derivable_pt_lim_locally_ext (fun z => Rpower z gamma) _ u
           (u / 2) (u + 1)); [lra | |].
  - intros z Hz. rewrite Rabs_pos_eq by lra. symmetry. apply pow_pos_base. lra.
  - rewrite Rabs_pos_eq by lra. rewrite pow_pos_base by assumption.
    apply derivable_pt_lim_power. assumption.
Qed.

Lemma derive_pow_abs_neg (u gamma : R) :
  u < 0 ->
  derivable_pt_lim (fun z => pow_ (Rabs z) gamma) u
                   (- (gamma * pow_ (Rabs u) (gamma - 1))).
Proof.
  intros Hu.
  apply (derivable_pt_lim_locally_ext (fun z => Rpower (- z) gamma) _ u
           (u - 1) (u / 2)); [lra | |].
  - intros z Hz. rewrite Rabs_left by lra. symmetry. apply pow_pos_base. lra.
  - rewrite Rabs_left by lra. rewrite pow_pos_base by lra.
    apply (derivable_pt_lim_eq _ _ (gamma * Rpower (- u) (gamma - 1) * - 1));
      [ring|].
    exact (derivable_pt_lim_comp (fun z => - z) (fun y => Rpower y gamma) u _ _
             (derive_neg u)
             (derivable_pt_lim_power (- u) gamma ltac:(lra))).
Qed.

Lemma derive_pow_abs_zero (gamma : R) :
  1 < gamma -> derivable_pt_lim (fun z => pow_ (Rabs z) gamma) 0 0.
Proof.
  intros Hg eps Heps.
  assert (Hd : 0 < Rpower eps (/ (gamma - 1))) by (unfold Rpower; apply exp_pos).
  exists (mkposreal _ Hd). cbn [pos]. intros h Hh Hlt.
  rewrite Rplus_0_l, Rabs_R0, pow_zero_base by lra.
  assert (Hah : 0 < Rabs h) by (apply Rabs_pos_lt; assumption).
  rewrite pow_pos_base by assumption.
  replace ((Rpower (Rabs h) gamma - 0) / h - 0) with (Rpower (Rabs h) gamma / h)
    by (field; assumption).
  unfold Rdiv. rewrite Rabs_mult, Rabs_inv.
  rewrite (Rabs_pos_eq (Rpower (Rabs h) gamma))
    by (unfold Rpower; left; apply exp_pos).
  replace gamma with ((gamma - 1) + 1) at 1 by ring.
  rewrite Rpower_plus, Rpower_1 by assumption.
  replace (Rpower (Rabs h) (gamma - 1) * Rabs h * / Rabs h)
    with (Rpower (Rabs h) (gamma - 1)) by (field; lra).
  apply Rlt_le_trans with (Rpower (Rpower eps (/ (gamma - 1))) (gamma - 1)).
  - apply Rlt_Rpower_l; lra.
  - rewrite Rpower_mult. replace (/ (gamma - 1) * (gamma - 1)) with 1
      by (field; lra).
    rewrite Rpower_1 by assumption. lra.
Qed.

Lemma derive_coeff (x label gamma : R) :
  label <> sigmoid x \/ 1 < gamma ->
  derivable_pt_lim (coeff_of label gamma) x (spec_d_coeff x label gamma).
Proof.
  intros Hdom. unfold coeff_of.
  pose proof (derive_sigmoid x) as Hs.
  assert (Hin : derivable_pt_lim (fun z => label - sigmoid z) x
                                 (- (sigmoid x * (1 - sigmoid x)))).
  { apply (derivable_pt_lim_eq _ _ (0 - sigmoid x * (1 - sigmoid x))); [ring|].
    exact (derivable_pt_lim_minus (fct_cte label) sigmoid x 0 _
             (derivable_pt_lim_const label x) Hs). }
  assert (Hchain : forall dG,
    derivable_pt_lim (fun u => pow_ (Rabs u) gamma) (label - sigmoid x) dG ->
    derivable_pt_lim (fun z => - pow_ (Rabs (label - sigmoid z)) gamma) x
                     (dG * (sigmoid x * (1 - sigmoid x)))).
  { intros dG HG.
    apply (derivable_pt_lim_eq _ _ (- (dG * - (sigmoid x * (1 - sigmoid x)))));
      [ring|].
    exact (derivable_pt_lim_opp _ x _
             (derivable_pt_lim_comp (fun z => label - sigmoid z)
                (fun u => pow_ (Rabs u) gamma) x _ _ Hin HG)). }
  unfold spec_d_coeff. cbv zeta.
  destruct (Rlt_dec label (sigmoid x)) as [Hlt|Hge].
  - apply (derivable_pt_lim_eq _ _
             (- (gamma * pow_ (Rabs (label - sigmoid x)) (gamma - 1))
              * (sigmoid x * (1 - sigmoid x)))); [ring|].
    apply Hchain, derive_pow_abs_neg. lra.
  - destruct (Req_dec_T label (sigmoid x)) as [Heq|Hne].
    + destruct Hdom as [Hne|Hg]; [contradiction|].
      apply (derivable_pt_lim_eq _ _ (0 * (sigmoid x * (1 - sigmoid x)))).
      { rewrite Heq. replace (sigmoid x - sigmoid x) with 0 by ring.
        rewrite Rabs_R0, pow_zero_base by lra. ring. }
      apply Hchain. rewrite Heq.
      replace (sigmoid x - sigmoid x) with 0 by ring.
      apply derive_pow_abs_zero. assumption.
    + apply (derivable_pt_lim_eq _ _
               (gamma * pow_ (Rabs (label - sigmoid x)) (gamma - 1)
                * (sigmoid x * (1 - sigmoid x)))); [ring|].
      apply Hchain, derive_pow_abs_pos. lra.
Qed.

Lemma grad_logits_closed (logits label alpha gamma grad_output : R) :
  grad_logits logits label alpha gamma grad_output
  = grad_output * (spec_term1 logits label alpha gamma
                   + spec_term2 logits label alpha gamma).
Proof.
  unfold grad_logits, spec_term1, spec_term2, spec_d_coeff, spec_d_ce,
    forward_ctx, backward, where_, lt.
  cbn [snd ce coeff]. destruct (Rlt_dec label (sigmoid logits)); ring.
Qed.

(** C2, as the code has it: for gamma at least 1, and a label different
    from sigmoid(logits) when gamma is exactly 1, backward returns the upstream
    gradient times (term1 + term2), and that closed form is the derivative of
    the forward loss with respect to the logits.  Exponents gamma below 1
    are left out: backward then raises a zero base [|label - probs|] to the
    negative power gamma - 1, and in floating point the base is zero also
    for a binary label once the sigmoid saturates. *)
Theorem backward_is_derivative_of_forward
  (logits label alpha gamma grad_output : R) :
  1 <= gamma ->
  (gamma = 1 -> label <> sigmoid logits) ->
  grad_logits logits label alpha gamma grad_output
  = grad_output * (spec_term1 logits label alpha gamma
                   + spec_term2 logits label alpha gamma)
  /\ derivable_pt_lim (fun z => forward z label alpha gamma) logits
                      (spec_term1 logits label alpha gamma
                       + spec_term2 logits label alpha gamma).
Proof.
  intros Hgamma Hkink.
  assert (Hdom : label <> sigmoid logits \/ 1 < gamma).
  { destruct (Rle_lt_or_eq_dec 1 gamma Hgamma) as [Hlt | Heq];
      [right; exact Hlt | left; apply Hkink; symmetry; exact Heq]. }
  split; [apply grad_logits_closed|].
  apply (derivable_pt_lim_ext
           (mult_fct (ce_of label alpha) (coeff_of label gamma))).
  { intros z. rewrite forward_product. reflexivity. }
  apply (derivable_pt_lim_eq _ _
           (spec_d_ce logits label alpha * coeff_of label gamma logits
            + ce_of label alpha logits * spec_d_coeff logits label gamma)).
  { unfold spec_term1, spec_term2, forward_ctx, ce_of, coeff_of.
    cbn [snd ce coeff]. ring. }
  apply derivable_pt_lim_mult.
  - apply derive_ce.
  - apply derive_coeff. assumption.
Qed.

Lemma sigmoid_0 : sigmoid 0 = 1 / 2.
Proof. unfold sigmoid. rewrite Ropp_0, exp_0. lra. Qed.

Lemma backward_is_derivative_of_forward_witness :
  grad_logits 0 1 (1 / 4) 1 1
  = 1 * (spec_term1 0 1 (1 / 4) 1 + spec_term2 0 1 (1 / 4) 1)
  /\ derivable_pt_lim (fun z => forward z 1 (1 / 4) 1) 0
                      (spec_term1 0 1 (1 / 4) 1 + spec_term2 0 1 (1 / 4) 1).
Proof.
  apply backward_is_derivative_of_forward.
  - lra.
  - intros _. rewrite sigmoid_0. lra.
Defined.

(** *** A soft label on the kink of the modulating factor *)

Lemma ln_2_pos : 0 < ln 2.
Proof. rewrite <- ln_1. apply ln_increasing; lra. Qed.

Lemma log_probs_0 : log_probs 0 = - ln 2.
Proof.
  rewrite log_probs_closed, Ropp_0, exp_0.
  replace (1 + 1) with 2 by ring. reflexivity.
Qed.

Lemma log_1_probs_0 : log_1_probs 0 = - ln 2.
Proof.
  rewrite log_1_probs_closed, Ropp_0, exp_0.
  replace (1 + 1) with 2 by ring. ring.
Qed.

Lemma kink_closed_form :
  spec_term1 0 (1 / 2) (1 / 4) 1 + spec_term2 0 (1 / 2) (1 / 4) 1
  = - ln 2 / 8.
Proof.
  unfold spec_term1, spec_term2, spec_d_coeff, spec_d_ce, forward_ctx.
  cbn [snd ce coeff]. rewrite sigmoid_0, log_probs_0, log_1_probs_0.
  destruct (Rlt_dec (1 / 2) (1 / 2)) as [H|_]; [lra|].
  replace (1 / 2 - 1 / 2) with 0 by lra. replace (1 - 1) with 0 by lra.
  rewrite Rabs_R0. rewrite (pow_zero_base 1) by lra.
  unfold pow_. destruct (Req_dec_T 0 0) as [_|H]; [|lra]. lra.
Qed.

Lemma kink_forward_nonneg (z : R) : 0 <= forward z (1 / 2) (1 / 4) 1.
Proof.
  rewrite forward_product.
  assert (Hce : ce_of (1 / 2) (1 / 4) z <= 0).
  { unfold ce_of. pose proof (log_probs_nonpos z).
    pose proof (log_1_probs_nonpos z). lra. }
  assert (Hco : coeff_of (1 / 2) 1 z <= 0).
  { unfold coeff_of. pose proof (pow_nonneg (Rabs (1 / 2 - sigmoid z)) 1). lra. }
  nra.
Qed.

Lemma kink_forward_0 : forward 0 (1 / 2) (1 / 4) 1 = 0.
Proof.
  rewrite forward_product. unfold coeff_of. rewrite sigmoid_0.
  replace (1 / 2 - 1 / 2) with 0 by lra.
  rewrite Rabs_R0, pow_zero_base by lra. ring.
Qed.

(** C2 as stated fails for a soft label on the kink: at logits 0, label
    1/2 and gamma 1 the closed form is - ln 2 / 8, a negative number, while
    the forward loss is zero there and non-negative everywhere, so the
    closed form is not its derivative. *)
Lemma backward_not_derivative_at_kink :
  grad_logits 0 (1 / 2) (1 / 4) 1 1 = - ln 2 / 8
  /\ ~ derivable_pt_lim (fun z => forward z (1 / 2) (1 / 4) 1) 0
                        (spec_term1 0 (1 / 2) (1 / 4) 1
                         + spec_term2 0 (1 / 2) (1 / 4) 1).
Proof.
  split.
  { rewrite grad_logits_closed, kink_closed_form. ring. }
  rewrite kink_closed_form. intros H.
  pose proof ln_2_pos as Hln.
  destruct (H (ln 2 / 8) ltac:(lra)) as [delta Hd].
  pose proof (cond_pos delta) as Hpos.
  specialize (Hd (delta / 2) ltac:(lra)).
  rewrite Rabs_pos_eq in Hd by lra. specialize (Hd ltac:(lra)).
  rewrite Rplus_0_l, kink_forward_0 in Hd.
  pose proof (kink_forward_nonneg (delta / 2)) as Hf.
  assert (Hq : 0 <= (forward (delta / 2) (1 / 2) (1 / 4) 1 - 0) / (delta / 2)).
  { unfold Rdiv at 1. apply Rmult_le_pos; [lra|].
    left. apply Rinv_0_lt_compat. lra. }
  rewrite Rabs_pos_eq in Hd by lra. lra.
Qed.

(** *** Numeric brackets for [ln 2] *)

Lemma sq_iter_lower (k : nat) :
  forall (m : Z) (t : R),
    (0 <= m)%Z ->
    IZR m / IZR fix_scale <= exp t ->
    IZR (sq_iter k m) / IZR fix_scale <= exp (2 ^ k * t).
Proof.
  assert (HD : 0 < IZR fix_scale) by (apply IZR_lt; reflexivity).
  induction k as [|k IH]; intros m t Hm Hle.
  - cbn [sq_iter pow]. rewrite Rmult_1_l. exact Hle.
  - cbn [sq_iter]. replace (2 ^ S k * t) with (2 ^ k * (2 * t))
      by (cbn [pow]; ring).
    apply IH; [apply Z.div_pos; [nia | reflexivity]|].
    replace (2 * t) with (t + t) by ring. rewrite exp_plus.
    assert (H0 : 0 <= IZR m / IZR fix_scale).
    { apply Rmult_le_pos; [apply IZR_le; assumption|].
      left. apply Rinv_0_lt_compat. assumption. }
    apply Rle_trans with (IZR m / IZR fix_scale * (IZR m / IZR fix_scale));
      [|apply Rmult_le_compat; assumption].
    assert (Hdiv : (fix_scale * (m * m / fix_scale) <= m * m)%Z)
      by (apply Z.mul_div_le; reflexivity).
    apply IZR_le in Hdiv. rewrite !mult_IZR in Hdiv.
    apply Rmult_le_reg_r with (IZR fix_scale); [assumption|].
    unfold Rdiv. rewrite Rmult_assoc, Rinv_l, Rmult_1_r by lra.
    apply Rmult_le_reg_r with (IZR fix_scale); [assumption|].
    replace (IZR m * / IZR fix_scale * (IZR m * / IZR fix_scale)
             * IZR fix_scale * IZR fix_scale)
      with (IZR m * IZR m) by (field; lra).
    lra.
Qed.

Lemma exp_bracket (m0 : Z) (t : R) :
  (0 <= m0)%Z -> IZR m0 / IZR fix_scale <= 1 + t ->
  IZR (sq_iter 12 m0) / IZR fix_scale <= exp (4096 * t).
Proof.
  intros Hm Hle. replace 4096 with (2 ^ 12) by (cbn [pow]; lra).
  apply sq_iter_lower; [assumption|].
  apply Rle_trans with (1 + t); [assumption | apply exp_ineq1_le].
Qed.

Lemma ln_2_upper : ln 2 < 6936 / 10000.
Proof.
  apply exp_lt_inv. rewrite exp_ln by lra.
  pose proof (exp_bracket 1000169335937500 (6936 / 40960000)
                ltac:(lia)) as H.
  replace (4096 * (6936 / 40960000)) with (6936 / 10000) in H by lra.
  assert (Hc : sq_iter 12 1000169335937500 = 2000788356061616%Z)
    by (vm_compute; reflexivity).
  rewrite Hc in H. unfold fix_scale in H.
  assert (IZR 1000169335937500 / IZR 1000000000000000 <= 1 + 6936 / 40960000)
    by lra.
  specialize (H ltac:(assumption)). lra.
Qed.

Lemma ln_2_lower : 6928 / 10000 < ln 2.
Proof.
  assert (H2 : - ln 2 < - (6928 / 10000)); [|lra].
  apply exp_lt_inv. rewrite <- ln_Rinv, exp_ln by lra.
  pose proof (exp_bracket 999830859375000 (- (6928 / 40960000))
                ltac:(lia)) as H.
  replace (4096 * - (6928 / 40960000)) with (- (6928 / 10000)) in H by lra.
  assert (Hc : sq_iter 12 999830859375000 = 500144312641674%Z)
    by (vm_compute; reflexivity).
  rewrite Hc in H. unfold fix_scale in H.
  assert (IZR 999830859375000 / IZR 1000000000000000
          <= 1 + - (6928 / 40960000)) by lra.
  specialize (H ltac:(assumption)). lra.
Qed.

(** *** The reference point logits = 0, label = 1, alpha = 1/4, gamma = 2 *)

Lemma pow_half_2 : pow_ (1 / 2) 2 = 1 / 4.
Proof.
  rewrite pow_pos_base by lra.
  replace 2 with (INR 2) at 2 by (cbn [INR]; lra).
  rewrite Rpower_pow by lra. cbn [pow]. lra.
Qed.

Lemma reference_coeff : coeff (snd (forward_ctx 0 1 (1 / 4) 2)) = - (1 / 4).
Proof.
  unfold forward_ctx. cbn [snd coeff]. rewrite sigmoid_0.
  replace (1 - 1 / 2) with (1 / 2) by lra.
  rewrite Rabs_pos_eq by lra. rewrite pow_half_2. reflexivity.
Qed.

Lemma reference_ce : ce (snd (forward_ctx 0 1 (1 / 4) 2)) = 1 / 4 * ln (1 / 2).
Proof.
  unfold forward_ctx. cbn [snd ce]. rewrite log_probs_0, log_1_probs_0.
  replace (1 / 2) with (/ 2) by lra. rewrite ln_Rinv by lra. lra.
Qed.

Lemma reference_loss : forward 0 1 (1 / 4) 2 = ln 2 / 16.
Proof.
  change (forward 0 1 (1 / 4) 2)
    with (ce (snd (forward_ctx 0 1 (1 / 4) 2))
          * coeff (snd (forward_ctx 0 1 (1 / 4) 2))).
  rewrite reference_coeff, reference_ce.
  replace (1 / 2) with (/ 2) by lra. rewrite ln_Rinv by lra. lra.
Qed.

(** C3, as the code has it: at logits 0, label 1, alpha 1/4 and gamma 2 the
    modulating factor is -(1 - 0.5)^2 = -0.25 (it is stored negated), the
    cross-entropy term is 0.25 * ln 0.5, about -0.1733, and the loss is
    their product ln 2 / 16, about +0.0433. *)
Theorem forward_at_reference_point :
  coeff (snd (forward_ctx 0 1 (1 / 4) 2)) = - (1 / 4)
  /\ ce (snd (forward_ctx 0 1 (1 / 4) 2)) = 1 / 4 * ln (1 / 2)
  /\ Rabs (ce (snd (forward_ctx 0 1 (1 / 4) 2)) - - (1733 / 10000)) < 1 / 10000
  /\ forward 0 1 (1 / 4) 2 = ln 2 / 16
  /\ Rabs (forward 0 1 (1 / 4) 2 - 433 / 10000) < 1 / 10000.
Proof.
  pose proof ln_2_lower. pose proof ln_2_upper.
  split; [apply reference_coeff|]. split; [apply reference_ce|].
  split.
  - rewrite reference_ce. replace (1 / 2) with (/ 2) by lra.
    rewrite ln_Rinv by lra. apply Rabs_def1; lra.
  - split; [apply reference_loss|].
    rewrite reference_loss. apply Rabs_def1; lra.
Qed.

(** C3 as stated fails: the stored modulating factor is not +0.25, and the
    loss is positive, farther than 0.0433 from the literal -0.0433. *)
Lemma forward_reference_literal_sign :
  coeff (snd (forward_ctx 0 1 (1 / 4) 2)) <> 1 / 4
  /\ 0 < forward 0 1 (1 / 4) 2
  /\ ~ Rabs (forward 0 1 (1 / 4) 2 - - (433 / 10000)) <= 433 / 10000.
Proof.
  pose proof ln_2_pos.
  rewrite reference_coeff, reference_loss. split; [lra|]. split; [lra|].
  rewrite Rabs_pos_eq by lra. lra.
Qed.

End Focal_facts.


(** * Further properties of the code *)

(** ** [calculate_mean_iu]: edge cases and symmetries *)

Section MeanIU_more.
Import Np MeanIU.
Local Open Scope Q_scope.

Lemma range_nonpos (n : Z) : (n <= 0)%Z -> range n = [].
Proof.
  intros Hn. unfold range. replace (Z.to_nat n) with 0%nat by lia. reflexivity.
Qed.

Lemma range_pos_cons (n : Z) :
  (1 <= n)%Z -> exists rest, range n = 0%Z :: rest.
Proof.
  intros Hn. unfold range.
  destruct (Z.to_nat n) as [|k] eqn:E; [lia|].
  cbn [seq map]. eexists. reflexivity.
Qed.

(** X1: without a class to visit the arrays are never read: zero classes
    raise ZeroDivisionError and a negative class count returns zero, also
    for arrays of mismatched shapes. *)
Theorem calculate_mean_iu_no_class
  (predictions gts : list ndarray) (num_classes : Z) :
  (num_classes <= 0)%Z ->
  (num_classes = 0%Z ->
   calculate_mean_iu predictions gts num_classes = Raise ZeroDivisionError)
  /\ ((num_classes < 0)%Z ->
      exists m, calculate_mean_iu predictions gts num_classes = Ok m /\ m == 0).
Proof.
  intros Hn. unfold calculate_mean_iu. rewrite range_nonpos by assumption.
  cbn [outer_loop bind]. split.
  - intros ->. reflexivity.
  - intros Hneg. destruct (Z.eqb_spec num_classes 0); [lia|].
    eexists. split; [reflexivity|]. unfold Qdiv. apply Qmult_0_l.
Qed.

Lemma calculate_mean_iu_no_class_witness :
  (0%Z = 0%Z ->
   calculate_mean_iu [[0; 1]%Z] [[0]%Z] 0 = Raise ZeroDivisionError)
  /\ ((0 < 0)%Z ->
      exists m, calculate_mean_iu [[0; 1]%Z] [[0]%Z] 0 = Ok m /\ m == 0).
Proof.
  apply calculate_mean_iu_no_class. lia.
Defined.

Lemma mask_index_raises {A : Type} (a : list A) (m : list bool) (e : pyexn) :
  mask_index a m = Raise e -> e = IndexError.
Proof.
  unfold mask_index.
  destruct (Nat.eqb (length m) 0 || Nat.eqb (length a) (length m))%bool;
    [discriminate | congruence].
Qed.

Lemma inner_loop_mismatch (i : Z) (pairs : list (ndarray * ndarray)) :
  Exists mismatched pairs ->
  forall acc, inner_loop i pairs acc = Raise IndexError.
Proof.
  induction pairs as [|[p gt] pairs IH]; intros Hex acc.
  - inversion Hex.
  - cbn [inner_loop]. unfold pair_step.
    destruct (mask_index gt (eq_scalar p i)) as [sel|e] eqn:E; cbn [bind].
    + apply IH. inversion Hex as [? ? H|? ? H]; subst; [|assumption].
      exfalso. destruct H as [Hne Hl]. cbn [fst snd] in Hne, Hl.
      rewrite mask_index_mismatch in E; [discriminate | |].
      * destruct p; [congruence | discriminate].
      * unfold eq_scalar. rewrite length_map. assumption.
    + apply mask_index_raises in E. subst e. reflexivity.
Qed.

(** X2: on one-dimensional arrays and with at least one class,
    [calculate_mean_iu] raises IndexError as soon as some paired prediction
    is non-empty and differs in size from its ground truth; when no pair is
    of that kind (every prediction is empty or has the size of its ground
    truth) it returns a value. *)
Theorem calculate_mean_iu_shape_mismatch
  (predictions gts : list ndarray) (num_classes : Z) :
  (1 <= num_classes)%Z ->
  (Exists mismatched (combine predictions gts) ->
   calculate_mean_iu predictions gts num_classes = Raise IndexError)
  /\ (Forall indexable (combine predictions gts) ->
      exists m, calculate_mean_iu predictions gts num_classes = Ok m).
Proof.
  intros Hn. split.
  - intros Hex. unfold calculate_mean_iu.
    destruct (range_pos_cons num_classes Hn) as [rest ->].
    cbn [outer_loop]. unfold class_iu.
    rewrite inner_loop_mismatch by assumption. reflexivity.
  - intros Hall.
    destruct (calculate_mean_iu_indexable predictions gts num_classes Hall Hn)
      as [m [E _]].
    exists m. exact E.
Qed.

Lemma calculate_mean_iu_shape_mismatch_witness :
  calculate_mean_iu [[0; 1]%Z; [1; 1; 0]%Z] [[0; 1]%Z; [1; 0]%Z] 2
  = Raise IndexError
  /\ exists m,
      calculate_mean_iu [[0; 1]%Z; []] [[0; 1]%Z; [1; 0]%Z] 2 = Ok m.
Proof.
  split.
  - apply (proj1 (calculate_mean_iu_shape_mismatch
                    [[0; 1]%Z; [1; 1; 0]%Z] [[0; 1]%Z; [1; 0]%Z] 2
                    ltac:(lia))).
    apply Exists_cons_tl, Exists_cons_hd.
    split; [discriminate | simpl; lia].
  - apply (proj2 (calculate_mean_iu_shape_mismatch
                    [[0; 1]%Z; []] [[0; 1]%Z; [1; 0]%Z] 2 ltac:(lia))).
    apply Forall_cons; [right; reflexivity|].
    apply Forall_cons; [left; reflexivity | apply Forall_nil].
Defined.

Lemma combine_app_l {A B : Type} (l e : list A) (l' : list B) :
  length l = length l' -> combine (l ++ e) l' = combine l l'.
Proof.
  revert l'; induction l as [|x l IH]; intros [|y l'] H; simpl in H;
    try discriminate.
  - destruct e; reflexivity.
  - cbn [app combine]. rewrite IH by lia. reflexivity.
Qed.

Lemma combine_app_r {A B : Type} (l : list A) (l' e : list B) :
  length l = length l' -> combine l (l' ++ e) = combine l l'.
Proof.
  revert l'; induction l as [|x l IH]; intros [|y l'] H; simpl in H;
    try discriminate.
  - reflexivity.
  - cbn [app combine]. rewrite IH by lia. reflexivity.
Qed.

(** X3: the two sequences are zipped: maps beyond the length of the
    shorter sequence are ignored without any error. *)
Theorem calculate_mean_iu_ignores_unpaired
  (predictions gts extra : list ndarray) (num_classes : Z) :
  length predictions = length gts ->
  calculate_mean_iu (predictions ++ extra) gts num_classes
  = calculate_mean_iu predictions gts num_classes
  /\ calculate_mean_iu predictions (gts ++ extra) num_classes
     = calculate_mean_iu predictions gts num_classes.
Proof.
  intros Hl. unfold calculate_mean_iu.
  rewrite combine_app_l, combine_app_r by assumption. split; reflexivity.
Qed.

Lemma calculate_mean_iu_ignores_unpaired_witness :
  calculate_mean_iu ([[0; 1]%Z] ++ [[5; 5; 5]%Z]) [[0; 0]%Z] 2
  = calculate_mean_iu [[0; 1]%Z] [[0; 0]%Z] 2
  /\ calculate_mean_iu [[0; 1]%Z] ([[0; 0]%Z] ++ [[5; 5; 5]%Z]) 2
     = calculate_mean_iu [[0; 1]%Z] [[0; 0]%Z] 2.
Proof.
  apply calculate_mean_iu_ignores_unpaired. reflexivity.
Defined.

Lemma count_positions_flip (f g : Z -> Z -> bool) :
  (forall x y, f x y = g y x) ->
  forall p gt, count_positions f p gt = count_positions g gt p.
Proof.
  intros Hfg. induction p as [|x p IH]; intros [|y gt];
    try reflexivity.
  rewrite !count_positions_cons, IH, Hfg. reflexivity.
Qed.

Lemma spec_fold_flip (f g : Z -> Z -> bool) :
  (forall x y, f x y = g y x) ->
  forall P G a, spec_fold f (combine P G) a = spec_fold g (combine G P) a.
Proof.
  intros Hfg. unfold spec_fold.
  induction P as [|p P IH]; intros [|gt G] a; try reflexivity.
  cbn [combine fold_left fst snd].
  rewrite (count_positions_flip f g Hfg). apply IH.
Qed.

Lemma same_shape_flip (P G : list ndarray) :
  Forall same_shape (combine P G) -> Forall same_shape (combine G P).
Proof.
  revert G; induction P as [|p P IH]; intros [|gt G] H; try constructor.
  - inversion H; subst. unfold same_shape in *. cbn [fst snd] in *. congruence.
  - apply IH. inversion H; assumption.
Qed.

Lemma spec_IoU_flip (P G : list ndarray) (i : Z) :
  spec_IoU (combine P G) i == spec_IoU (combine G P) i.
Proof.
  unfold spec_IoU, spec_accumulate. cbv zeta.
  rewrite (spec_fold_flip (both_eq i) (both_eq i)
             (fun x y => Bool.andb_comm _ _) P G),
    (spec_fold_flip (truth_eq i) (pred_eq i) (fun x y => eq_refl) P G),
    (spec_fold_flip (pred_eq i) (truth_eq i) (fun x y => eq_refl) P G).
  apply Qmult_comp; [reflexivity|]. apply Qinv_comp. ring.
Qed.

Lemma Qsum_map_ext (f g : Z -> Q) (l : list Z) :
  (forall i, f i == g i) -> Qsum (map f l) == Qsum (map g l).
Proof.
  intros H. induction l as [|i l IH]; cbn [map Qsum]; [reflexivity|].
  rewrite IH, (H i). reflexivity.
Qed.

(** X4: the metric is symmetric: exchanging the predictions and the ground
    truths leaves the mean IoU unchanged. *)
Theorem calculate_mean_iu_symmetric
  (predictions gts : list ndarray) (num_classes : Z) :
  Forall same_shape (combine predictions gts) ->
  num_classes <> 0%Z ->
  exists m m',
    calculate_mean_iu predictions gts num_classes = Ok m
    /\ calculate_mean_iu gts predictions num_classes = Ok m'
    /\ m == m'.
Proof.
  intros Hs Hn.
  destruct (calculate_mean_iu_spec predictions gts num_classes Hs Hn)
    as [m [E Hm]].
  destruct (calculate_mean_iu_spec gts predictions num_classes
              (same_shape_flip _ _ Hs) Hn) as [m' [E' Hm']].
  exists m, m'. repeat split; try assumption.
  rewrite Hm, Hm'. unfold spec_mean_iu.
  apply Qmult_comp; [|reflexivity].
  apply Qsum_map_ext. intros i. apply spec_IoU_flip.
Qed.

Lemma calculate_mean_iu_symmetric_witness :
  exists m m',
    calculate_mean_iu [[0; 1; 1; 2]%Z] [[0; 0; 1; 1]%Z] 3 = Ok m
    /\ calculate_mean_iu [[0; 0; 1; 1]%Z] [[0; 1; 1; 2]%Z] 3 = Ok m'
    /\ m == m'.
Proof.
  apply calculate_mean_iu_symmetric.
  - repeat constructor.
  - discriminate.
Defined.

Lemma count_positions_diag (f g : Z -> Z -> bool) :
  (forall x, f x x = g x x) ->
  forall a, count_positions f a a = count_positions g a a.
Proof.
  intros Hfg. induction a as [|x a IH]; [reflexivity|].
  rewrite !count_positions_cons, IH, Hfg. reflexivity.
Qed.

Lemma spec_fold_diag (f g : Z -> Z -> bool) :
  (forall x, f x x = g x x) ->
  forall X a, spec_fold f (combine X X) a = spec_fold g (combine X X) a.
Proof.
  intros Hfg. unfold spec_fold. induction X as [|x X IH]; intros a;
    [reflexivity|].
  cbn [combine fold_left fst snd].
  rewrite (count_positions_diag f g Hfg). apply IH.
Qed.

Lemma same_shape_diag (X : list ndarray) : Forall same_shape (combine X X).
Proof.
  induction X as [|x X IH]; cbn [combine]; constructor;
    [reflexivity | assumption].
Qed.

Lemma spec_IoU_diag (X : list ndarray) (i : Z) : spec_IoU (combine X X) i == 1.
Proof.
  destruct (spec_IoU_denominator (combine X X) i) as [Hn _].
  unfold spec_IoU, spec_accumulate in *. cbv zeta in *.
  rewrite (spec_fold_diag (truth_eq i) (both_eq i)),
    (spec_fold_diag (pred_eq i) (both_eq i)).
  - set (n := spec_fold (both_eq i) (combine X X) epsilon) in *.
    clearbody n. field. lraQ.
  - intros x. unfold pred_eq, both_eq. symmetry. apply Bool.andb_diag.
  - intros x. unfold truth_eq, both_eq. symmetry. apply Bool.andb_diag.
Qed.

(** X5: a prediction equal to the ground truth scores a mean IoU of one,
    whatever the number of classes and whether or not each class occurs. *)
Theorem calculate_mean_iu_perfect (maps : list ndarray) (num_classes : Z) :
  (1 <= num_classes)%Z ->
  exists m, calculate_mean_iu maps maps num_classes = Ok m /\ m == 1.
Proof.
  intros Hn.
  destruct (calculate_mean_iu_spec maps maps num_classes
              (same_shape_diag maps)) as [m [E Hm]]; [lia|].
  exists m. split; [assumption|]. rewrite Hm. unfold spec_mean_iu.
  rewrite (Qsum_ones _ _ (fun i _ => spec_IoU_diag maps i)).
  rewrite range_length, Z2Nat.id by lia.
  apply Qdiv_self. lia.
Qed.

Lemma calculate_mean_iu_perfect_witness :
  exists m, calculate_mean_iu [[0; 2; 2]%Z; [0]%Z] [[0; 2; 2]%Z; [0]%Z] 4 = Ok m
            /\ m == 1.
Proof.
  apply calculate_mean_iu_perfect. lia.
Defined.

End MeanIU_more.

(** ** [_fast_hist] and [scores]: what is counted, and when *)

Section Scorer_more.
Import Np Scorer Pixels.
Local Open Scope Z_scope.
Local Open Scope py_scope.

Lemma zsum_map_add {A : Type} (f g : A -> Z) (l : list A) :
  zsum (map (fun k => f k + g k) l) = zsum (map f l) + zsum (map g l).
Proof. induction l as [|x l IH]; cbn [map zsum]; lia. Qed.

Lemma amax_ge (xs : list Z) (x : Z) : In x xs -> x <= amax xs.
Proof.
  unfold amax. induction xs as [|y xs IH]; intros Hin; [destruct Hin|].
  cbn [fold_right]. destruct Hin as [->|Hin]; [lia | specialize (IH Hin); lia].
Qed.

Lemma existsb_neg_false_nonneg (xs : list Z) :
  existsb (fun x => Z.ltb x 0) xs = false -> Forall (fun x => 0 <= x) xs.
Proof.
  induction xs as [|x xs IH]; intros H; constructor;
    cbn [existsb] in H; apply Bool.orb_false_iff in H as [Hx Hr].
  - apply Z.ltb_ge in Hx. assumption.
  - apply IH. assumption.
Qed.

Lemma zsum_bincount (xs : list Z) (L : Z) :
  Forall (fun x => 0 <= x < L) xs ->
  zsum (map (count_eq xs) (range L)) = Z.of_nat (length xs).
Proof.
  induction 1 as [|x xs Hx _ IH].
  - cbn [length]. induction (range L) as [|k l IHl]; [reflexivity|].
    cbn [map zsum]. rewrite IHl. reflexivity.
  - rewrite (map_ext _ (fun k => (if Z.eqb k x then 1 else 0) + count_eq xs k))
      by (intros k; rewrite count_eq_cons, Z.eqb_sym; reflexivity).
    rewrite zsum_map_add, IH.
    rewrite (zsum_indicator (fun _ => 1) x (range L));
      [|apply range_NoDup | apply range_In; assumption].
    cbn [length]. lia.
Qed.

Lemma select_length (A : Type) (a : list A) (m : list bool) :
  length a = length m -> Z.of_nat (length (select a m)) = sum_bool m.
Proof.
  revert m; induction a as [|x a IH]; intros [|b m] H; simpl in H;
    try discriminate; [reflexivity|].
  cbn [select sum_bool]. destruct b; cbn [length];
    rewrite <- (IH m) by lia; lia.
Qed.

Lemma bincount_ok (xs : list Z) (minlength : Z) (flat : list Z) :
  bincount xs minlength = Ok flat ->
  Forall (fun x => 0 <= x) xs
  /\ flat = map (count_eq xs) (range (Z.max minlength (amax xs + 1))).
Proof.
  unfold bincount. destruct (existsb _ xs) eqn:E; [discriminate|].
  intros H; injection H as <-. split; [|reflexivity].
  apply existsb_neg_false_nonneg. assumption.
Qed.

(** The three outcomes of [_fast_hist] in terms of its inputs. *)
Lemma fast_hist_cases (lt lp : ndarray) (n : Z) :
  _fast_hist lt lp n
  = if (negb (Nat.eqb (length lt) 0)
        && negb (Nat.eqb (length lp) (length lt)))%bool
    then Raise IndexError
    else
      flat <- bincount (pixel_indices lt lp n) (n * n) ;;
      reshape flat n.
Proof.
  unfold _fast_hist, pixel_indices. cbv zeta.
  rewrite mask_index_same
    by (unfold valid_mask; apply length_map).
  cbn [bind]. unfold mask_index, valid_mask. rewrite !length_map.
  destruct (Nat.eqb (length lt) 0); destruct (Nat.eqb (length lp) (length lt));
    reflexivity.
Qed.

(** The inputs on which both indexings of [_fast_hist] succeed. *)
Lemma fast_hist_indexable (lt lp : ndarray) :
  lt = [] \/ length lt = length lp ->
  (negb (Nat.eqb (length lt) 0)
   && negb (Nat.eqb (length lp) (length lt)))%bool = false.
Proof.
  intros [-> | Hl]; [reflexivity|].
  rewrite Hl, Nat.eqb_refl. apply Bool.andb_false_r.
Qed.

Lemma zip_with_length_min {A B C : Type} (f : A -> B -> C) a b :
  length (zip_with f a b) = Nat.min (length a) (length b).
Proof.
  revert b; induction a as [|x a IH]; intros [|y b]; cbn [zip_with length];
    try reflexivity.
  rewrite IH. reflexivity.
Qed.

Lemma select_same_length {A B : Type} (a : list A) (b : list B) (m : list bool) :
  length a = length b -> length (select a m) = length (select b m).
Proof.
  revert b m; induction a as [|x a IH]; intros [|y b] m H; simpl in H;
    try discriminate; [reflexivity|].
  destruct m as [|[] m]; cbn [select length]; try reflexivity;
    rewrite (IH b m) by lia; reflexivity.
Qed.

Lemma pixel_indices_length (lt lp : ndarray) (n : Z) :
  lt = [] \/ length lt = length lp ->
  Z.of_nat (length (pixel_indices lt lp n)) = sum_bool (valid_mask lt n).
Proof.
  intros [-> | Hl]; [reflexivity|]. unfold pixel_indices. cbv zeta.
  rewrite zip_with_length_min,
    <- (select_same_length lt lp (valid_mask lt n) Hl), Nat.min_id.
  apply select_length. unfold valid_mask. rewrite length_map. reflexivity.
Qed.

(** X6: whenever [_fast_hist] returns, the entries of the histogram add up
    to the number of pixels whose true label lies in [0, n_class): every
    such pixel is counted once, every other pixel (the ignore label -1, for
    one) not at all. *)
Theorem fast_hist_total (label_true label_pred : ndarray) (n_class : Z)
  (hist : list Z) :
  _fast_hist label_true label_pred n_class = Ok hist ->
  zsum hist = sum_bool (valid_mask label_true n_class).
Proof.
  rewrite fast_hist_cases.
  assert (Hl : label_true = [] \/ length label_true = length label_pred
               \/ (negb (Nat.eqb (length label_true) 0)
                   && negb (Nat.eqb (length label_pred) (length label_true)))%bool
                  = true).
  { destruct label_true as [|t lt]; [left; reflexivity|]. right.
    destruct (Nat.eqb_spec (length label_pred) (length (t :: lt))) as [E|E];
      [left; congruence | right; reflexivity]. }
  destruct Hl as [Hl | [Hl | Hl]]; [| |rewrite Hl; discriminate];
    (rewrite fast_hist_indexable by tauto;
     destruct (bincount _ _) as [flat|] eqn:Eb; cbn [bind]; [|discriminate];
     intros Hr; apply reshape_ok in Hr as [-> [Hn Hlen]];
     apply bincount_ok in Eb as [Hpos ->];
     rewrite <- pixel_indices_length with (lp := label_pred) by tauto;
     apply zsum_bincount; apply Forall_forall; intros x Hx;
     rewrite Forall_forall in Hpos; specialize (Hpos x Hx);
     pose proof (amax_ge _ x Hx); lia).
Qed.

Lemma fast_hist_total_witness :
  zsum [1; 0; 1; 1] = sum_bool (valid_mask [0; -1; 1; 1; 7] 2).
Proof.
  apply (fast_hist_total [0; -1; 1; 1; 7] [0; 0; 0; 1; 1] 2).
  reflexivity.
Defined.

Lemma fast_hist_ok_indexable (lt lp : ndarray) (n : Z) :
  lt = [] \/ length lt = length lp -> 0 <= n ->
  Forall (fun x => 0 <= x < n * n) (pixel_indices lt lp n) ->
  _fast_hist lt lp n
  = Ok (map (count_eq (pixel_indices lt lp n)) (range (n * n))).
Proof.
  intros Hl Hn Hb. rewrite fast_hist_cases, fast_hist_indexable by assumption.
  unfold bincount. rewrite (existsb_neg_false (n * n)) by assumption.
  pose proof (amax_bound (n * n) _ ltac:(nia) Hb).
  rewrite Z.max_l by lia. cbn [bind]. unfold reshape.
  rewrite length_map, range_length.
  destruct (Z.leb_spec 0 n); [|lia].
  rewrite Z2Nat.id, Z.eqb_refl by nia. reflexivity.
Qed.

Lemma fast_hist_ok (lt lp : ndarray) (n : Z) :
  length lt = length lp -> 0 <= n ->
  Forall (fun x => 0 <= x < n * n) (pixel_indices lt lp n) ->
  _fast_hist lt lp n
  = Ok (map (count_eq (pixel_indices lt lp n)) (range (n * n))).
Proof.
  intros Hl. apply fast_hist_ok_indexable. right. exact Hl.
Qed.

(** X7: the outcomes of [_fast_hist] on flattened maps, as [scores] passes
    them: IndexError when the true-label map
    is not empty and the two maps differ in size (an empty true-label map
    gives an empty mask, which indexes a prediction map of any size);
    otherwise a histogram exactly when the class count is not negative and
    every kept pixel has its linear index [n_class * true + pred] within
    [0, n_class^2); ValueError in the remaining cases (a negative index, an
    index past the last bin, a negative class count). *)
Theorem fast_hist_outcomes (label_true label_pred : ndarray) (n_class : Z) :
  (label_true <> [] -> length label_true <> length label_pred ->
   _fast_hist label_true label_pred n_class = Raise IndexError)
  /\ (label_true = [] \/ length label_true = length label_pred ->
      (0 <= n_class
       /\ Forall (fun x => 0 <= x < n_class * n_class)
                 (pixel_indices label_true label_pred n_class)) ->
      _fast_hist label_true label_pred n_class
      = Ok (map (count_eq (pixel_indices label_true label_pred n_class))
                (range (n_class * n_class))))
  /\ (label_true = [] \/ length label_true = length label_pred ->
      ~ (0 <= n_class
         /\ Forall (fun x => 0 <= x < n_class * n_class)
                   (pixel_indices label_true label_pred n_class)) ->
      _fast_hist label_true label_pred n_class = Raise ValueError).
Proof.
  split; [|split].
  - intros Hne Hl. rewrite fast_hist_cases.
    destruct label_true as [|t lt]; [congruence|].
    destruct (Nat.eqb_spec (length label_pred) (length (t :: lt)));
      [congruence | reflexivity].
  - intros Hl [Hn Hb]. apply fast_hist_ok_indexable; assumption.
  - intros Hl Hnot. rewrite fast_hist_cases, fast_hist_indexable by assumption.
    destruct (bincount _ _) as [flat|] eqn:Eb; cbn [bind].
    + destruct (reshape flat n_class) as [h|e] eqn:Er.
      * exfalso. apply Hnot.
        apply reshape_ok in Er as [-> [Hn Hlen]].
        apply bincount_ok in Eb as [Hpos ->].
        split; [assumption|].
        rewrite length_map, range_length in Hlen.
        apply Forall_forall. intros x Hx.
        rewrite Forall_forall in Hpos. specialize (Hpos x Hx).
        pose proof (amax_ge _ x Hx). nia.
      * unfold reshape in Er.
        destruct (_ && _)%bool; [discriminate | congruence].
    + unfold bincount in Eb.
      destruct (existsb _ _); [congruence | discriminate].
Qed.

Lemma fast_hist_outcomes_witness :
  _fast_hist [0; 1] [0] 2 = Raise IndexError
  /\ _fast_hist [0; 1] [0; 1] 2
     = Ok (map (count_eq (pixel_indices [0; 1] [0; 1] 2)) (range (2 * 2)))
  /\ _fast_hist [] [0; 1] 2
     = Ok (map (count_eq (pixel_indices [] [0; 1] 2)) (range (2 * 2)))
  /\ _fast_hist [0; 1] [0; 2] 2 = Raise ValueError.
Proof.
  split; [|split; [|split]].
  - apply (fast_hist_outcomes [0; 1] [0] 2); [discriminate | simpl; lia].
  - apply (fast_hist_outcomes [0; 1] [0; 1] 2); [right; reflexivity|].
    split; [lia|]. repeat apply Forall_cons; try apply Forall_nil; lia.
  - apply (fast_hist_outcomes [] [0; 1] 2); [left; reflexivity|].
    split; [lia | apply Forall_nil].
  - apply (fast_hist_outcomes [0; 1] [0; 2] 2); [right; reflexivity|].
    intros [_ H]. inversion H as [|? ? _ H1]; subst.
    inversion H1 as [|? ? H2 _]; subst. lia.
Defined.

Lemma valid_mask_cons (x : Z) (lt : ndarray) (n : Z) :
  valid_mask (x :: lt) n = (Z.leb 0 x && Z.ltb x n)%bool :: valid_mask lt n.
Proof. reflexivity. Qed.

Lemma pixel_indices_cons (t p : Z) (lt lp : ndarray) (n : Z) :
  pixel_indices (t :: lt) (p :: lp) n
  = if (Z.leb 0 t && Z.ltb t n)%bool
    then (n * t + p) :: pixel_indices lt lp n
    else pixel_indices lt lp n.
Proof.
  unfold pixel_indices. cbv zeta. rewrite valid_mask_cons. cbn [select].
  destruct (Z.leb 0 t && Z.ltb t n)%bool; reflexivity.
Qed.

Lemma pixel_indices_in_range (lt lp : ndarray) (n : Z) :
  Forall (fun tp => 0 <= fst tp < n -> 0 <= snd tp < n) (combine lt lp) ->
  Forall (fun x => 0 <= x < n * n) (pixel_indices lt lp n).
Proof.
  revert lp; induction lt as [|t lt IH]; intros [|p lp] H;
    try (unfold pixel_indices; cbv zeta;
         destruct (valid_mask _ n); constructor).
  - unfold pixel_indices. cbv zeta. destruct (select _ _); constructor.
  - rewrite pixel_indices_cons. cbn [combine] in H.
    inversion H as [|? ? Hh Ht]; subst. cbn [fst snd] in Hh.
    destruct (Z.leb_spec 0 t); destruct (Z.ltb_spec t n); cbn [andb];
      try (apply IH; assumption).
    constructor; [|apply IH; assumption].
    specialize (Hh ltac:(lia)). nia.
Qed.

Lemma count_eq_pixel_indices (lt lp : ndarray) (n i j : Z) :
  Forall (fun tp => 0 <= fst tp < n -> 0 <= snd tp < n) (combine lt lp) ->
  length lt = length lp ->
  0 <= i < n -> 0 <= j < n ->
  count_eq (pixel_indices lt lp n) (n * i + j)
  = MeanIU.count_positions (pair_is i j) lt lp.
Proof.
  intros H Hl Hi Hj. revert lp H Hl.
  induction lt as [|t lt IH]; intros [|p lp] H Hl; simpl in Hl;
    try discriminate; [reflexivity|].
  rewrite pixel_indices_cons, count_positions_cons.
  cbn [combine] in H. inversion H as [|? ? Hh Ht]; subst. cbn [fst snd] in Hh.
  unfold pair_is at 1.
  destruct (Z.leb_spec 0 t); destruct (Z.ltb_spec t n); cbn [andb].
  - specialize (Hh ltac:(lia)).
    rewrite count_eq_cons, (IH lp) by (assumption || lia).
    f_equal.
    destruct (Z.eqb_spec (n * t + p) (n * i + j)) as [E|E].
    + assert (t = i) by (destruct (Z.lt_trichotomy t i) as [|[|]]; nia).
      subst t. assert (p = j) by lia. subst p. rewrite !Z.eqb_refl. reflexivity.
    + destruct (Z.eqb_spec t i) as [->|]; [|reflexivity].
      destruct (Z.eqb_spec p j) as [->|]; [contradiction | reflexivity].
  - rewrite (IH lp) by (assumption || lia).
    destruct (Z.eqb_spec t i); [lia | reflexivity].
  - rewrite (IH lp) by (assumption || lia).
    destruct (Z.eqb_spec t i); [lia | reflexivity].
  - rewrite (IH lp) by (assumption || lia).
    destruct (Z.eqb_spec t i); [lia | reflexivity].
Qed.

(** X8: when the two maps have the same size and every pixel with a true
    label in [0, n_class) has its prediction in [0, n_class) too, the
    histogram is returned and its entry (i, j) is the number of pixels of
    true class i predicted as class j. *)
Theorem fast_hist_counts_pairs (label_true label_pred : ndarray) (n_class : Z) :
  length label_true = length label_pred ->
  0 <= n_class ->
  Forall (fun tp => 0 <= fst tp < n_class -> 0 <= snd tp < n_class)
         (combine label_true label_pred) ->
  exists hist,
    _fast_hist label_true label_pred n_class = Ok hist
    /\ forall i j, 0 <= i < n_class -> 0 <= j < n_class ->
         entry hist n_class i j
         = MeanIU.count_positions (pair_is i j) label_true label_pred.
Proof.
  intros Hl Hn Hv.
  pose proof (pixel_indices_in_range _ _ _ Hv) as Hb.
  eexists. split; [apply fast_hist_ok; assumption|].
  intros i j Hi Hj. unfold entry. rewrite nth_range_map by nia.
  apply count_eq_pixel_indices; assumption.
Qed.

Lemma fast_hist_counts_pairs_witness :
  exists hist,
    _fast_hist [0; 1; -1; 1] [0; 0; 9; 1] 2 = Ok hist
    /\ forall i j, 0 <= i < 2 -> 0 <= j < 2 ->
         entry hist 2 i j
         = MeanIU.count_positions (pair_is i j) [0; 1; -1; 1] [0; 0; 9; 1].
Proof.
  apply fast_hist_counts_pairs.
  - reflexivity.
  - lia.
  - repeat apply Forall_cons; try apply Forall_nil; simpl; lia.
Defined.

Lemma valid_mask_select (lt : ndarray) (n : Z) :
  valid_mask (select lt (valid_mask lt n)) n
  = map (fun _ => true) (select lt (valid_mask lt n)).
Proof.
  induction lt as [|t lt IH]; [reflexivity|].
  rewrite valid_mask_cons. cbn [select].
  destruct (Z.leb 0 t && Z.ltb t n)%bool eqn:E; [|assumption].
  rewrite valid_mask_cons, E. cbn [map]. rewrite IH. reflexivity.
Qed.

Lemma select_all_true {A B : Type} (a : list A) (b : list B) :
  length a = length b -> select a (map (fun _ => true) b) = a.
Proof.
  revert b; induction a as [|x a IH]; intros [|y b] H; simpl in H;
    try discriminate; [reflexivity|].
  cbn [map select]. rewrite IH by lia. reflexivity.
Qed.

Lemma pixel_indices_select (lt lp : ndarray) (n : Z) :
  length lt = length lp ->
  pixel_indices (select lt (valid_mask lt n)) (select lp (valid_mask lt n)) n
  = pixel_indices lt lp n.
Proof.
  intros Hl. unfold pixel_indices. cbv zeta. rewrite valid_mask_select.
  rewrite !select_all_true; [reflexivity | | reflexivity].
  symmetry. apply select_same_length. assumption.
Qed.

(** X9: pixels whose true label lies outside [0, n_class), such as the
    ignore label -1, have no influence: removing them from both maps
    leaves the outcome of [_fast_hist] unchanged, whatever was predicted
    there. *)
Theorem fast_hist_ignores_invalid (label_true label_pred : ndarray) (n_class : Z) :
  length label_true = length label_pred ->
  _fast_hist (select label_true (valid_mask label_true n_class))
             (select label_pred (valid_mask label_true n_class)) n_class
  = _fast_hist label_true label_pred n_class.
Proof.
  intros Hl. rewrite !fast_hist_cases.
  rewrite pixel_indices_select by assumption.
  rewrite !fast_hist_indexable; [reflexivity | right; assumption |].
  right. apply select_same_length. assumption.
Qed.

Lemma fast_hist_ignores_invalid_witness :
  _fast_hist (select [0; -1; 1; 5] (valid_mask [0; -1; 1; 5] 2))
             (select [1; 7; 1; -3] (valid_mask [0; -1; 1; 5] 2)) 2
  = _fast_hist [0; -1; 1; 5] [1; 7; 1; -3] 2.
Proof.
  apply fast_hist_ignores_invalid. reflexivity.
Defined.

(** X10: predictions are not validated: a pixel of true class i predicted
    as n_class + j lands in the same bin as a pixel of true class i + 1
    predicted as j, so an out-of-range prediction is silently counted in
    the next row instead of being rejected. *)
Theorem fast_hist_wraps_prediction
  (label_true label_pred : ndarray) (n_class i j : Z) :
  0 <= i -> i + 1 < n_class ->
  _fast_hist (i :: label_true) (n_class + j :: label_pred) n_class
  = _fast_hist (i + 1 :: label_true) (j :: label_pred) n_class.
Proof.
  intros Hi Hn. rewrite !fast_hist_cases. cbn [length].
  rewrite !pixel_indices_cons.
  destruct (Z.leb_spec 0 i); [|lia]. destruct (Z.ltb_spec i n_class); [|lia].
  destruct (Z.leb_spec 0 (i + 1)); [|lia].
  destruct (Z.ltb_spec (i + 1) n_class); [|lia]. cbn [andb].
  replace (n_class * (i + 1) + j) with (n_class * i + (n_class + j)) by ring.
  reflexivity.
Qed.

Lemma fast_hist_wraps_prediction_witness :
  _fast_hist [0; 1] [2 + 1; 0] 2 = _fast_hist [0 + 1; 1] [1; 0] 2.
Proof.
  apply fast_hist_wraps_prediction; lia.
Defined.

(** *** [scores] on an empty histogram *)

Lemma zsum_zero_all (l : list Z) :
  Forall (fun x => 0 <= x) l -> zsum l = 0 -> Forall (fun x => x = 0) l.
Proof.
  induction 1 as [|x l Hx Hl IH]; cbn [zsum]; intros Hz; constructor.
  - pose proof (zsum_nonneg l Hl). lia.
  - apply IH. pose proof (zsum_nonneg l Hl). lia.
Qed.

Lemma entry_all_zero (hist : list Z) (n i j : Z) :
  Forall (fun x => x = 0) hist -> entry hist n i j = 0.
Proof.
  intros H. unfold entry.
  destruct (nth_in_or_default (Z.to_nat (n * i + j)) hist 0) as [Hin|E];
    [|exact E].
  rewrite Forall_forall in H. apply H. exact Hin.
Qed.

Lemma zsum_map_zero {A : Type} (f : A -> Z) (l : list A) :
  (forall x, f x = 0) -> zsum (map f l) = 0.
Proof.
  intros H. induction l as [|x l IH]; cbn [map zsum]; [reflexivity|].
  rewrite H, IH. reflexivity.
Qed.

Lemma nanmean_all_nan {A : Type} (l : list A) :
  nanmean (map (fun _ => NaN) l) = NaN.
Proof.
  unfold nanmean.
  replace (filter (fun a => negb (is_nan a)) (map (fun _ : A => NaN) l))
    with (@nil npfloat); [reflexivity|].
  induction l as [|x l IH]; [reflexivity | exact IH].
Qed.

Lemma select_all_false {A B : Type} (a : list A) (b : list B) :
  select a (map (fun _ => false) b) = [].
Proof.
  revert b; induction a as [|x a IH]; intros [|y b]; try reflexivity.
  cbn [map select]. apply IH.
Qed.

(** X11: when the accumulated histogram is empty (no pair of maps, or no
    pixel with a true label in [0, n_class)), [scores] raises nothing: the
    overall accuracy, the mean accuracy, the mean IoU and every per-class
    IoU are NaN, and the frequency-weighted accuracy is 0. *)
Theorem scores_without_valid_pixel
  (label_trues label_preds : list ndarray) (n_class : Z) (hist : list Z) :
  histogram label_trues label_preds n_class = Ok hist ->
  zsum hist = 0 ->
  exists r,
    scores label_trues label_preds n_class = Ok r
    /\ overall_acc r = NaN /\ mean_acc r = NaN /\ mean_iou r = NaN
    /\ freqw_acc r = Fin 0
    /\ Forall (fun kv => snd kv = NaN) (cls_iu r).
Proof.
  intros Hh Hz. pose proof (histogram_wf _ _ _ _ Hh) as [_ [_ Hpos]].
  pose proof (zsum_zero_all hist Hpos Hz) as H0.
  assert (Hd : forall i, diag hist n_class i = 0)
    by (intros i; apply entry_all_zero; assumption).
  assert (Hr : forall i, row_sum hist n_class i = 0).
  { intros i. apply zsum_map_zero. intros j. apply entry_all_zero; assumption. }
  assert (Hc : forall i, col_sum hist n_class i = 0).
  { intros i. apply zsum_map_zero. intros j. apply entry_all_zero; assumption. }
  assert (Hiu : iu_arr hist n_class = map (fun _ => NaN) (range n_class)).
  { unfold iu_arr. apply map_ext. intros i. rewrite Hd, Hr, Hc. reflexivity. }
  assert (Hacc : acc_cls_arr hist n_class = map (fun _ => NaN) (range n_class)).
  { unfold acc_cls_arr. apply map_ext. intros i. rewrite Hd, Hr. reflexivity. }
  assert (Hfreq : freq_arr hist n_class = map (fun _ => NaN) (range n_class)).
  { unfold freq_arr. apply map_ext. intros i. rewrite Hr, Hz. reflexivity. }
  exists (metrics hist n_class).
  split; [unfold scores; rewrite Hh; reflexivity|].
  cbn [metrics overall_acc mean_acc mean_iou freqw_acc cls_iu].
  rewrite Hiu, Hacc, Hfreq, !nanmean_all_nan, Hz.
  rewrite (zsum_map_zero (diag hist n_class)) by assumption.
  rewrite map_map. cbn [fpos]. rewrite !select_all_false.
  repeat split.
  apply Forall_forall. intros [k v] Hin. apply in_combine_r in Hin.
  apply in_map_iff in Hin as [? [<- _]]. reflexivity.
Qed.

Lemma scores_without_valid_pixel_witness :
  exists r,
    scores [[-1; 4]; [-1]] [[0; 1]; [0]] 3 = Ok r
    /\ overall_acc r = NaN /\ mean_acc r = NaN /\ mean_iou r = NaN
    /\ freqw_acc r = Fin 0
    /\ Forall (fun kv => snd kv = NaN) (cls_iu r).
Proof.
  apply (scores_without_valid_pixel _ _ _ (repeat 0 9)); reflexivity.
Defined.

(** *** Order of the image pairs *)

Lemma zip_with_add_swap (h a b : list Z) :
  zip_with Z.add (zip_with Z.add h a) b = zip_with Z.add (zip_with Z.add h b) a.
Proof.
  revert a b; induction h as [|x h IH]; intros [|y a] [|z b];
    cbn [zip_with]; try reflexivity.
  rewrite IH. f_equal. lia.
Qed.

Lemma accumulate_perm (n : Z) (pairs pairs' : list (ndarray * ndarray)) :
  Permutation pairs pairs' ->
  forall h0 h, accumulate pairs n h0 = Ok h -> accumulate pairs' n h0 = Ok h.
Proof.
  induction 1 as [|[lt lp] l l' _ IH|[lt lp] [lt' lp'] l|l l' l'' _ IH1 _ IH2];
    intros h0 h; cbn [accumulate].
  - exact (fun H => H).
  - destruct (_fast_hist lt lp n); cbn [bind]; [apply IH | discriminate].
  - destruct (_fast_hist lt' lp' n) as [h1|]; cbn [bind]; [|discriminate].
    destruct (_fast_hist lt lp n) as [h2|]; cbn [bind]; [|discriminate].
    rewrite zip_with_add_swap. exact (fun H => H).
  - intros H. apply IH2, IH1, H.
Qed.

(** X12: the scores do not depend on the order in which the image pairs
    are given: a successful evaluation returns the same result on any
    permutation of the pairs. *)
Theorem scores_order_independent
  (label_trues label_preds label_trues' label_preds' : list ndarray)
  (n_class : Z) (r : summary) :
  Permutation (combine label_trues label_preds)
              (combine label_trues' label_preds') ->
  scores label_trues label_preds n_class = Ok r ->
  scores label_trues' label_preds' n_class = Ok r.
Proof.
  intros Hp. unfold scores, histogram.
  destruct (zeros n_class) as [h0|]; cbn [bind]; [|discriminate].
  destruct (accumulate (combine label_trues label_preds) n_class h0)
    as [h|] eqn:E; cbn [bind]; [|discriminate].
  rewrite (accumulate_perm n_class _ _ Hp h0 h E). exact (fun H => H).
Qed.

Lemma scores_order_independent_witness :
  scores [[1; 1]; [0; 1]] [[1; 0]; [0; 0]] 2
  = Ok (metrics [1; 0; 2; 1] 2).
Proof.
  apply (scores_order_independent [[0; 1]; [1; 1]] [[0; 0]; [1; 0]]).
  - apply perm_swap.
  - reflexivity.
Defined.

(** *** Ranges of the four summary metrics *)

Lemma Qdiv_unit (x y : Q) : (0 <= x)%Q -> (x <= y)%Q -> (0 < y)%Q ->
  (0 <= x / y)%Q /\ (x / y <= 1)%Q.
Proof.
  intros Hx Hxy Hy. split.
  - apply Qle_shift_div_l; [assumption | lraQ].
  - apply Qle_shift_div_r; [assumption | lraQ].
Qed.

Lemma Qdiv_antitone (x y z : Q) :
  (0 <= x)%Q -> (0 < y)%Q -> (y <= z)%Q -> (x / z <= x / y)%Q.
Proof.
  intros Hx Hy Hyz. assert (Hz : (0 < z)%Q) by lraQ.
  apply Qle_shift_div_r; [assumption|].
  assert (H0 : (0 <= x / y)%Q) by (apply Qle_shift_div_l; [assumption | lraQ]).
  assert (E : (x / y * y == x)%Q) by (field; lraQ).
  nraQ.
Qed.

Lemma Qsum_pointwise_le (f g : Z -> Q) (l : list Z) :
  (forall i, In i l -> (0 <= f i)%Q /\ (f i <= g i)%Q) ->
  (0 <= Qsum (map f l))%Q /\ (Qsum (map f l) <= Qsum (map g l))%Q.
Proof.
  induction l as [|i l IH]; intros H; cbn [map Qsum]; [split; lraQ|].
  destruct (H i (or_introl eq_refl)) as [H0 H1].
  destruct (IH (fun j Hj => H j (or_intror Hj))) as [I0 I1].
  split; lraQ.
Qed.

Lemma Qsum_filter_le (f : Z -> Q) (P : Z -> bool) (l : list Z) :
  (forall i, In i l -> (0 <= f i)%Q) ->
  (Qsum (map f (filter P l)) <= Qsum (map f l))%Q.
Proof.
  induction l as [|i l IH]; intros H; cbn [filter map Qsum]; [lraQ|].
  pose proof (H i (or_introl eq_refl)) as H0.
  specialize (IH (fun j Hj => H j (or_intror Hj))).
  destruct (P i); cbn [map Qsum]; lraQ.
Qed.

Lemma Qsum_filter_zero (f : Z -> Q) (P P' : Z -> bool) (l : list Z) :
  (forall i, In i l -> P' i = true -> P i = true) ->
  (forall i, In i l -> P i = true -> P' i = false -> (f i == 0)%Q) ->
  (Qsum (map f (filter P l)) == Qsum (map f (filter P' l)))%Q.
Proof.
  induction l as [|i l IH]; intros H1 H2; cbn [filter]; [reflexivity|].
  specialize (IH (fun j Hj => H1 j (or_intror Hj))
                 (fun j Hj => H2 j (or_intror Hj))).
  pose proof (H1 i (or_introl eq_refl)) as Hi1.
  pose proof (H2 i (or_introl eq_refl)) as Hi2.
  destruct (P i) eqn:EP; destruct (P' i) eqn:EP'; cbn [map Qsum].
  - rewrite IH. reflexivity.
  - rewrite IH, (Hi2 eq_refl eq_refl). ring.
  - specialize (Hi1 eq_refl). discriminate.
  - exact IH.
Qed.

Lemma Qsum_scaled_counts (d : Z -> Z) (T : Q) (l : list Z) :
  (Qsum (map (fun i => inject_Z (d i) / T) l)
   == inject_Z (zsum (map d l)) / T)%Q.
Proof.
  induction l as [|i l IH]; cbn [map Qsum zsum].
  - unfold Qdiv. rewrite Qmult_0_l. reflexivity.
  - rewrite IH, inject_Z_plus. unfold Qdiv. ring.
Qed.

Lemma Qsum_unit_terms (q : Z -> Q) (l : list Z) :
  (forall i, In i l -> (0 <= q i)%Q /\ (q i <= 1)%Q) ->
  (0 <= Qsum (map q l))%Q
  /\ (Qsum (map q l) <= inject_Z (Z.of_nat (length l)))%Q.
Proof.
  induction l as [|i l IH]; intros H; cbn [map Qsum length].
  - change (inject_Z (Z.of_nat 0)) with 0%Q. split; lraQ.
  - destruct (H i (or_introl eq_refl)) as [H0 H1].
    destruct (IH (fun j Hj => H j (or_intror Hj))) as [I0 I1].
    rewrite Nat2Z.inj_succ, <- Z.add_1_r, inject_Z_plus.
    change (inject_Z 1) with 1%Q.
    set (k := inject_Z (Z.of_nat (length l))) in *. clearbody k.
    set (s := Qsum (map q l)) in *. clearbody s.
    split; lraQ.
Qed.

Lemma zsum_map_le {A : Type} (f g : A -> Z) (l : list A) :
  (forall i, In i l -> f i <= g i) -> zsum (map f l) <= zsum (map g l).
Proof.
  induction l as [|i l IH]; intros H; cbn [map zsum]; [lia|].
  pose proof (H i (or_introl eq_refl)).
  specialize (IH (fun j Hj => H j (or_intror Hj))). lia.
Qed.

Lemma filter_length_le_in {A : Type} (f g : A -> bool) (l : list A) :
  (forall x, In x l -> f x = true -> g x = true) ->
  (length (filter f l) <= length (filter g l))%nat.
Proof.
  induction l as [|x l IH]; intros H; cbn [filter]; [lia|].
  specialize (IH (fun y Hy => H y (or_intror Hy))).
  pose proof (H x (or_introl eq_refl)) as Hx.
  destruct (f x); [rewrite (Hx eq_refl)|destruct (g x)]; cbn [length]; lia.
Qed.

Section Summary_bounds.

Variables (hist : list Z) (n : Z).
Hypothesis Hwf : wf_hist hist n.
Hypothesis HT : 0 < zsum hist.

Lemma class_counts_Q (i : Z) :
  In i (range n) ->
  (0 <= inject_Z (diag hist n i))%Q
  /\ (inject_Z (diag hist n i) <= inject_Z (row_sum hist n i))%Q
  /\ (inject_Z (row_sum hist n i)
      <= inject_Z (row_sum hist n i + col_sum hist n i - diag hist n i))%Q
  /\ (inject_Z (row_sum hist n i) <= inject_Z (zsum hist))%Q.
Proof.
  intros Hi. apply range_In in Hi. destruct Hwf as [Hn [_ Hp]].
  pose proof (diag_le_row hist n i Hp Hi).
  pose proof (diag_le_col hist n i Hp Hi).
  pose proof (row_le_total hist n i Hp Hn (proj1 Hi)).
  repeat split; unfold Qle; cbn [Qnum Qden inject_Z]; lia.
Qed.

Lemma supported_In (i : Z) :
  In i (supported hist n) <-> In i (range n) /\ 0 < row_sum hist n i.
Proof.
  unfold supported. rewrite filter_In. destruct Hwf as [_ [_ Hp]].
  split; intros [Hi Hr]; split; try assumption.
  - apply range_In in Hi. pose proof (diag_le_row hist n i Hp Hi).
    destruct (Z.eqb_spec (row_sum hist n i) 0); [discriminate | lia].
  - destruct (Z.eqb_spec (row_sum hist n i) 0); [lia | reflexivity].
Qed.

Lemma touched_In (i : Z) :
  In i (touched hist n)
  <-> In i (range n)
      /\ 0 < row_sum hist n i + col_sum hist n i - diag hist n i.
Proof.
  unfold touched. rewrite filter_In. destruct Hwf as [_ [_ Hp]].
  split; intros [Hi Hr]; split; try assumption.
  - apply range_In in Hi. pose proof (union_bounds hist n i Hp Hi).
    destruct (Z.eqb_spec (row_sum hist n i + col_sum hist n i
                          - diag hist n i) 0); [discriminate | lia].
  - destruct (Z.eqb_spec (row_sum hist n i + col_sum hist n i
                          - diag hist n i) 0); [lia | reflexivity].
Qed.

Lemma supported_nonempty : supported hist n <> [].
Proof.
  intros E. rewrite (zsum_rows hist n Hwf) in HT.
  assert (H0 : zsum (map (row_sum hist n) (range n)) <= zsum (map (fun _ => 0) (range n))).
  { apply zsum_map_le. intros i Hi.
    destruct (Z_lt_le_dec 0 (row_sum hist n i)) as [Hpos|]; [|assumption].
    exfalso. assert (Hin : In i (supported hist n))
      by (apply supported_In; split; assumption).
    rewrite E in Hin. exact Hin. }
  rewrite (zsum_map_zero (fun _ : Z => 0)) in H0 by reflexivity. lia.
Qed.

Lemma class_acc_unit (i : Z) :
  In i (supported hist n) ->
  (0 <= class_acc hist n i)%Q /\ (class_acc hist n i <= 1)%Q.
Proof.
  intros Hi. apply supported_In in Hi as [Hi Hr].
  destruct (class_counts_Q i Hi) as [H0 [H1 _]].
  apply Qdiv_unit; try assumption. unfold Qlt; cbn [Qnum Qden inject_Z]; lia.
Qed.

Lemma class_iou_unit (i : Z) :
  In i (touched hist n) ->
  (0 <= class_iou hist n i)%Q /\ (class_iou hist n i <= 1)%Q.
Proof.
  intros Hi. apply touched_In in Hi as [Hi Hu].
  destruct (class_counts_Q i Hi) as [H0 [H1 [H2 _]]].
  apply Qdiv_unit; try assumption; [lraQ|].
  unfold Qlt; cbn [Qnum Qden inject_Z]; lia.
Qed.

Lemma supported_touched (i : Z) :
  In i (supported hist n) -> In i (touched hist n).
Proof.
  intros Hi. apply supported_In in Hi as [Hi Hr]. apply touched_In.
  split; [assumption|]. destruct Hwf as [_ [_ Hp]].
  pose proof (diag_le_col hist n i Hp (proj1 (range_In n i) Hi)). lia.
Qed.

Lemma class_iou_le_acc (i : Z) :
  In i (supported hist n) -> (class_iou hist n i <= class_acc hist n i)%Q.
Proof.
  intros Hi. apply supported_In in Hi as [Hi Hr].
  destruct (class_counts_Q i Hi) as [H0 [H1 [H2 _]]].
  apply Qdiv_antitone; try assumption.
  unfold Qlt; cbn [Qnum Qden inject_Z]; lia.
Qed.

Lemma fwavacc_term_le (i : Z) :
  In i (supported hist n) ->
  (0 <= class_freq hist n i * class_iou hist n i)%Q
  /\ (class_freq hist n i * class_iou hist n i
      <= inject_Z (diag hist n i) / inject_Z (zsum hist))%Q.
Proof.
  intros Hi. destruct (class_iou_unit i (supported_touched i Hi)) as [I0 I1].
  apply supported_In in Hi as [Hi Hr].
  destruct (class_counts_Q i Hi) as [H0 [H1 [H2 H3]]].
  assert (HTq : (0 < inject_Z (zsum hist))%Q)
    by (unfold Qlt; cbn [Qnum Qden inject_Z]; lia).
  assert (HRq : (0 < inject_Z (row_sum hist n i))%Q)
    by (unfold Qlt; cbn [Qnum Qden inject_Z]; lia).
  unfold class_freq, class_iou in *.
  set (D := inject_Z (diag hist n i)) in *.
  set (R := inject_Z (row_sum hist n i)) in *.
  set (U := inject_Z (row_sum hist n i + col_sum hist n i - diag hist n i)) in *.
  set (T := inject_Z (zsum hist)) in *. clearbody D R U T.
  assert (HU : (0 < U)%Q) by lraQ.
  assert (Hf : (0 <= R / T)%Q) by (apply Qle_shift_div_l; [assumption | lraQ]).
  assert (Hru : (0 <= R / U)%Q /\ (R / U <= 1)%Q)
    by (apply Qdiv_unit; assumption || lraQ).
  assert (Hdt : (0 <= D / T)%Q) by (apply Qle_shift_div_l; [assumption | lraQ]).
  assert (E : (R / T * (D / U) == D / T * (R / U))%Q) by (field; split; lraQ).
  split; [nraQ|]. rewrite E. nraQ.
Qed.

Lemma mean_over_nonempty (q : Z -> Q) (l : list Z) :
  l <> [] ->
  mean_over q l = Fin (Qsum (map q l) / inject_Z (Z.of_nat (length l))).
Proof. destruct l; [congruence | reflexivity]. Qed.

Lemma trace_le_total :
  0 <= zsum (map (diag hist n) (range n)) <= zsum hist.
Proof.
  destruct Hwf as [Hn [_ Hp]]. split.
  - apply zsum_map_nonneg. intros i. apply entry_nonneg. assumption.
  - rewrite (zsum_rows hist n Hwf). apply zsum_map_le.
    intros i Hi. apply diag_le_row; [assumption | apply range_In, Hi].
Qed.

Lemma fwavacc_le_overall :
  (0 <= spec_fwavacc hist n)%Q
  /\ (spec_fwavacc hist n
      <= inject_Z (zsum (map (diag hist n) (range n))) / inject_Z (zsum hist))%Q.
Proof.
  unfold spec_fwavacc.
  destruct (Qsum_pointwise_le
              (fun i => class_freq hist n i * class_iou hist n i)%Q
              (fun i => inject_Z (diag hist n i) / inject_Z (zsum hist))%Q
              (supported hist n) fwavacc_term_le) as [H0 H1].
  split; [assumption|].
  eapply Qle_trans; [exact H1|].
  rewrite <- Qsum_scaled_counts. unfold supported.
  apply Qsum_filter_le. intros i Hi.
  destruct (class_counts_Q i Hi) as [Hd _].
  apply Qle_shift_div_l; [unfold Qlt; cbn [Qnum Qden inject_Z]; lia | lraQ].
Qed.

Lemma mean_iou_le_mean_acc :
  let m := (Qsum (map (class_iou hist n) (touched hist n))
            / inject_Z (Z.of_nat (length (touched hist n))))%Q in
  let c := (Qsum (map (class_acc hist n) (supported hist n))
            / inject_Z (Z.of_nat (length (supported hist n))))%Q in
  (0 <= m)%Q /\ (m <= c)%Q /\ (c <= 1)%Q.
Proof.
  cbv zeta.
  pose proof supported_nonempty as Hne.
  assert (Hks : (1 <= length (supported hist n))%nat).
  { destruct (supported hist n); [congruence | cbn [length]; lia]. }
  assert (Hkt : (length (supported hist n) <= length (touched hist n))%nat).
  { unfold supported, touched. apply filter_length_le_in. intros i Hi Hr.
    assert (Hin : In i (supported hist n))
      by (unfold supported; apply filter_In; split; assumption).
    apply supported_touched in Hin. unfold touched in Hin.
    apply filter_In in Hin. tauto. }
  set (X := Qsum (map (class_iou hist n) (touched hist n))).
  set (Y := Qsum (map (class_acc hist n) (supported hist n))).
  set (kt := inject_Z (Z.of_nat (length (touched hist n)))).
  set (ks := inject_Z (Z.of_nat (length (supported hist n)))).
  assert (Hksq : (0 < ks)%Q) by (unfold ks, Qlt; cbn [Qnum Qden inject_Z]; lia).
  assert (Hktq : (ks <= kt)%Q) by (unfold ks, kt, Qle; cbn [Qnum Qden inject_Z]; lia).
  assert (HX0 : (0 <= X)%Q).
  { apply (Qsum_unit_terms (class_iou hist n) (touched hist n)).
    intros i Hi. apply class_iou_unit. assumption. }
  assert (HY : (0 <= Y)%Q /\ (Y <= ks)%Q).
  { apply (Qsum_unit_terms (class_acc hist n) (supported hist n)).
    intros i Hi. apply class_acc_unit. assumption. }
  assert (HXY : (X <= Y)%Q).
  { assert (E : (X == Qsum (map (class_iou hist n) (supported hist n)))%Q).
    { unfold X, touched, supported. apply Qsum_filter_zero.
      - intros i Hi Hs.
        assert (Hin : In i (supported hist n))
          by (unfold supported; apply filter_In; split; assumption).
        apply supported_touched in Hin. unfold touched in Hin.
        apply filter_In in Hin. tauto.
      - intros i Hi _ Hs.
        destruct (Z.eqb_spec (row_sum hist n i) 0) as [Hr0|]; [|discriminate].
        destruct Hwf as [_ [_ Hp]].
        pose proof (diag_le_row hist n i Hp (proj1 (range_In n i) Hi)).
        unfold class_iou. replace (diag hist n i) with 0 by lia.
        unfold Qdiv. apply Qmult_0_l. }
    rewrite E.
    apply (Qsum_pointwise_le (class_iou hist n) (class_acc hist n)).
    intros i Hi. split; [|apply class_iou_le_acc; assumption].
    apply class_iou_unit, supported_touched. assumption. }
  split; [|split].
  - apply Qle_shift_div_l; lraQ.
  - apply Qle_trans with (X / ks)%Q.
    + apply Qdiv_antitone; assumption.
    + unfold Qdiv. apply Qmult_le_compat_r; [assumption|].
      apply Qinv_le_0_compat. lraQ.
  - apply Qle_shift_div_r; lraQ.
Qed.

End Summary_bounds.

(** X13: on a histogram holding at least one pixel the four summary
    metrics are finite numbers ordered as
    0 <= frequency-weighted accuracy <= overall accuracy <= 1 and
    0 <= mean IoU <= mean accuracy <= 1. *)
Theorem scores_summary_ranges
  (label_trues label_preds : list ndarray) (n_class : Z) (hist : list Z) :
  histogram label_trues label_preds n_class = Ok hist ->
  0 < zsum hist ->
  exists r a w m c,
    scores label_trues label_preds n_class = Ok r
    /\ overall_acc r = Fin a /\ feq (freqw_acc r) (Fin w)
    /\ feq (mean_iou r) (Fin m) /\ feq (mean_acc r) (Fin c)
    /\ (0 <= w)%Q /\ (w <= a)%Q /\ (a <= 1)%Q
    /\ (0 <= m)%Q /\ (m <= c)%Q /\ (c <= 1)%Q.
Proof.
  intros Hh HT. pose proof (histogram_wf _ _ _ _ Hh) as Hwf.
  pose proof (trace_le_total hist n_class Hwf) as Htr.
  pose proof (fwavacc_le_overall hist n_class Hwf HT) as [Hw0 Hw1].
  pose proof (mean_iou_le_mean_acc hist n_class Hwf HT) as Hm. cbv zeta in Hm.
  pose proof (supported_nonempty hist n_class Hwf HT) as Hsup.
  assert (Htou : touched hist n_class <> []).
  { destruct (supported hist n_class) as [|i l] eqn:E; [congruence|].
    assert (Hin : In i (supported hist n_class)) by (rewrite E; left; reflexivity).
    apply (supported_touched hist n_class Hwf) in Hin.
    intros E'. rewrite E' in Hin. exact Hin. }
  exists (metrics hist n_class).
  eexists. exists (spec_fwavacc hist n_class). eexists. eexists.
  split; [unfold scores; rewrite Hh; reflexivity|].
  split.
  { cbn [metrics overall_acc]. rewrite fdiv_counts by lia.
    destruct (Z.eqb_spec (zsum hist) 0); [lia | reflexivity]. }
  split; [apply freqw_acc_spec; assumption|].
  split.
  { cbn [metrics mean_iou]. rewrite iu_arr_cases by assumption.
    eapply feq_trans; [apply (nanmean_map
      (fun i => row_sum hist n_class i + col_sum hist n_class i
                - diag hist n_class i))|].
    fold (touched hist n_class). rewrite mean_over_nonempty by assumption.
    cbn [feq]. reflexivity. }
  split.
  { cbn [metrics mean_acc]. rewrite acc_cls_arr_cases by assumption.
    eapply feq_trans; [apply nanmean_map|].
    fold (supported hist n_class). rewrite mean_over_nonempty by assumption.
    cbn [feq]. reflexivity. }
  split; [assumption|]. split; [assumption|].
  split.
  { apply Qdiv_unit; unfold Qle, Qlt; cbn [Qnum Qden inject_Z]; lia. }
  exact Hm.
Qed.

Lemma scores_summary_ranges_witness :
  exists r a w m c,
    scores [[0; 0; 1]; [2; 1]] [[0; 1; 1]; [2; 0]] 3 = Ok r
    /\ overall_acc r = Fin a /\ feq (freqw_acc r) (Fin w)
    /\ feq (mean_iou r) (Fin m) /\ feq (mean_acc r) (Fin c)
    /\ (0 <= w)%Q /\ (w <= a)%Q /\ (a <= 1)%Q
    /\ (0 <= m)%Q /\ (m <= c)%Q /\ (c <= 1)%Q.
Proof.
  apply (scores_summary_ranges _ _ _ [1; 1; 0; 1; 1; 0; 0; 0; 1]);
    reflexivity.
Defined.

End Scorer_more.

(** ** Focal loss: shape of the loss and of its gradient *)

Section Focal_more.
Import FocalLoss.
Local Open Scope R_scope.

Lemma one_minus_sigmoid (x : R) : 1 - sigmoid x = exp (- x) / (1 + exp (- x)).
Proof. unfold sigmoid. pose proof (exp_neg_pos x). field. lra. Qed.


Lemma log_terms_exact_aux (logits : R) :
  log_probs logits = ln (sigmoid logits)
  /\ log_1_probs logits = ln (1 - sigmoid logits).
Proof.
  pose proof (exp_neg_pos logits) as Hpos. split.
  - rewrite log_probs_closed. unfold sigmoid. rewrite ln_Rinv by assumption.
    reflexivity.
  - rewrite log_1_probs_closed, one_minus_sigmoid. unfold Rdiv.
    rewrite ln_mult, ln_exp, ln_Rinv;
      [ring | assumption | apply exp_pos | apply Rinv_0_lt_compat; assumption].
Qed.

(** X14: the branch-stable terms of forward are exactly the logarithms of
    the probabilities, for every logit: the softplus threshold of 50 is
    never reached on the branch that is selected, and each term is at most
    zero. *)
Theorem log_terms_exact (logits : R) :
  log_probs logits = ln (sigmoid logits)
  /\ log_1_probs logits = ln (1 - sigmoid logits)
  /\ log_probs logits <= 0 /\ log_1_probs logits <= 0.
Proof.
  destruct (log_terms_exact_aux logits) as [E1 E2].
  repeat split; try assumption.
  - apply log_probs_nonpos.
  - apply log_1_probs_nonpos.
Qed.

Lemma ce_of_nonpos (label alpha z : R) :
  0 <= label <= 1 -> 0 <= alpha <= 1 -> ce_of label alpha z <= 0.
Proof.
  intros Hl Ha. unfold ce_of.
  pose proof (log_probs_nonpos z). pose proof (log_1_probs_nonpos z).
  assert (0 <= label * alpha) by nra.
  assert (0 <= (1 - label) * (1 - alpha)) by nra.
  rewrite !Rmult_assoc. nra.
Qed.

Lemma coeff_of_nonpos (label gamma z : R) : coeff_of label gamma z <= 0.
Proof.
  unfold coeff_of. pose proof (pow_nonneg (Rabs (label - sigmoid z)) gamma). lra.
Qed.

Lemma product_nonpos_nonneg (x y : R) : x <= 0 -> y <= 0 -> 0 <= x * y.
Proof. intros Hx Hy. nra. Qed.

Lemma forward_sign (logits label alpha gamma : R) :
  0 <= label <= 1 -> 0 <= alpha <= 1 ->
  0 <= forward logits label alpha gamma.
Proof.
  intros Hl Ha. rewrite forward_product.
  apply product_nonpos_nonneg;
    [apply ce_of_nonpos; assumption | apply coeff_of_nonpos].
Qed.





Lemma pow_zero_exponent (b : R) : 0 <= b -> pow_ b 0 = 1.
Proof.
  intros Hb. unfold pow_. destruct (Req_dec_T b 0).
  - destruct (Req_dec_T 0 0); [reflexivity | lra].
  - apply Rpower_O. lra.
Qed.

(** X18: with gamma = 0 the modulating factor disappears and forward is
    the alpha-balanced binary cross-entropy. *)
Theorem forward_gamma_zero (logits label alpha : R) :
  forward logits label alpha 0
  = - (alpha * label * ln (sigmoid logits)
       + (1 - alpha) * (1 - label) * ln (1 - sigmoid logits)).
Proof.
  destruct (log_terms_exact_aux logits) as [E1 E2].
  rewrite forward_product. unfold ce_of, coeff_of. rewrite E1, E2.
  rewrite pow_zero_exponent by apply Rabs_pos. ring.
Qed.

(** X19: the gradient has the sign of probs - label on binary labels: for
    alpha in [0, 1], gamma >= 1 and a non-negative upstream gradient, the
    gradient with respect to the logit is never positive for label 1 and
    never negative for label 0.  (For gamma below 1 backward raises
    [|label - probs|] to a negative power, which is not finite in floating
    point at a saturated sigmoid.) *)
Theorem grad_sign_binary_labels (logits alpha gamma grad_output : R) :
  0 <= alpha <= 1 -> 1 <= gamma -> 0 <= grad_output ->
  grad_logits logits 1 alpha gamma grad_output <= 0
  /\ 0 <= grad_logits logits 0 alpha gamma grad_output.
Proof.
  intros Ha Hg1 Hgo. assert (Hg : 0 <= gamma) by lra. destruct (sigmoid_bounds logits) as [H0 H1].
  pose proof (log_probs_nonpos logits) as Hlp.
  pose proof (log_1_probs_nonpos logits) as Hl1.
  rewrite !grad_logits_closed.
  unfold spec_term1, spec_term2, spec_d_coeff, spec_d_ce, forward_ctx.
  cbn [snd ce coeff].
  destruct (Rlt_dec 1 (sigmoid logits)) as [|_]; [lra|].
  destruct (Rlt_dec 0 (sigmoid logits)) as [_|]; [|lra].
  pose proof (pow_nonneg (Rabs (1 - sigmoid logits)) (gamma - 1)) as P1.
  pose proof (pow_nonneg (Rabs (1 - sigmoid logits)) gamma) as P2.
  pose proof (pow_nonneg (Rabs (0 - sigmoid logits)) (gamma - 1)) as P3.
  pose proof (pow_nonneg (Rabs (0 - sigmoid logits)) gamma) as P4.
  set (p := sigmoid logits) in *.
  set (a1 := pow_ (Rabs (1 - p)) (gamma - 1)) in *.
  set (a2 := pow_ (Rabs (1 - p)) gamma) in *.
  set (a3 := pow_ (Rabs (0 - p)) (gamma - 1)) in *.
  set (a4 := pow_ (Rabs (0 - p)) gamma) in *.
  set (u := log_probs logits) in *. set (v := log_1_probs logits) in *.
  clearbody p a1 a2 a3 a4 u v.
  assert (T1 : gamma * a1 * p * (1 - p) * (u * 1 * alpha) <= 0).
  { assert (0 <= gamma * a1 * p * (1 - p))
      by (repeat apply Rmult_le_pos; lra).
    assert (u * 1 * alpha <= 0) by nra. nra. }
  assert (T2 : (alpha * 1 - p * (2 * alpha * 1 + 1 - 1 - alpha)) * - a2 <= 0).
  { assert (0 <= alpha * 1 - p * (2 * alpha * 1 + 1 - 1 - alpha)) by nra. nra. }
  assert (T3 : 0 <= - (gamma * a3 * p * (1 - p))
                    * (u * 0 * alpha + v * (1 - 0) * (1 - alpha))).
  { assert (0 <= gamma * a3 * p * (1 - p))
      by (repeat apply Rmult_le_pos; lra).
    assert (u * 0 * alpha + v * (1 - 0) * (1 - alpha) <= 0) by nra. nra. }
  assert (T4 : 0 <= (alpha * 0 - p * (2 * alpha * 0 + 1 - 0 - alpha)) * - a4).
  { assert (alpha * 0 - p * (2 * alpha * 0 + 1 - 0 - alpha) <= 0) by nra. nra. }
  split; nra.
Qed.

Lemma grad_sign_binary_labels_witness :
  grad_logits 0 1 (1 / 4) 2 1 <= 0 /\ 0 <= grad_logits 0 0 (1 / 4) 2 1.
Proof. apply grad_sign_binary_labels; lra. Defined.

End Focal_more.

(** ** [FocalLossV2]: the reductions *)

Section FocalModule_facts.
Import FocalModule.
Local Open Scope R_scope.

Lemma Rsum_nonneg (vs : list R) : Forall (fun v => 0 <= v) vs -> 0 <= Rsum vs.
Proof. induction 1 as [|v vs Hv _ IH]; cbn [Rsum]; lra. Qed.

Lemma losses_nonneg (a g : R) (elements : list (R * R)) :
  0 <= a <= 1 -> Forall (fun e => 0 <= snd e <= 1) elements ->
  Forall (fun v => 0 <= v)
         (map (fun e => FocalLoss.forward (fst e) (snd e) a g) elements).
Proof.
  intros Ha. induction 1 as [|e es He _ IH]; cbn [map]; constructor;
    [apply forward_sign; assumption | assumption].
Qed.

(** X20: the reductions of [FocalLossV2].  For alpha and labels in [0, 1],
    gamma >= 0 and a non-empty tensor, 'sum' returns the sum of the
    element-wise focal losses, 'mean' returns that sum divided by the number
    of elements, a non-negative scalar not larger than the sum, and any
    other reduction string returns the element-wise losses themselves.
    (A negative gamma is left out: the float loss is then not finite at a
    saturated sigmoid.) *)
Theorem focal_reductions (a g : R) (elements : list (R * R)) :
  0 <= a <= 1 ->
  0 <= g ->
  Forall (fun e => 0 <= snd e <= 1) elements ->
  elements <> [] ->
  forward (mkFocalLossV2 a g SUM) elements
  = Scalar (Rsum (element_losses a g elements))
  /\ forward (mkFocalLossV2 a g MEAN) elements
     = Scalar (Rsum (element_losses a g elements) / INR (length elements))
  /\ 0 <= Rsum (element_losses a g elements) / INR (length elements)
       <= Rsum (element_losses a g elements)
  /\ (forall r, r <> MEAN -> r <> SUM ->
      forward (mkFocalLossV2 a g r) elements
      = Elements (element_losses a g elements)).
Proof.
  intros Ha Hg Hl Hne.
  pose proof (Rsum_nonneg _ (losses_nonneg a g elements Ha Hl)) as Hs.
  fold (element_losses a g elements) in Hs.
  unfold forward. cbn [alpha gamma reduction].
  fold (element_losses a g elements).
  change (String.eqb SUM MEAN) with false.
  change (String.eqb SUM SUM) with true.
  change (String.eqb MEAN MEAN) with true.
  change (String.eqb MEAN SUM) with false.
  cbn [sum mean].
  assert (Hlen : length (element_losses a g elements) = length elements)
    by apply length_map.
  assert (Hn : 1 <= INR (length elements)).
  { destruct elements as [|e es]; [congruence|].
    cbn [length]. rewrite S_INR. pose proof (pos_INR (length es)). lra. }
  set (vs := element_losses a g elements) in *.
  split; [reflexivity|]. split; [|split].
  - destruct vs as [|v vs'] eqn:E.
    { destruct elements; [congruence | discriminate Hlen]. }
    rewrite <- E in *. cbn [sum]. rewrite Hlen. reflexivity.
  - split.
    + apply Rmult_le_pos; [assumption|]. left. apply Rinv_0_lt_compat. lra.
    + apply Rmult_le_reg_r with (INR (length elements)); [lra|].
      unfold Rdiv. rewrite Rmult_assoc, Rinv_l by lra. nra.
  - intros r Hm Hsum.
    apply String.eqb_neq in Hm. apply String.eqb_neq in Hsum.
    rewrite Hm, Hsum. reflexivity.
Qed.

Lemma focal_reductions_witness :
  forward (mkFocalLossV2 (1 / 4) 2 SUM) [(0, 1); (3, 0); (- 1, 1 / 2)]
  = Scalar (Rsum (element_losses (1 / 4) 2 [(0, 1); (3, 0); (- 1, 1 / 2)]))
  /\ forward (mkFocalLossV2 (1 / 4) 2 MEAN) [(0, 1); (3, 0); (- 1, 1 / 2)]
     = Scalar (Rsum (element_losses (1 / 4) 2 [(0, 1); (3, 0); (- 1, 1 / 2)])
               / INR (length [(0, 1); (3, 0); (- 1, 1 / 2)]))
  /\ 0 <= Rsum (element_losses (1 / 4) 2 [(0, 1); (3, 0); (- 1, 1 / 2)])
          / INR (length [(0, 1); (3, 0); (- 1, 1 / 2)])
       <= Rsum (element_losses (1 / 4) 2 [(0, 1); (3, 0); (- 1, 1 / 2)])
  /\ (forall r, r <> MEAN -> r <> SUM ->
      forward (mkFocalLossV2 (1 / 4) 2 r) [(0, 1); (3, 0); (- 1, 1 / 2)]
      = Elements (element_losses (1 / 4) 2 [(0, 1); (3, 0); (- 1, 1 / 2)])).
Proof.
  apply focal_reductions.
  - lra.
  - lra.
  - repeat apply Forall_cons; try apply Forall_nil; cbn [snd]; lra.
  - discriminate.
Defined.

End FocalModule_facts.

(** ** [adjust_learning_rate]: the staircase *)

Section Schedule_facts.
Import Schedule.
Local Open Scope Q_scope.

Variable A : Type.

Lemma overflows_false (x : Q) : Qabs x < float_overflow -> overflows x = false.
Proof.
  intros H. unfold overflows.
  destruct (Qle_bool float_overflow (Qabs x)) eqn:E; [|reflexivity].
  apply Qle_bool_iff in E. lraQ.
Qed.


Lemma float_overflow_large : inject_Z (2 ^ 53) < float_overflow.
Proof. vm_compute. reflexivity. Qed.

Lemma small_int_converts (k : Z) :
  (Z.abs k <= 2 ^ 53)%Z -> overflows (inject_Z k) = false.
Proof.
  intros Hk. apply overflows_false.
  apply Qle_lt_trans with (inject_Z (2 ^ 53)); [|apply float_overflow_large].
  change (Qabs (inject_Z k)) with (inject_Z (Z.abs k)).
  rewrite <- Zle_Qle. exact Hk.
Qed.

Lemma Qabs_power_le_1 (q : Q) (k : Z) :
  Qabs q <= 1 -> (0 <= k)%Z -> Qabs (q ^ k) <= 1.
Proof.
  intros Hq Hk. revert k Hk. apply natlike_ind.
  - change (q ^ 0) with 1. change (Qabs 1) with 1. lraQ.
  - intros k Hk IH.
    unfold Z.succ. rewrite Qpower_plus' by lia.
    rewrite Qpower_1_r, Qabs_Qmult.
    pose proof (Qabs_nonneg q). pose proof (Qabs_nonneg (q ^ k)).
    nraQ.
Qed.

Lemma one_below_overflow : 1 < float_overflow.
Proof. vm_compute. reflexivity. Qed.

Lemma float_pow_decaying (decay : Q) (k : Z) :
  Qabs decay <= 1 -> (0 <= k <= 2 ^ 53)%Z ->
  float_pow decay k = Ok (decay ^ k).
Proof.
  intros Hd Hk. unfold float_pow.
  rewrite small_int_converts by lia.
  destruct (Z.ltb_spec k 0); [lia|]. rewrite Bool.andb_false_r.
  rewrite overflows_false; [reflexivity|].
  pose proof (Qabs_power_le_1 decay k Hd ltac:(lia)).
  pose proof one_below_overflow. lraQ.
Qed.

Lemma float_mul_decaying (lr0 f : Q) :
  Qabs lr0 < float_overflow -> Qabs f <= 1 ->
  float_mul lr0 f = Finite (lr0 * f).
Proof.
  intros Hl Hf. unfold float_mul. rewrite overflows_false; [reflexivity|].
  rewrite Qabs_Qmult.
  pose proof (Qabs_nonneg lr0). pose proof (Qabs_nonneg f).
  apply Qle_lt_trans with (Qabs lr0); [nraQ | assumption].
Qed.

Lemma new_lr_value (lr0 decay : Q) (cur_epoch n_epochs : Z) :
  (0 < n_epochs)%Z -> (0 <= cur_epoch <= 2 ^ 53)%Z ->
  Qabs decay <= 1 -> Qabs lr0 < float_overflow ->
  new_lr lr0 decay cur_epoch n_epochs
  = Ok (Finite (lr0 * decay ^ (cur_epoch / n_epochs))).
Proof.
  intros Hn Hc Hd Hl. unfold new_lr, floordiv.
  destruct (Z.eqb_spec n_epochs 0); [lia|]. cbn [bind].
  assert (Hk : (0 <= cur_epoch / n_epochs <= 2 ^ 53)%Z).
  { split; [apply Z.div_pos; lia|].
    apply Z.le_trans with cur_epoch; [|lia].
    apply Z.div_le_upper_bound; [lia|]. nia. }
  rewrite float_pow_decaying by assumption. cbn [bind].
  rewrite float_mul_decaying;
    [reflexivity | assumption | apply Qabs_power_le_1; [assumption | lia]].
Qed.

(** X21: for a float rate lr, a decay factor of magnitude at most 1, a
    positive period and a non-negative epoch (with cur_epoch + n_epochs
    within the integers a float represents exactly), every parameter group
    receives the same finite rate lr * decay^(cur_epoch // n_epochs) and
    keeps its other entries; during the first period that rate is the
    configured lr, and one period later it is decay times the current
    one. *)
Theorem adjust_learning_rate_staircase
  (lr0 decay : Q) (param_groups : list (param_group A))
  (cur_epoch n_epochs : Z) :
  (0 < n_epochs)%Z -> (0 <= cur_epoch)%Z ->
  (cur_epoch + n_epochs <= 2 ^ 53)%Z ->
  Qabs decay <= 1 -> Qabs lr0 < float_overflow ->
  exists now later,
    adjust_learning_rate lr0 decay param_groups cur_epoch n_epochs = Ok now
    /\ adjust_learning_rate lr0 decay param_groups (cur_epoch + n_epochs) n_epochs
       = Ok later
    /\ map others now = map others param_groups
    /\ Forall (fun g => rate_is (lr g) (lr0 * decay ^ (cur_epoch / n_epochs)))
              now
    /\ ((cur_epoch < n_epochs)%Z -> Forall (fun g => rate_is (lr g) lr0) now)
    /\ Forall2 (fun g g' => exists v, lr g = Finite v
                                      /\ rate_is (lr g') (decay * v))
               now later.
Proof.
  intros Hn Hc Hb Hd Hl. unfold adjust_learning_rate.
  rewrite !new_lr_value by (assumption || lia). cbn [bind].
  eexists. eexists. split; [reflexivity|]. split; [reflexivity|].
  split; [rewrite map_map; reflexivity|].
  split; [apply Forall_forall; intros g Hg; apply in_map_iff in Hg;
          destruct Hg as [g0 [<- _]]; cbn [lr rate_is]; reflexivity|].
  split.
  - intros Hlt. rewrite Z.div_small by lia.
    apply Forall_forall. intros g Hg. apply in_map_iff in Hg.
    destruct Hg as [g0 [<- _]]. cbn [lr rate_is]. change (decay ^ 0) with 1.
    ring.
  - replace ((cur_epoch + n_epochs) / n_epochs)%Z
      with (cur_epoch / n_epochs + 1)%Z
      by (rewrite <- (Z.mul_1_l n_epochs) at 2;
          rewrite Z.div_add by lia; reflexivity).
    assert (Hk : (0 <= cur_epoch / n_epochs)%Z) by (apply Z.div_pos; lia).
    induction param_groups as [|g gs IH]; cbn [map]; constructor; [|exact IH].
    cbn [lr]. eexists. split; [reflexivity|]. cbn [rate_is].
    rewrite Qpower_plus' by lia. rewrite Qpower_1_r. ring.
Qed.


End Schedule_facts.

Lemma adjust_learning_rate_staircase_witness :
  exists now later,
    Schedule.adjust_learning_rate (1 # 10) (1 # 2)
      [Schedule.mkGroup (Schedule.Finite 7) tt;
       Schedule.mkGroup (Schedule.Finite 9) tt] 2 3 = Ok now
    /\ Schedule.adjust_learning_rate (1 # 10) (1 # 2)
      [Schedule.mkGroup (Schedule.Finite 7) tt;
       Schedule.mkGroup (Schedule.Finite 9) tt] (2 + 3) 3
       = Ok later
    /\ map Schedule.others now
       = map Schedule.others [Schedule.mkGroup (Schedule.Finite 7) tt;
                              Schedule.mkGroup (Schedule.Finite 9) tt]
    /\ Forall (fun g => Schedule.rate_is (Schedule.lr g)
                          ((1 # 10) * (1 # 2) ^ (2 / 3))%Q) now
    /\ ((2 < 3)%Z ->
        Forall (fun g => Schedule.rate_is (Schedule.lr g) (1 # 10)%Q) now)
    /\ Forall2 (fun g g' => exists v,
                    Schedule.lr g = Schedule.Finite v
                    /\ Schedule.rate_is (Schedule.lr g') ((1 # 2) * v)%Q)
               now later.
Proof.
  apply (adjust_learning_rate_staircase unit (1 # 10) (1 # 2)).
  - lia.
  - lia.
  - vm_compute. discriminate.
  - vm_compute. discriminate.
  - vm_compute. reflexivity.
Defined.


(** ** Drivers: what a run does *)

Section Driver_more.
Import Np Driver Averages.

Variable image : Type.
Variable predict : image -> ndarray.
Variable NUM_CLASSES : Z.

Lemma validate_utils_raises (val_loader : list (batch image)) :
  exists e,
    validate image predict utils_calculate_mean_iu NUM_CLASSES val_loader
    = Raise e
    /\ (val_loader = [] -> e = ZeroDivisionError).
Proof.
  unfold validate. destruct val_loader as [|[inputs labels] rest].
  - exists ZeroDivisionError. split; reflexivity.
  - cbn [validate_loop]. unfold validate_batch, utils_calculate_mean_iu.
    destruct (MeanIU.calculate_mean_iu [predict inputs] [labels] NUM_CLASSES)
      as [m|e]; cbn [bind unpack6].
    + exists TypeError. split; [reflexivity | discriminate].
    + exists e. split; [reflexivity | discriminate].
Qed.

(** X23: with [calculate_mean_iu] of utils.py as the metric a run never
    trains: whatever the loaders and the number of epochs, the validation
    pass that precedes the first epoch raises (ZeroDivisionError on an empty
    validation loader) and [main] stops after three calls, none of them a
    training iteration. *)
Theorem main_with_utils_metric_never_trains
  (MAX_EPOCH : Z) (train_loader val_loader : list (batch image)) :
  exists e,
    main image predict utils_calculate_mean_iu NUM_CLASSES MAX_EPOCH
         train_loader val_loader
    = ([NetTrain; SchedulerCreate; ValidateCall (-1)], Raise e)
    /\ (val_loader = [] -> e = ZeroDivisionError).
Proof.
  destruct (validate_utils_raises val_loader) as [e [E He]].
  exists e. unfold main. rewrite E. split; [reflexivity | assumption].
Qed.

Variable calc : list ndarray -> list ndarray -> Z -> result pyval.

Lemma epochs_ok (train_loader val_loader : list (batch image)) (es : list Z)
  (printed : list Q) :
  validate image predict calc NUM_CLASSES val_loader = Ok printed ->
  epochs image predict calc NUM_CLASSES train_loader val_loader es
  = (flat_map (fun e => train image train_loader ++ [ValidateCall e]) es, Ok tt).
Proof.
  intros Hv. induction es as [|e es IH]; cbn [epochs flat_map]; [reflexivity|].
  rewrite Hv, IH. rewrite <- app_assoc. reflexivity.
Qed.

Lemma count_steps_epochs (train_loader : list (batch image)) (es : list Z) :
  count_event OptimizerStep
    (flat_map (fun e => train image train_loader ++ [ValidateCall e]) es)
  = (length es * length train_loader)%nat.
Proof.
  induction es as [|e es IH]; cbn [flat_map length]; [reflexivity|].
  rewrite !count_event_app, IH, train_count. cbn. lia.
Qed.

Lemma count_validate_epochs (train_loader : list (batch image)) (es : list Z)
  (e : Z) :
  count_event (ValidateCall e)
    (flat_map (fun e' => train image train_loader ++ [ValidateCall e']) es)
  = count_occ Z.eq_dec es e.
Proof.
  induction es as [|e' es IH]; cbn [flat_map count_occ]; [reflexivity|].
  rewrite !count_event_app, IH, train_count.
  unfold count_event at 1 2. cbn [count_occ].
  destruct (event_eq_dec ZeroGrad (ValidateCall e)); [discriminate|].
  destruct (event_eq_dec NetForward (ValidateCall e)); [discriminate|].
  destruct (event_eq_dec Criterion (ValidateCall e)); [discriminate|].
  destruct (event_eq_dec OptimizerStep (ValidateCall e)); [discriminate|].
  rewrite Nat.mul_0_r.
  destruct (event_eq_dec (ValidateCall e') (ValidateCall e)) as [E|E];
    destruct (Z.eq_dec e' e) as [E'|E']; try lia.
  - injection E as E. contradiction.
  - subst e'. contradiction.
Qed.

(** X24: when the validation pass succeeds, [main] runs to the end: it
    returns normally after MAX_EPOCH * len(train_loader) optimizer steps,
    with one validation call before the first epoch and one after every
    epoch 0 .. MAX_EPOCH - 1. *)
Theorem main_completes
  (MAX_EPOCH : Z) (train_loader val_loader : list (batch image))
  (printed : list Q) :
  validate image predict calc NUM_CLASSES val_loader = Ok printed ->
  exists trace,
    main image predict calc NUM_CLASSES MAX_EPOCH train_loader val_loader
    = (trace, Ok tt)
    /\ count_event OptimizerStep trace
       = (Z.to_nat MAX_EPOCH * length train_loader)%nat
    /\ count_event (ValidateCall (-1)) trace = 1%nat
    /\ (forall epoch, (0 <= epoch < MAX_EPOCH)%Z ->
                      count_event (ValidateCall epoch) trace = 1%nat).
Proof.
  intros Hv. unfold main. rewrite Hv, (epochs_ok _ _ _ _ Hv).
  eexists. split; [reflexivity|].
  rewrite !count_event_app, count_steps_epochs, count_validate_epochs,
    range_length.
  split; [cbn; lia|]. split.
  - assert (H : ~ In (-1)%Z (range MAX_EPOCH)) by (rewrite range_In; lia).
    apply (count_occ_not_In Z.eq_dec) in H. rewrite H. reflexivity.
  - intros epoch He. rewrite count_event_app, count_validate_epochs.
    assert (Hin : In epoch (range MAX_EPOCH)) by (apply range_In; assumption).
    pose proof (proj1 (NoDup_count_occ' Z.eq_dec (range MAX_EPOCH))
                  (range_NoDup MAX_EPOCH) epoch Hin) as Hc.
    rewrite Hc. unfold count_event. cbn [count_occ].
    destruct (event_eq_dec NetTrain (ValidateCall epoch)); [discriminate|].
    destruct (event_eq_dec SchedulerCreate (ValidateCall epoch)); [discriminate|].
    destruct (event_eq_dec (ValidateCall (-1)) (ValidateCall epoch)) as [E|_];
      [injection E as E; lia | reflexivity].
Qed.

Lemma add_sums_component (k : nat) (s t : sums) :
  (nth k (components (add_sums s t)) 0
   == nth k (components s) 0 + nth k (components t) 0)%Q.
Proof.
  destruct s as [[[[[s0 s1] s2] s3] s4] s5].
  destruct t as [[[[[t0 t1] t2] t3] t4] t5].
  unfold add_sums, components.
  do 6 (destruct k as [|k]; [cbn [nth]; reflexivity|]).
  destruct k; cbn [nth]; ring.
Qed.

Lemma fold_add_sums_component (k : nat) (ms : list sums) :
  forall s,
    (nth k (components (fold_left add_sums ms s)) 0
     == nth k (components s) 0
        + Qsum (map (fun t => nth k (components t) 0) ms))%Q.
Proof.
  induction ms as [|t ms IH]; intros s; cbn [fold_left map Qsum].
  - ring.
  - rewrite IH, add_sums_component. ring.
Qed.

Lemma unpack6_components (t : sums) : unpack6 (PyTuple (components t)) = Ok t.
Proof. destruct t as [[[[[t0 t1] t2] t3] t4] t5]. reflexivity. Qed.

Lemma validate_loop_fold (m : batch image -> sums)
  (val_loader : list (batch image)) :
  (forall data, In data val_loader ->
     calc [predict (fst data)] [snd data] NUM_CLASSES
     = Ok (PyTuple (components (m data)))) ->
  forall s,
    validate_loop image predict calc NUM_CLASSES val_loader s
    = Ok (fold_left add_sums (map m val_loader) s).
Proof.
  induction val_loader as [|data rest IH]; intros H s; [reflexivity|].
  cbn [validate_loop map fold_left]. unfold validate_batch.
  destruct data as [inputs labels] eqn:Ed.
  pose proof (H (inputs, labels) (or_introl eq_refl)) as Hc.
  cbn [fst snd] in Hc. rewrite Hc. cbn [bind].
  rewrite unpack6_components. cbn [bind].
  apply IH. intros d Hd. apply H. right. exact Hd.
Qed.

(** X25: when the metric returns six values for every batch of a non-empty
    validation loader, [validate] prints, component by component, the
    average of those values over the batches. *)
Theorem validate_prints_averages (m : batch image -> sums)
  (val_loader : list (batch image)) :
  val_loader <> [] ->
  (forall data, In data val_loader ->
     calc [predict (fst data)] [snd data] NUM_CLASSES
     = Ok (PyTuple (components (m data)))) ->
  exists printed,
    validate image predict calc NUM_CLASSES val_loader = Ok printed
    /\ Forall2 Qeq printed
         (map (fun k =>
                 Qsum (map (fun data => nth k (components (m data)) 0%Q)
                           val_loader)
                 / inject_Z (Z.of_nat (length val_loader)))%Q
              (seq 0 6)).
Proof.
  intros Hne Hc. unfold validate.
  rewrite (validate_loop_fold m val_loader Hc). cbn [bind].
  destruct (Nat.eqb_spec (length val_loader) 0) as [E|_].
  { destruct val_loader; [congruence | discriminate E]. }
  pose proof (fun k => fold_add_sums_component k (map m val_loader)
                         (0, 0, 0, 0, 0, 0)%Q) as Hk.
  destruct (fold_left add_sums (map m val_loader) (0, 0, 0, 0, 0, 0)%Q)
    as [[[[[s0 s1] s2] s3] s4] s5].
  eexists. split; [reflexivity|].
  cbn [seq map].
  repeat (apply Forall2_cons || apply Forall2_nil).
  - pose proof (Hk 0%nat) as H. cbn [components nth] in H.
    rewrite map_map in H. rewrite H. rewrite Qplus_0_l. reflexivity.
  - pose proof (Hk 1%nat) as H. cbn [components nth] in H.
    rewrite map_map in H. rewrite H. rewrite Qplus_0_l. reflexivity.
  - pose proof (Hk 2%nat) as H. cbn [components nth] in H.
    rewrite map_map in H. rewrite H. rewrite Qplus_0_l. reflexivity.
  - pose proof (Hk 3%nat) as H. cbn [components nth] in H.
    rewrite map_map in H. rewrite H. rewrite Qplus_0_l. reflexivity.
  - pose proof (Hk 4%nat) as H. cbn [components nth] in H.
    rewrite map_map in H. rewrite H. rewrite Qplus_0_l. reflexivity.
  - pose proof (Hk 5%nat) as H. cbn [components nth] in H.
    rewrite map_map in H. rewrite H. rewrite Qplus_0_l. reflexivity.
Qed.

End Driver_more.

Lemma validate_prints_averages_witness :
  exists printed,
    Driver.validate unit (fun _ => [0%Z])
      (fun _ gts _ => Ok (Driver.PyTuple
                            [inject_Z (Z.of_nat (length (hd [] gts)));
                             1; 2; 3; 4; 5]%Q)) 5
      [(tt, [0%Z]); (tt, [1; 1; 1]%Z)]
    = Ok printed
    /\ Forall2 Qeq printed
         (map (fun k =>
                 Np.Qsum (map (fun data =>
                              nth k (Averages.components
                                       (inject_Z (Z.of_nat (length (snd data))),
                                        1, 2, 3, 4, 5)%Q) 0%Q)
                           [(tt, [0%Z]); (tt, [1; 1; 1]%Z)])
                 / inject_Z (Z.of_nat (length [(tt, [0%Z]); (tt, [1; 1; 1]%Z)])))%Q
              (seq 0 6)).
Proof.
  apply (validate_prints_averages unit (fun _ => [0%Z]) 5
           (fun _ gts _ => Ok (Driver.PyTuple
                                 [inject_Z (Z.of_nat (length (hd [] gts)));
                                  1; 2; 3; 4; 5]%Q))
           (fun data => (inject_Z (Z.of_nat (length (snd data))),
                         1, 2, 3, 4, 5)%Q)).
  - discriminate.
  - intros data _. reflexivity.
Defined.

Lemma main_completes_witness :
  exists trace,
    Driver.main unit (fun _ => [0%Z])
      (fun _ _ _ => Ok (Driver.PyTuple [1; 1; 1; 1; 1; 1]%Q)) 5 3
      [(tt, [0%Z]); (tt, [1%Z])] [(tt, [0%Z])]
    = (trace, Ok tt)
    /\ Driver.count_event Driver.OptimizerStep trace
       = (Z.to_nat 3 * length [(tt, [0%Z]); (tt, [1%Z])])%nat
    /\ Driver.count_event (Driver.ValidateCall (-1)) trace = 1%nat
    /\ (forall epoch, (0 <= epoch < 3)%Z ->
                      Driver.count_event (Driver.ValidateCall epoch) trace = 1%nat).
Proof.
  apply (main_completes unit (fun _ => [0%Z]) 5
           (fun _ _ _ => Ok (Driver.PyTuple [1; 1; 1; 1; 1; 1]%Q)) 3
           [(tt, [0%Z]); (tt, [1%Z])] [(tt, [0%Z])] [1; 1; 1; 1; 1; 1]%Q).
  reflexivity.
Defined.

(** ** [rmrf_mkdir] and [rm_file] *)

Section Files_facts.
Import Files.

Lemma path_eqb_eq (p q : path) : path_eqb p q = true <-> p = q.
Proof.
  unfold path_eqb. destruct (list_eq_dec String.string_dec p q);
    split; congruence.
Qed.

Lemma path_eqb_refl (p : path) : path_eqb p p = true.
Proof. apply path_eqb_eq. reflexivity. Qed.

Lemma path_eqb_neq (p q : path) : p <> q -> path_eqb p q = false.
Proof.
  intros H. destruct (path_eqb p q) eqn:E; [|reflexivity].
  apply path_eqb_eq in E. contradiction.
Qed.

Lemma under_iff (d p : path) : under d p = true <-> exists q, p = d ++ q.
Proof.
  revert p; induction d as [|x d IH]; intros p; cbn [under].
  - split; [intros _; exists p; reflexivity | reflexivity].
  - destruct p as [|y p].
    + split; [discriminate | intros [q H]; discriminate H].
    + destruct (String.string_dec x y) as [->|Hne].
      * rewrite IH. split; intros [q H]; exists q.
        -- cbn [app]. congruence.
        -- cbn [app] in H. congruence.
      * split; [discriminate|]. intros [q H]. cbn [app] in H. congruence.
Qed.

Lemma under_refl (d : path) : under d d = true.
Proof. apply under_iff. exists []. symmetry. apply app_nil_r. Qed.

Lemma under_parent (d p : path) :
  p <> [] -> under d (parent p) = true -> under d p = true.
Proof.
  intros Hp H. apply under_iff in H as [q Hq]. apply under_iff.
  exists (q ++ [last p String.EmptyString]).
  rewrite app_assoc, <- Hq. unfold parent. apply app_removelast_last. exact Hp.
Qed.

Lemma under_length (d p : path) : under d p = true -> (length d <= length p)%nat.
Proof.
  intros H. apply under_iff in H as [q ->]. rewrite length_app. lia.
Qed.

Lemma parent_length (p : path) : p <> [] -> (length (parent p) < length p)%nat.
Proof.
  intros Hp. rewrite (app_removelast_last String.EmptyString Hp) at 2.
  unfold parent. rewrite length_app. cbn [length]. lia.
Qed.

Lemma not_under_parent (d : path) : d <> [] -> under d (parent d) = false.
Proof.
  intros Hd. destruct (under d (parent d)) eqn:E; [|reflexivity].
  apply under_length in E. pose proof (parent_length d Hd). lia.
Qed.

Lemma ancestor_exists (fs : filesystem) (d : path) :
  well_formed fs ->
  forall q, fs (d ++ q) <> None -> fs d <> None.
Proof.
  intros [_ Hwf] q. induction q as [|x q IH] using rev_ind.
  - rewrite app_nil_r. exact (fun H => H).
  - intros H. apply IH.
    assert (Hne : d ++ q ++ [x] <> []) by (destruct d, q; discriminate).
    pose proof (Hwf _ Hne H) as Hp. unfold parent in Hp.
    rewrite app_assoc, removelast_last in Hp. congruence.
Qed.

Lemma fresh_at_well_formed (fs : filesystem) (d : path) :
  well_formed fs -> d <> [] -> fs (parent d) = Some Dir ->
  well_formed (fresh_at fs d).
Proof.
  intros [Hroot Hwf] Hd Hpar. unfold fresh_at. split.
  - rewrite path_eqb_neq by congruence.
    destruct (under d []) eqn:E; [|exact Hroot].
    apply under_length in E. destruct d; [congruence | cbn in E; lia].
  - intros p Hp Hf.
    destruct (path_eqb p d) eqn:Epd.
    + apply path_eqb_eq in Epd. subst p.
      rewrite path_eqb_neq
        by (intros E; pose proof (parent_length d Hd) as Hl;
            rewrite E in Hl; lia).
      rewrite not_under_parent by assumption. exact Hpar.
    + destruct (under d p) eqn:Eu; [congruence|].
      assert (Hup : under d (parent p) = false).
      { destruct (under d (parent p)) eqn:E; [|reflexivity].
        apply under_parent in E; [congruence | assumption]. }
      rewrite Hup.
      rewrite path_eqb_neq.
      * apply Hwf; assumption.
      * intros E. rewrite E, under_refl in Hup. discriminate.
Qed.

Lemma rmrf_mkdir_result (fs : filesystem) (d : path) :
  well_formed fs -> d <> [] -> fs (parent d) = Some Dir -> fs d <> Some File ->
  exists fs',
    rmrf_mkdir fs d = Done fs' /\ forall p, fs' p = fresh_at fs d p.
Proof.
  intros Hwf Hd Hpar Hfile. unfold rmrf_mkdir, exists_.
  destruct (fs d) as [[|]|] eqn:Ed; [congruence | |].
  - unfold rmtree. rewrite Ed. unfold mkdir.
    rewrite under_refl, not_under_parent, Hpar by assumption.
    eexists. split; [reflexivity|]. intros p. reflexivity.
  - unfold mkdir. rewrite Ed, Hpar.
    eexists. split; [reflexivity|]. intros p. unfold fresh_at.
    destruct (path_eqb p d); [reflexivity|].
    destruct (under d p) eqn:Eu; [|reflexivity].
    apply under_iff in Eu as [q ->].
    destruct (fs (d ++ q)) eqn:E; [|reflexivity].
    exfalso. apply (ancestor_exists fs d Hwf q); congruence.
Qed.

(** X26: on a well-formed file system, for a directory name whose parent
    is an existing directory and which is not a regular file,
    [rmrf_mkdir] succeeds and leaves [dir_name] as an empty directory,
    every path outside it untouched and the file system well formed;
    calling it a second time changes nothing. *)
Theorem rmrf_mkdir_fresh_directory (fs : filesystem) (dir_name : path) :
  well_formed fs -> dir_name <> [] ->
  fs (parent dir_name) = Some Dir -> fs dir_name <> Some File ->
  exists fs',
    rmrf_mkdir fs dir_name = Done fs'
    /\ fs' dir_name = Some Dir
    /\ (forall p, under dir_name p = true -> p <> dir_name -> fs' p = None)
    /\ (forall p, under dir_name p = false -> fs' p = fs p)
    /\ well_formed fs'
    /\ exists fs'',
         rmrf_mkdir fs' dir_name = Done fs'' /\ forall p, fs'' p = fs' p.
Proof.
  intros Hwf Hd Hpar Hfile.
  destruct (rmrf_mkdir_result fs dir_name Hwf Hd Hpar Hfile) as [fs' [E Hfs']].
  pose proof (fresh_at_well_formed fs dir_name Hwf Hd Hpar) as Hwf0.
  assert (Hd' : fs' dir_name = Some Dir)
    by (rewrite Hfs'; unfold fresh_at; rewrite path_eqb_refl; reflexivity).
  assert (Hout : forall p, under dir_name p = false -> fs' p = fs p).
  { intros p Hu. rewrite Hfs'. unfold fresh_at. rewrite Hu.
    rewrite path_eqb_neq; [reflexivity|].
    intros ->. rewrite under_refl in Hu. discriminate. }
  assert (Hwf' : well_formed fs').
  { destruct Hwf0 as [H0 H1]. split.
    - rewrite Hfs'. exact H0.
    - intros p Hp Hf. rewrite Hfs' in *. apply H1; assumption. }
  exists fs'. split; [assumption|]. split; [assumption|].
  split.
  { intros p Hu Hne. rewrite Hfs'. unfold fresh_at.
    rewrite path_eqb_neq, Hu by assumption. reflexivity. }
  split; [assumption|]. split; [assumption|].
  destruct (rmrf_mkdir_result fs' dir_name Hwf' Hd) as [fs'' [E' Hfs'']].
  - rewrite Hout by (apply not_under_parent; assumption). exact Hpar.
  - congruence.
  - exists fs''. split; [assumption|]. intros p.
    rewrite Hfs''. unfold fresh_at at 1.
    destruct (path_eqb p dir_name) eqn:Ep.
    + apply path_eqb_eq in Ep. subst p. symmetry. exact Hd'.
    + destruct (under dir_name p) eqn:Eu; [|reflexivity].
      rewrite Hfs'. unfold fresh_at. rewrite Ep, Eu. reflexivity.
Qed.

(** X27: [rm_file] does nothing on a path that does not exist, raises
    IsADirectoryError on a directory, and on a regular file of a
    well-formed file system it removes that file only, leaving a
    well-formed file system. *)
Theorem rm_file_outcomes (fs : filesystem) (path_file : path) :
  (fs path_file = None -> rm_file fs path_file = Done fs)
  /\ (fs path_file = Some Dir ->
      rm_file fs path_file = Failed IsADirectoryError)
  /\ (fs path_file = Some File -> well_formed fs ->
      exists fs',
        rm_file fs path_file = Done fs'
        /\ fs' path_file = None
        /\ (forall q, q <> path_file -> fs' q = fs q)
        /\ well_formed fs').
Proof.
  unfold rm_file, exists_, remove. split; [|split].
  - intros ->. reflexivity.
  - intros ->. reflexivity.
  - intros E [Hroot Hwf]. rewrite E.
    eexists. split; [reflexivity|].
    split; [rewrite path_eqb_refl; reflexivity|].
    split; [intros q Hq; rewrite path_eqb_neq by assumption; reflexivity|].
    split.
    + rewrite path_eqb_neq; [exact Hroot | congruence].
    + intros q Hq Hf. destruct (path_eqb q path_file) eqn:Eq; [congruence|].
      rewrite path_eqb_neq; [apply Hwf; assumption|].
      intros Ep. pose proof (Hwf q Hq Hf) as Hd. congruence.
Qed.

End Files_facts.

Lemma sample_fs_well_formed : Files.well_formed FilesExample.sample_fs.
Proof.
  split; [reflexivity|].
  intros p Hp Hf. unfold FilesExample.sample_fs in *.
  destruct (Files.path_eqb p []) eqn:E0;
    [apply path_eqb_eq in E0; contradiction|].
  destruct (Files.path_eqb p FilesExample.exp_dir) eqn:E1;
    [apply path_eqb_eq in E1; subst p; reflexivity|].
  destruct (Files.path_eqb p FilesExample.log_file) eqn:E2;
    [apply path_eqb_eq in E2; subst p; reflexivity | congruence].
Qed.

Lemma rmrf_mkdir_fresh_directory_witness :
  exists fs',
    Files.rmrf_mkdir FilesExample.sample_fs FilesExample.exp_dir = Files.Done fs'
    /\ fs' FilesExample.exp_dir = Some Files.Dir
    /\ (forall p, Files.under FilesExample.exp_dir p = true ->
                  p <> FilesExample.exp_dir -> fs' p = None)
    /\ (forall p, Files.under FilesExample.exp_dir p = false ->
                  fs' p = FilesExample.sample_fs p)
    /\ Files.well_formed fs'
    /\ exists fs'',
         Files.rmrf_mkdir fs' FilesExample.exp_dir = Files.Done fs''
         /\ forall p, fs'' p = fs' p.
Proof.
  apply rmrf_mkdir_fresh_directory.
  - apply sample_fs_well_formed.
  - discriminate.
  - reflexivity.
  - discriminate.
Defined.
